(** * REST argument binding of protocol/rest/server/rest_server.go

    A shallow embedding of the argument binder of the REST server
    ([GetRouteFunc], [getArgsInterfaceFromRequest], [getArgsFromRequest]
    and the four [assembleArgsFrom...] passes) together with the
    properties of the binder that the design document states.

    Conventions of the embedding:
    - Go [int] and [int64] are 64-bit; integers are [Z] and the places
      where Go wraps around are written out ([wrap]).
    - A Go [map[int]T] is a [gmap Z T].  The order in which a
      [for k, v := range m] loop visits a map is not specified by Go and
      changes from one loop to the next; every such loop of the source
      takes its visiting order from a [range_order], which is only
      required to enumerate the map.
    - Indexing a slice out of range, [Elem] on a type without element and
      [make] with a length that is negative or beyond what the runtime
      allocates panic in Go; the embedding returns [None] there, so that
      [Some] results are panic-free runs.  Memory is taken to be
      available: running out of it is a fatal error of the runtime, not a
      panic.
    - Calls of the logger are recorded, in order, in a list of [entry]. *)

From stdpp Require Import base option list strings gmap fin_maps sorting.
From Stdlib Require Import ZArith Lia Ascii.

Local Open Scope Z_scope.

(** ** Machine integers *)

(** Two's complement wrap-around of a [w]-bit signed integer. *)
Definition wrap (w : Z) (z : Z) : Z :=
  (z + 2 ^ (w - 1)) mod 2 ^ w - 2 ^ (w - 1).

(** [IntSize] of the strconv package on the platforms the server targets. *)
Definition IntSize : Z := 64.

(** ** The part of package reflect the binder uses *)

Module reflect.

Inductive Kind : Set :=
| Bool | Int | Int32 | Int64 | Interface | Ptr | Slice | String | Struct.

#[global] Instance Kind_eq_dec : EqDecision Kind.
Proof. solve_decision. Defined.

(** Types of formal parameters: the basic types the binder coerces to,
    the empty interface, slices and pointers of those, and named
    structured types [pkg.Name]. *)
Inductive Type_ : Set :=
| TBool | TInt | TInt32 | TInt64 | TString
| TInterface
| TSlice (elem : Type_)
| TPtr (elem : Type_)
| TStruct (pkg name : string).

#[global] Instance Type_eq_dec : EqDecision Type_.
Proof. solve_decision. Defined.

(** [t.Kind()] *)
Definition Type_Kind (t : Type_) : Kind :=
  match t with
  | TBool => Bool | TInt => Int | TInt32 => Int32 | TInt64 => Int64
  | TString => String | TInterface => Interface
  | TSlice _ => Slice | TPtr _ => Ptr | TStruct _ _ => Struct
  end.

(** [t.Elem()]; panics for a type that has no element type. *)
Definition Type_Elem (t : Type_) : option Type_ :=
  match t with
  | TSlice e | TPtr e => Some e
  | _ => None
  end.

(** [t.String()] *)
Fixpoint Type_String (t : Type_) : string :=
  match t with
  | TBool => "bool" | TInt => "int" | TInt32 => "int32" | TInt64 => "int64"
  | TString => "string"
  | TInterface => "interface {}"
  | TSlice e => "[]" +:+ Type_String e
  | TPtr e => "*" +:+ Type_String e
  | TStruct pkg name => pkg +:+ "." +:+ name
  end.

End reflect.

(** ** Dynamic values held by [interface{}] *)

#[warnings="-register-all"]
Inductive value : Type :=
| VNil                                     (* the nil interface value *)
| VBool (b : bool)
| VInt (n : Z)
| VInt32 (n : Z)
| VInt64 (n : Z)
| VString (s : string)
| VStrings (l : list string)               (* []string *)
| VNilSlice (elem : reflect.Type_)         (* nil slice of type []elem *)
| VNilPtr (elem : reflect.Type_)           (* nil pointer of type *elem *)
| VPtr (elem : reflect.Type_) (pointee : value)   (* non-nil *elem *)
| VStruct (pkg name : string) (fields : list (string * value))
| VMap (kvs : list (string * value))       (* map[string]interface{} *)
| VMaps (ms : list (list (string * value))). (* []map[string]interface{} *)

Module Import reflect_values.

(** [reflect.Zero(t).Interface()] *)
Definition Zero (t : reflect.Type_) : value :=
  match t with
  | reflect.TBool => VBool false
  | reflect.TInt => VInt 0
  | reflect.TInt32 => VInt32 0
  | reflect.TInt64 => VInt64 0
  | reflect.TString => VString EmptyString
  | reflect.TInterface => VNil
  | reflect.TSlice e => VNilSlice e
  | reflect.TPtr e => VNilPtr e
  | reflect.TStruct pkg name => VStruct pkg name []
  end.

(** [reflect.New(t).Interface()]: a pointer to a fresh zero [t]. *)
Definition New (t : reflect.Type_) : value := VPtr t (Zero t).

End reflect_values.

(** ** The part of package strconv the binder uses *)

Module strconv.

Inductive num_err : Set := ErrSyntax | ErrRange.

Record NumError : Set := { Func : string; Num : string; Err : num_err }.

Definition syntaxError (fn str : string) : NumError :=
  {| Func := fn; Num := str; Err := ErrSyntax |}.
Definition rangeError (fn str : string) : NumError :=
  {| Func := fn; Num := str; Err := ErrRange |}.

Definition digit (c : Ascii.ascii) : option Z :=
  let n := Z.of_N (Ascii.N_of_ascii c) in
  if (48 <=? n) && (n <=? 57) then Some (n - 48) else None.

(** The digit loop of [ParseUint] in base 10: a byte that is no digit
    is a syntax error, exceeding [maxVal] a range error, whichever
    comes first. *)
Fixpoint digits (s0 : string) (maxVal : Z) (s : string) (n : Z)
  : Z * option NumError :=
  match s with
  | EmptyString => (n, None)
  | String.String c s' =>
      match digit c with
      | None => (0, Some (syntaxError "ParseUint" s0))
      | Some d =>
          if maxVal <? n * 10 + d
          then (maxVal, Some (rangeError "ParseUint" s0))
          else digits s0 maxVal s' (n * 10 + d)
      end
  end.

(** [strconv.ParseUint(s, 10, bitSize)] *)
Definition ParseUint (s : string) (bitSize : Z) : Z * option NumError :=
  match s with
  | EmptyString => (0, Some (syntaxError "ParseUint" s))
  | _ =>
      let bitSize := if bitSize =? 0 then IntSize else bitSize in
      digits s (2 ^ bitSize - 1) s 0
  end.

(** [strconv.ParseInt(s, 10, bitSize)] *)
Definition ParseInt (s : string) (bitSize : Z) : Z * option NumError :=
  match s with
  | EmptyString => (0, Some (syntaxError "ParseInt" s))
  | String.String c rest =>
      let neg := bool_decide (c = "-"%char) in
      let s' := if bool_decide (c = "+"%char) || neg then rest else s in
      let '(un, err) := ParseUint s' bitSize in
      match err with
      | Some {| Err := ErrSyntax |} => (0, Some (syntaxError "ParseInt" s))
      | _ =>
          let bitSize := if bitSize =? 0 then IntSize else bitSize in
          let cutoff := 2 ^ (bitSize - 1) in
          if negb neg && (cutoff <=? un)
          then (cutoff - 1, Some (rangeError "ParseInt" s))
          else if neg && (cutoff <? un)
          then (- cutoff, Some (rangeError "ParseInt" s))
          else (if neg then - un else un, None)
      end
  end.

(** [strconv.Atoi(s)]: [ParseInt(s, 10, 0)] reported under the name Atoi. *)
Definition Atoi (s : string) : Z * option NumError :=
  let '(i64, err) := ParseInt s 0 in
  (wrap IntSize i64,
   (λ e, {| Func := "Atoi"; Num := Num e; Err := Err e |}) <$> err).

End strconv.

(** ** Errors and the logger *)

Inductive error : Type :=
| NumErr (e : strconv.NumError)      (* a *strconv.NumError *)
| EntityErr (msg : string).          (* an error of the request adapter *)

Inductive level : Set := WARN | ERROR.

(** One constructor per logging statement of the source. *)
Inductive message : Type :=
| PathArgMissing (k : Z)        (* Path param parse error, the args:k doesn't exist *)
| PathArgKind (k : Z)           (* ... the args:k of type isn't int or string *)
| PathParse (e : error)         (* Path param parse error, error is e *)
| QueryArgMissing (k : Z)
| QueryArgKind (k : Z)          (* ... isn't int or string or slice *)
| QueryParse (e : error)
| HeaderArgMissing (k : Z)
| HeaderArgKind (k : Z)         (* ... of type isn't string *)
| BodyRead (e : error)          (* Read body entity error *)
| BodyReadAsMap (e : error)     (* Read body entity as map[string]interface{} error *)
| WriteErrorFailed (e : error)  (* WriteError error *)
| WriteEntityFailed (e : error). (* WriteEntity error *)

Definition entry : Type := level * message.

(** ** External collaborators *)

(** The accessors of [RestServerRequest] the binder calls.  [ReadEntity]
    receives the current content of the variable its argument points to
    and yields the content after decoding, or the error. *)
Record RestServerRequest : Type := {
  PathParameter : string → string;
  QueryParameter : string → string;
  QueryParameters : string → list string;
  HeaderParameter : string → string;
  ReadEntity : value → error + value
}.

(** What the route function does to the response: one call of
    [WriteError] or of [WriteEntity], each of which may fail. *)
Record RestServerResponse : Type := {
  WriteError : Z → error → option error;
  WriteEntity : value → option error
}.

Inductive written : Type :=
| WroteError (httpStatus : Z) (e : error)
| WroteEntity (v : value).

(** The result of an invocation, [protocol.Result]. *)
Record Result : Type := { Error : option error; Result_ : value }.

(** [invoker.Invoke] on the invocation built from a method name, the
    arguments and an empty attachment map. *)
Definition Invoker : Type := string → list value → Result.

(** The signature of a method as the service registry records it;
    [ReplyType] may be nil. *)
Record MethodType : Type := {
  ArgsType : list reflect.Type_;
  ReplyType : option reflect.Type_
}.

Definition StatusInternalServerError : Z := 500.

(** Modelled from the spec: the declaration of [rest_config.RestMethodConfig]
    is not part of the file; these are the fields the binder reads, typed
    as the binder uses them (three [map[int]string] and an [int] whose
    negative values mean that no argument is taken from the body). *)
Record RestMethodConfig : Type := {
  MethodName : string;
  PathParamsMap : gmap Z string;
  QueryParamsMap : gmap Z string;
  HeadersMap : gmap Z string;
  Body : Z
}.

(** ** Slices and range loops *)

(** The bytes of an interface value: two words. *)
Definition interfaceSize : Z := 2 * (IntSize / 8).

(** [maxAlloc] of the runtime on the 64-bit platforms the server
    targets, where heap addresses have 48 bits. *)
Definition maxAlloc : Z := 2 ^ 48.

(** [make([]interface{}, n)].  [runtime.makeslice] panics when [n] is
    negative and when [n] elements need more than [maxAlloc] bytes (a
    product that overflows the machine word is beyond [maxAlloc] too).
    A slice that exists occupies no more than [maxAlloc] bytes: [held]
    is the length of a slice that the caller holds and whose elements
    have the size of an interface value, 0 when it holds none, so a
    length up to [held] passes the test of [makeslice]. *)
Definition make (held n : Z) : option (list value) :=
  if decide (0 ≤ n ∧ (n * interfaceSize ≤ maxAlloc ∨ n ≤ held))
  then Some (replicate (Z.to_nat n) VNil) else None.

(** [a[k]] as an expression *)
Definition index {A} (a : list A) (k : Z) : option A :=
  if decide (0 ≤ k) then a !! Z.to_nat k else None.

(** [a[k] = x] *)
Definition store {A} (a : list A) (k : Z) (x : A) : option (list A) :=
  if decide (0 ≤ k < Z.of_nat (length a))
  then Some (<[Z.to_nat k := x]> a) else None.

Definition len {A} (a : list A) : Z := Z.of_nat (length a).

(** The loops of the source that range over a map. *)
Inductive loop : Set := PathLoop | QueryLoop | HeaderLoop | ArgsLoop.

(** The order in which each loop visits the entries of its map. *)
Definition range_order : Type := loop → ∀ V : Type, gmap Z V → list (Z * V).

Definition range_valid (ρ : range_order) : Prop :=
  ∀ site V (m : gmap Z V), ρ site V m ≡ₚ map_to_list m.

(** [for k, v := range m { body }] over the entries in visiting order;
    the body may panic. *)
Fixpoint for_range {V S : Type} (body : Z → V → S → option S)
    (entries : list (Z * V)) (s : S) : option S :=
  match entries with
  | [] => Some s
  | (k, v) :: rest => s' ← body k v s; for_range body rest s'
  end.

(** [for i, t := range a { body }] visits a slice by increasing index. *)
Definition enumerate {A} (a : list A) : list (Z * A) :=
  imap (λ i x, (Z.of_nat i, x)) a.

(** Two visiting orders used in examples: by ascending and by descending
    key. *)
Definition key_le {V} (x y : Z * V) : Prop := x.1 ≤ y.1.

#[global] Instance key_le_dec {V} : RelDecision (@key_le V).
Proof. intros x y. unfold key_le. apply _. Defined.

Definition ascending : range_order :=
  λ _ V m, merge_sort key_le (map_to_list m).
Definition descending : range_order :=
  λ _ V m, merge_sort (flip key_le) (map_to_list m).

(** ** The binder *)

(** The variables of [assembleArgsFromPathParams] and
    [assembleArgsFromQueryParams] that live across the iterations of the
    loop ([err] and [param] are declared once, before the loop), with the
    argument list they fill and the log. *)
Record locals : Type := Locals {
  args : list value;
  err : option error;
  param : value;
  logged : list entry
}.

Definition logf (lv : level) (msg : message) (s : locals) : locals :=
  Locals (args s) (err s) (param s) (logged s ++ [(lv, msg)]).

(** [if kind == reflect.Ptr { t = t.Elem() }] *)
Definition unwrap (kind : reflect.Kind) (t : reflect.Type_) : option reflect.Type_ :=
  if decide (kind = reflect.Ptr) then reflect.Type_Elem t else Some t.

Section server.

Variable ρ : range_order.

(** *** Generic convention: [getArgsInterfaceFromRequest] *)

Definition getArgsInterfaceFromRequest
    (req : RestServerRequest) (methodConfig : RestMethodConfig)
  : option (list value * list entry) :=
  let argsMap : gmap Z value := ∅ in
  let maxKey := 0 in
  '(argsMap, maxKey) ←
    for_range (λ k v '(argsMap, maxKey),
        let maxKey := if maxKey <? k then k else maxKey in
        Some (<[k := VString (PathParameter req v)]> argsMap, maxKey))
      (ρ PathLoop _ (PathParamsMap methodConfig)) (argsMap, maxKey);
  '(argsMap, maxKey) ←
    for_range (λ k v '(argsMap, maxKey),
        let maxKey := if maxKey <? k then k else maxKey in
        let params := QueryParameters req v in
        match params with
        | [p] => Some (<[k := VString p]> argsMap, maxKey)
        | _ => Some (<[k := VStrings params]> argsMap, maxKey)
        end)
      (ρ QueryLoop _ (QueryParamsMap methodConfig)) (argsMap, maxKey);
  '(argsMap, maxKey) ←
    for_range (λ k v '(argsMap, maxKey),
        let maxKey := if maxKey <? k then k else maxKey in
        Some (<[k := VString (HeaderParameter req v)]> argsMap, maxKey))
      (ρ HeaderLoop _ (HeadersMap methodConfig)) (argsMap, maxKey);
  let '(argsMap, maxKey, log) :=
    if 0 <=? Body methodConfig then
      let maxKey :=
        if maxKey <? Body methodConfig then Body methodConfig else maxKey in
      let m := VMap [] in
      match ReadEntity req m with
      | inl e => (argsMap, maxKey, [(WARN, BodyReadAsMap e)])
      | inr m => (<[Body methodConfig := m]> argsMap, maxKey, [])
      end
    else (argsMap, maxKey, []) in
  args ← make 0 (wrap IntSize (maxKey + 1));
  args ←
    for_range (λ k v args, if 0 <=? k then store args k v else Some args)
      (ρ ArgsLoop _ argsMap) args;
  Some (args, log).

(** *** Typed convention: the four passes *)

Definition assembleArgsFromHeaders (methodConfig : RestMethodConfig)
    (req : RestServerRequest) (argsLength : Z)
    (argsTypes : list reflect.Type_) (s : list value * list entry)
  : option (list value * list entry) :=
  for_range (λ k v '(args, log),
      let param := HeaderParameter req v in
      if (k <? 0) || (argsLength <=? k)
      then Some (args, log ++ [(ERROR, HeaderArgMissing k)])
      else
        t ← index argsTypes k;
        t ← unwrap (reflect.Type_Kind t) t;
        if decide (reflect.Type_Kind t = reflect.String)
        then args ← store args k (VString param); Some (args, log)
        else Some (args, log ++ [(ERROR, HeaderArgKind k)]))
    (ρ HeaderLoop _ (HeadersMap methodConfig)) s.

Definition assembleArgsFromBody (methodConfig : RestMethodConfig)
    (argsTypes : list reflect.Type_) (req : RestServerRequest)
    (s : list value * list entry)
  : option (list value * list entry) :=
  let '(args, log) := s in
  if (0 <=? Body methodConfig) && (Body methodConfig <? len argsTypes)
  then
    t ← index argsTypes (Body methodConfig);
    let kind := reflect.Type_Kind t in
    t ← unwrap kind t;
    let ni :=
      if decide (reflect.Type_String t = "[]interface {}") then VMaps []
      else if decide (reflect.Type_String t = "interface {}") then VMap []
      else New t in
    match ReadEntity req ni with
    | inl e => Some (args, log ++ [(ERROR, BodyRead e)])
    | inr ni => args ← store args (Body methodConfig) ni; Some (args, log)
    end
  else Some (args, log).

Definition assembleArgsFromQueryParams (methodConfig : RestMethodConfig)
    (argsLength : Z) (argsTypes : list reflect.Type_)
    (req : RestServerRequest) (s : list value * list entry)
  : option (list value * list entry) :=
  s ← for_range (λ k v s,
      if (k <? 0) || (argsLength <=? k)
      then Some (logf ERROR (QueryArgMissing k) s)
      else
        t ← index argsTypes k;
        let kind := reflect.Type_Kind t in
        _ ← unwrap kind t;
        (* [err] and [param] after the chain of tests on [kind];
           [None] for the last branch, which assigns neither *)
        let coerced : option (option error * value) :=
          if decide (kind = reflect.Slice)
          then Some (err s, VStrings (QueryParameters req v))
          else if decide (kind = reflect.String)
          then Some (err s, VString (QueryParameter req v))
          else if decide (kind = reflect.Int)
          then let '(n, e) := strconv.Atoi (QueryParameter req v) in
               Some (NumErr <$> e, VInt n)
          else if decide (kind = reflect.Int32)
          then let '(i64, e) := strconv.ParseInt (QueryParameter req v) 32 in
               Some (NumErr <$> e,
                     if e is None then VInt32 (wrap 32 i64) else param s)
          else if decide (kind = reflect.Int64)
          then let '(n, e) := strconv.ParseInt (QueryParameter req v) 64 in
               Some (NumErr <$> e, VInt64 n)
          else None in
        match coerced with
        | None => Some (logf ERROR (QueryArgKind k) s)
        | Some (Some e, p) =>
            Some (logf ERROR (QueryParse e) (Locals (args s) (Some e) p (logged s)))
        | Some (None, p) =>
            a ← store (args s) k p; Some (Locals a None p (logged s))
        end)
    (ρ QueryLoop _ (QueryParamsMap methodConfig))
    (Locals s.1 None VNil s.2);
  Some (args s, logged s).

Definition assembleArgsFromPathParams (methodConfig : RestMethodConfig)
    (argsLength : Z) (argsTypes : list reflect.Type_)
    (req : RestServerRequest) (s : list value * list entry)
  : option (list value * list entry) :=
  s ← for_range (λ k v s,
      if (k <? 0) || (argsLength <=? k)
      then Some (logf ERROR (PathArgMissing k) s)
      else
        t ← index argsTypes k;
        let kind := reflect.Type_Kind t in
        _ ← unwrap kind t;
        (* [err] and [param] after the chain of tests on [kind];
           [None] for the last branch, which assigns neither *)
        let coerced : option (option error * value) :=
          if decide (kind = reflect.Int)
          then let '(n, e) := strconv.Atoi (PathParameter req v) in
               Some (NumErr <$> e, VInt n)
          else if decide (kind = reflect.Int32)
          then let '(i64, e) := strconv.ParseInt (PathParameter req v) 32 in
               Some (NumErr <$> e,
                     if e is None then VInt32 (wrap 32 i64) else param s)
          else if decide (kind = reflect.Int64)
          then let '(n, e) := strconv.ParseInt (PathParameter req v) 64 in
               Some (NumErr <$> e, VInt64 n)
          else if decide (kind = reflect.String)
          then Some (err s, VString (PathParameter req v))
          else None in
        match coerced with
        | None => Some (logf WARN (PathArgKind k) s)
        | Some (Some e, p) =>
            Some (logf ERROR (PathParse e) (Locals (args s) (Some e) p (logged s)))
        | Some (None, p) =>
            a ← store (args s) k p; Some (Locals a None p (logged s))
        end)
    (ρ PathLoop _ (PathParamsMap methodConfig))
    (Locals s.1 None VNil s.2);
  Some (args s, logged s).

(** *** Typed convention: [getArgsFromRequest] *)

Definition getArgsFromRequest (req : RestServerRequest)
    (argsTypes : list reflect.Type_) (methodConfig : RestMethodConfig)
  : option (list value * list entry) :=
  let argsLength := len argsTypes in
  (* [argsTypes] is a [[]reflect.Type] of this length, and a
     [reflect.Type] is an interface value *)
  args ← make (len argsTypes) argsLength;
  args ← for_range (λ i t args, store args i (Zero t)) (enumerate argsTypes) args;
  s ← assembleArgsFromPathParams methodConfig argsLength argsTypes req (args, []);
  s ← assembleArgsFromQueryParams methodConfig argsLength argsTypes req s;
  s ← assembleArgsFromBody methodConfig argsTypes req s;
  s ← assembleArgsFromHeaders methodConfig req argsLength argsTypes s;
  Some s.

(** *** The route function *)

Inductive convention : Set := Generic | Typed.

(** The test of [GetRouteFunc] that chooses between the two binders;
    [&&] and [||] evaluate their right operand only when needed, so
    [argsTypes[0]] is read only for one or two arguments. *)
Definition chosen (argsTypes : list reflect.Type_)
    (replyType : option reflect.Type_) : option convention :=
  if (len argsTypes =? 1)
     || ((len argsTypes =? 2) && bool_decide (replyType = None))
  then
    t ← index argsTypes 0;
    if decide (reflect.Type_String t = "[]interface {}")
    then Some Generic else Some Typed
  else Some Typed.

(** [GetRouteFunc(invoker, methodConfig)(req, resp)], given the methods
    of the service the registry finds for the invoker: the arguments
    handed to the invoker, the response written and the log. *)
Definition GetRouteFunc (svc : gmap string MethodType) (invoker : Invoker)
    (methodConfig : RestMethodConfig)
    (req : RestServerRequest) (resp : RestServerResponse)
  : option (list value * written * list entry) :=
  method ← svc !! MethodName methodConfig;
  let argsTypes := ArgsType method in
  let replyType := ReplyType method in
  c ← chosen argsTypes replyType;
  '(args, log) ←
    match c with
    | Generic => getArgsInterfaceFromRequest req methodConfig
    | Typed => getArgsFromRequest req argsTypes methodConfig
    end;
  let result := invoker (MethodName methodConfig) args in
  match Error result with
  | Some e =>
      match WriteError resp StatusInternalServerError e with
      | Some e' =>
          Some (args, WroteError StatusInternalServerError e,
                log ++ [(ERROR, WriteErrorFailed e')])
      | None => Some (args, WroteError StatusInternalServerError e, log)
      end
  | None =>
      match WriteEntity resp (Result_ result) with
      | Some e' =>
          Some (args, WroteEntity (Result_ result),
                log ++ [(ERROR, WriteEntityFailed e')])
      | None => Some (args, WroteEntity (Result_ result), log)
      end
  end.

End server.

(** ** What a pass does, as a list of events

    Which slot an iteration of a pass writes and what it logs does not
    depend on the content of the argument list, only on the request, the
    signature, the mapping and, for the path and query passes, on [err]
    and [param] as the earlier iterations left them.  The effect of a pass
    is therefore a list of events that can be replayed on any list. *)

Inductive event : Type :=
| Log (e : entry)
| Store (k : Z) (x : value).

Definition run_event (ev : event) (s : list value * list entry)
  : list value * list entry :=
  match ev with
  | Log e => (s.1, s.2 ++ [e])
  | Store k x => (<[Z.to_nat k := x]> s.1, s.2)
  end.

Definition replay (evs : list event) (s : list value * list entry)
  : list value * list entry :=
  foldl (λ s ev, run_event ev s) s evs.

Definition logs (evs : list event) : list entry :=
  omap (λ ev, if ev is Log e then Some e else None) evs.

Definition stores (evs : list event) : list (Z * value) :=
  omap (λ ev, if ev is Store k x then Some (k, x) else None) evs.

(** The value the events leave in slot [i], if they write it: the one
    of the last [Store] at [i]. *)
Fixpoint last_store (evs : list event) (i : nat) : option value :=
  match evs with
  | [] => None
  | Log _ :: evs => last_store evs i
  | Store k x :: evs =>
      match last_store evs i with
      | Some y => Some y
      | None => if decide (Z.to_nat k = i) then Some x else None
      end
  end.

(** A list with the slots that [w] writes replaced. *)
Definition overlay (w : nat → option value) (a : list value) : list value :=
  imap (λ i x, default x (w i)) a.

Definition unwrapped (t : reflect.Type_) : reflect.Type_ :=
  match t with reflect.TPtr e => e | _ => t end.

Definition out_of_range (n k : Z) : bool := (k <? 0) || (n <=? k).

Section events.

Variable req : RestServerRequest.
Variable argsTypes : list reflect.Type_.

(** Header pass: one event per entry. *)
Definition header_event (kv : Z * string) : event :=
  let '(k, v) := kv in
  if out_of_range (len argsTypes) k then Log (ERROR, HeaderArgMissing k)
  else
    match index argsTypes k with
    | Some t =>
        if decide (reflect.Type_Kind (unwrapped t) = reflect.String)
        then Store k (VString (HeaderParameter req v))
        else Log (ERROR, HeaderArgKind k)
    | None => Log (ERROR, HeaderArgMissing k)
    end.

(** Body pass: at most one event. *)
Definition body_events (body : Z) : list event :=
  if (0 <=? body) && (body <? len argsTypes) then
    match index argsTypes body with
    | Some t =>
        let t := unwrapped t in
        let ni :=
          if decide (reflect.Type_String t = "[]interface {}") then VMaps []
          else if decide (reflect.Type_String t = "interface {}") then VMap []
          else New t in
        match ReadEntity req ni with
        | inl e => [Log (ERROR, BodyRead e)]
        | inr ni => [Store body ni]
        end
    | None => []
    end
  else [].

(** Path and query passes: the chain of tests on the kind. *)
Definition path_coerce (kind : reflect.Kind) (v : string)
    (e : option error) (p : value) : option (option error * value) :=
  match kind with
  | reflect.Int =>
      let '(n, e) := strconv.Atoi (PathParameter req v) in
      Some (NumErr <$> e, VInt n)
  | reflect.Int32 =>
      let '(i64, e) := strconv.ParseInt (PathParameter req v) 32 in
      Some (NumErr <$> e, if e is None then VInt32 (wrap 32 i64) else p)
  | reflect.Int64 =>
      let '(n, e) := strconv.ParseInt (PathParameter req v) 64 in
      Some (NumErr <$> e, VInt64 n)
  | reflect.String => Some (e, VString (PathParameter req v))
  | _ => None
  end.

Definition query_coerce (kind : reflect.Kind) (v : string)
    (e : option error) (p : value) : option (option error * value) :=
  match kind with
  | reflect.Slice => Some (e, VStrings (QueryParameters req v))
  | reflect.String => Some (e, VString (QueryParameter req v))
  | reflect.Int =>
      let '(n, e) := strconv.Atoi (QueryParameter req v) in
      Some (NumErr <$> e, VInt n)
  | reflect.Int32 =>
      let '(i64, e) := strconv.ParseInt (QueryParameter req v) 32 in
      Some (NumErr <$> e, if e is None then VInt32 (wrap 32 i64) else p)
  | reflect.Int64 =>
      let '(n, e) := strconv.ParseInt (QueryParameter req v) 64 in
      Some (NumErr <$> e, VInt64 n)
  | _ => None
  end.

Section verdicts.

Variable coerce :
  reflect.Kind → string → option error → value → option (option error * value).
Variables (missing kindmsg : Z → entry) (parsemsg : error → entry).

(** One iteration: its event, and [err] and [param] after it. *)
Definition verdict (kv : Z * string) (ep : option error * value)
  : event * (option error * value) :=
  let '(k, v) := kv in
  if out_of_range (len argsTypes) k then (Log (missing k), ep)
  else
    match index argsTypes k with
    | Some t =>
        match coerce (reflect.Type_Kind t) v ep.1 ep.2 with
        | None => (Log (kindmsg k), ep)
        | Some (Some e, p) => (Log (parsemsg e), (Some e, p))
        | Some (None, p) => (Store k p, (None, p))
        end
    | None => (Log (missing k), ep)
    end.

Fixpoint verdicts (l : list (Z * string)) (ep : option error * value)
  : list event * (option error * value) :=
  match l with
  | [] => ([], ep)
  | kv :: l =>
      let '(ev, ep) := verdict kv ep in
      let '(evs, ep) := verdicts l ep in
      (ev :: evs, ep)
  end.

End verdicts.

Definition path_events (l : list (Z * string)) : list event :=
  (verdicts path_coerce (λ k, (ERROR, PathArgMissing k))
     (λ k, (WARN, PathArgKind k)) (λ e, (ERROR, PathParse e)) l (None, VNil)).1.

Definition query_events (l : list (Z * string)) : list event :=
  (verdicts query_coerce (λ k, (ERROR, QueryArgMissing k))
     (λ k, (ERROR, QueryArgKind k)) (λ e, (ERROR, QueryParse e)) l (None, VNil)).1.

Definition header_events (l : list (Z * string)) : list event :=
  header_event <$> l.

End events.

(** The events of a run of the typed binder. *)
Definition typed_events (ρ : range_order) (req : RestServerRequest)
    (argsTypes : list reflect.Type_) (methodConfig : RestMethodConfig)
  : list event :=
  path_events req argsTypes (ρ PathLoop _ (PathParamsMap methodConfig))
  ++ query_events req argsTypes (ρ QueryLoop _ (QueryParamsMap methodConfig))
  ++ body_events req argsTypes (Body methodConfig)
  ++ header_events req argsTypes (ρ HeaderLoop _ (HeadersMap methodConfig)).

(** ** Proof-side views of the binder *)

(** The value the stores [ws] leave in slot [i], if they write it. *)
Fixpoint last_write (ws : list (Z * value)) (i : nat) : option value :=
  match ws with
  | [] => None
  | (k, x) :: ws =>
      match last_write ws i with
      | Some y => Some y
      | None => if decide (Z.to_nat k = i) then Some x else None
      end
  end.

(** The kinds the path and the query pass coerce to. *)
Definition path_accepts (kind : reflect.Kind) : bool :=
  match kind with
  | reflect.Int | reflect.Int32 | reflect.Int64 | reflect.String => true
  | _ => false
  end.

Definition query_accepts (kind : reflect.Kind) : bool :=
  match kind with
  | reflect.Slice | reflect.String
  | reflect.Int | reflect.Int32 | reflect.Int64 => true
  | _ => false
  end.

(** An entry that, met with [err] nil, leaves it nil and whose event
    does not depend on [param]. *)
Definition clean (argsTypes : list reflect.Type_)
    (coerce : reflect.Kind → string → option error → value
              → option (option error * value))
    (missing kindmsg : Z → entry) (parsemsg : error → entry)
    (kv : Z * string) : Prop :=
  ∀ p,
    (verdict argsTypes coerce missing kindmsg parsemsg kv (None, p)).2.1 = None
    ∧ (verdict argsTypes coerce missing kindmsg parsemsg kv (None, p)).1
      = (verdict argsTypes coerce missing kindmsg parsemsg kv (None, VNil)).1.

(** The raw value of an integer slot is a number of its width. *)
Definition parses (kind : reflect.Kind) (raw : string) : Prop :=
  match kind with
  | reflect.Int => (strconv.Atoi raw).2 = None
  | reflect.Int32 => (strconv.ParseInt raw 32).2 = None
  | reflect.Int64 => (strconv.ParseInt raw 64).2 = None
  | _ => True
  end.

(** The visiting order that skips the entries whose key is no index of
    a list of length [n]. *)
Definition in_range_only (n : Z) (ρ : range_order) : range_order :=
  λ site V m, filter (λ kv, 0 ≤ kv.1 < n) (ρ site V m).

Definition without_body (methodConfig : RestMethodConfig) : RestMethodConfig :=
  {| MethodName := MethodName methodConfig;
     PathParamsMap := PathParamsMap methodConfig;
     QueryParamsMap := QueryParamsMap methodConfig;
     HeadersMap := HeadersMap methodConfig;
     Body := -1 |}.

(** ** The generic convention in closed form *)

(** What the query loop of the generic binder puts into the map. *)
Definition query_value (req : RestServerRequest) (v : string) : value :=
  match QueryParameters req v with
  | [p] => VString p
  | params => VStrings params
  end.

(** The greatest of [M] and the keys [ks]. *)
Definition upper (M : Z) (ks : list Z) : Z := foldr Z.max M ks.

Definition keys {V} (m : gmap Z V) : list Z := (map_to_list m).*1.

Definition generic_maxKey (methodConfig : RestMethodConfig) : Z :=
  let M := upper (upper (upper 0 (keys (PathParamsMap methodConfig)))
                    (keys (QueryParamsMap methodConfig)))
             (keys (HeadersMap methodConfig)) in
  if 0 <=? Body methodConfig then Z.max M (Body methodConfig) else M.

(** Later sources replace earlier ones: body over header over query
    over path ([∪] prefers its left operand). *)
Definition generic_argsMap (req : RestServerRequest)
    (methodConfig : RestMethodConfig) : gmap Z value :=
  let am : gmap Z value :=
    ((λ v, VString (HeaderParameter req v)) <$> HeadersMap methodConfig)
    ∪ ((query_value req <$> QueryParamsMap methodConfig)
       ∪ ((λ v, VString (PathParameter req v)) <$> PathParamsMap methodConfig)) in
  if 0 <=? Body methodConfig then
    match ReadEntity req (VMap []) with
    | inl _ => am
    | inr m => <[Body methodConfig := m]> am
    end
  else am.

Definition generic_log (req : RestServerRequest)
    (methodConfig : RestMethodConfig) : list entry :=
  if 0 <=? Body methodConfig then
    match ReadEntity req (VMap []) with
    | inl e => [(WARN, BodyReadAsMap e)]
    | inr _ => []
    end
  else [].

(** The list of length [n] holding the entries of [am] at their keys
    and the nil interface elsewhere; a length that [make] refuses and a
    key at or beyond [n] panic. *)
Definition fill (n : Z) (am : gmap Z value) : option (list value) :=
  if decide ((0 ≤ n ∧ n * interfaceSize ≤ maxAlloc)
             ∧ map_Forall (λ k _, 0 ≤ k → k < n) am)
  then Some (imap (λ i x, default x (am !! Z.of_nat i))
               (replicate (Z.to_nat n) VNil))
  else None.

Definition generic_result (req : RestServerRequest)
    (methodConfig : RestMethodConfig) : option (list value * list entry) :=
  args ← fill (wrap IntSize (generic_maxKey methodConfig + 1))
            (generic_argsMap req methodConfig);
  Some (args, generic_log req methodConfig).

Definition nonneg {V} (kv : Z * V) : Prop := 0 ≤ kv.1.

#[global] Instance nonneg_dec {V} (kv : Z * V) : Decision (nonneg kv).
Proof. unfold nonneg. apply _. Defined.

(** The configuration with every negative index removed. *)
Definition nonneg_part (methodConfig : RestMethodConfig) : RestMethodConfig :=
  {| MethodName := MethodName methodConfig;
     PathParamsMap := filter nonneg (PathParamsMap methodConfig);
     QueryParamsMap := filter nonneg (QueryParamsMap methodConfig);
     HeadersMap := filter nonneg (HeadersMap methodConfig);
     Body := if 0 <=? Body methodConfig then Body methodConfig else -1 |}.

(** The largest value of Go's [int]. *)
Definition MaxInt : Z := 2 ^ (IntSize - 1) - 1.

(** The largest length [make] allocates for a slice of interface
    values. *)
Definition MaxLen : Z := maxAlloc / interfaceSize.

Definition referenced (methodConfig : RestMethodConfig) (k : Z) : Prop :=
  k ∈ keys (PathParamsMap methodConfig)
  ∨ k ∈ keys (QueryParamsMap methodConfig)
  ∨ k ∈ keys (HeadersMap methodConfig)
  ∨ (k = Body methodConfig ∧ 0 ≤ k).

(** ** Signatures *)

Fixpoint has_dot (s : string) : bool :=
  match s with
  | EmptyString => false
  | String.String c s => bool_decide (c = "."%char) || has_dot s
  end.

(** The signatures served by the generic convention: the first
    argument is a [[]interface{}] and it is either the only argument or
    followed by a single reply-only slot (no reply type is recorded). *)
Definition generic_signature (argsTypes : list reflect.Type_)
    (replyType : option reflect.Type_) : Prop :=
  head argsTypes = Some (reflect.TSlice reflect.TInterface)
  ∧ (length argsTypes = 1%nat ∨ (length argsTypes = 2%nat ∧ replyType = None)).

#[global] Instance generic_signature_dec argsTypes replyType :
  Decision (generic_signature argsTypes replyType).
Proof. unfold generic_signature. apply _. Defined.

(** ** Requests and configurations of the examples *)

Definition request (path query : gmap string (list string))
    (header : gmap string string) (entity : value → error + value)
  : RestServerRequest :=
  {| PathParameter name := default EmptyString (path !! name ≫= head);
     QueryParameter name := default EmptyString (query !! name ≫= head);
     QueryParameters name := default [] (query !! name);
     HeaderParameter name := default EmptyString (header !! name);
     ReadEntity := entity |}.

Definition no_entity : value → error + value := λ _, inl (EntityErr "EOF").

Definition config (path query header : gmap Z string) (body : Z)
  : RestMethodConfig :=
  {| MethodName := "GetUser"; PathParamsMap := path; QueryParamsMap := query;
     HeadersMap := header; Body := body |}.

Definition user : reflect.Type_ := reflect.TStruct "main" "User".

(** A request whose body cannot be decoded. *)
Definition malformed : RestServerRequest :=
  request ∅ ∅ {["X-Token" := "tok"]} no_entity.

Definition two_query_slots : RestMethodConfig :=
  config ∅ (list_to_map [(0, "n"); (1, "s")]) ∅ (-1).

Definition bad_number : RestServerRequest :=
  request ∅ (list_to_map [("n", ["abc"]); ("s", ["hello"])]) ∅ no_entity.

Definition abc_error : entry :=
  (ERROR, QueryParse (NumErr (strconv.syntaxError "ParseInt" "abc"))).

(** ** What the binders compute, slot by slot *)

(** The variable the body pass hands to [ReadEntity], by the type of
    the slot with one pointer removed. *)
Definition decode_target (t : reflect.Type_) : value :=
  if decide (reflect.Type_String t = "[]interface {}") then VMaps []
  else if decide (reflect.Type_String t = "interface {}") then VMap []
  else New t.

(** The body of the request decoded as a generic map, when the
    configuration takes argument [k] from the body. *)
Definition generic_body (req : RestServerRequest)
    (methodConfig : RestMethodConfig) (k : Z) : option value :=
  if (0 <=? Body methodConfig) && bool_decide (Body methodConfig = k) then
    match ReadEntity req (VMap []) with
    | inl _ => None
    | inr m => Some m
    end
  else None.

(** Slot [k] of the generic binder: the body, else the header, else the
    query value (a string for exactly one value, the list of values
    otherwise), else the path value, else the nil interface. *)
Definition generic_slot (req : RestServerRequest)
    (methodConfig : RestMethodConfig) (k : Z) : value :=
  match generic_body req methodConfig k with
  | Some m => m
  | None =>
      match HeadersMap methodConfig !! k with
      | Some v => VString (HeaderParameter req v)
      | None =>
          match QueryParamsMap methodConfig !! k with
          | Some v =>
              match QueryParameters req v with
              | [p] => VString p
              | params => VStrings params
              end
          | None =>
              match PathParamsMap methodConfig !! k with
              | Some v => VString (PathParameter req v)
              | None => VNil
              end
          end
      end
  end.

(** The value a successful coercion assigns to the slot. *)
Definition coerced (c : option (option error * value)) : option value :=
  match c with
  | Some (None, x) => Some x
  | _ => None
  end.

(** Slot [k], of declared type [t], of the typed binder when no path or
    query value fails to parse: the header value for a String slot, else
    the decoded body, else the coerced query value, else the coerced path
    value, else the zero value. *)
Definition typed_slot (req : RestServerRequest)
    (methodConfig : RestMethodConfig) (k : Z) (t : reflect.Type_) : value :=
  let header :=
    v ← HeadersMap methodConfig !! k;
    if decide (reflect.Type_Kind (unwrapped t) = reflect.String)
    then Some (VString (HeaderParameter req v)) else None in
  let body :=
    if decide (Body methodConfig = k) then
      match ReadEntity req (decode_target (unwrapped t)) with
      | inl _ => None
      | inr ni => Some ni
      end
    else None in
  let query :=
    v ← QueryParamsMap methodConfig !! k;
    coerced (query_coerce req (reflect.Type_Kind t) v None VNil) in
  let path :=
    v ← PathParamsMap methodConfig !! k;
    coerced (path_coerce req (reflect.Type_Kind t) v None VNil) in
  default (default (default (default (Zero t) path) query) body) header.

(** What the path and the query pass make of the raw value of a slot
    of an integer kind: the value to store, or the parse error. *)
Definition integer_value (kind : reflect.Kind) (raw : string)
  : option (value + error) :=
  match kind with
  | reflect.Int =>
      let '(n, e) := strconv.Atoi raw in
      Some (match e with None => inl (VInt n) | Some e => inr (NumErr e) end)
  | reflect.Int32 =>
      let '(i64, e) := strconv.ParseInt raw 32 in
      Some (match e with
            | None => inl (VInt32 (wrap 32 i64))
            | Some e => inr (NumErr e)
            end)
  | reflect.Int64 =>
      let '(n, e) := strconv.ParseInt raw 64 in
      Some (match e with None => inl (VInt64 n) | Some e => inr (NumErr e) end)
  | _ => None
  end.

(** The numbers an integer value of the binder can hold. *)
Definition in_width (x : value) : Prop :=
  match x with
  | VInt n | VInt64 n => - 2 ^ 63 ≤ n < 2 ^ 63
  | VInt32 n => - 2 ^ 31 ≤ n < 2 ^ 31
  | _ => True
  end.

(** What the route function writes for the result of the invocation,
    and what it logs when the write fails. *)
Definition response_of (resp : RestServerResponse) (result : Result)
  : written * list entry :=
  match Error result with
  | Some e =>
      (WroteError StatusInternalServerError e,
       match WriteError resp StatusInternalServerError e with
       | Some e' => [(ERROR, WriteErrorFailed e')]
       | None => []
       end)
  | None =>
      (WroteEntity (Result_ result),
       match WriteEntity resp (Result_ result) with
       | Some e' => [(ERROR, WriteEntityFailed e')]
       | None => []
       end)
  end.

(** ** When the configuration fits the signature and the request

    An entry of the path mapping fits when its index is one of the list,
    the kind of the slot is one the path pass coerces to, and the value of
    an integer slot is a number of its width; likewise for the query
    mapping.  An entry of the header mapping fits when its index is one of
    the list and the slot, with one pointer removed, is of kind String.
    The body index fits when it is no index of the list or the body
    decodes into the variable of the slot. *)
Definition path_fits (req : RestServerRequest)
    (argsTypes : list reflect.Type_) (kv : Z * string) : Prop :=
  0 ≤ kv.1
  ∧ ∃ t, argsTypes !! Z.to_nat kv.1 = Some t
         ∧ path_accepts (reflect.Type_Kind t) = true
         ∧ parses (reflect.Type_Kind t) (PathParameter req kv.2).

Definition query_fits (req : RestServerRequest)
    (argsTypes : list reflect.Type_) (kv : Z * string) : Prop :=
  0 ≤ kv.1
  ∧ ∃ t, argsTypes !! Z.to_nat kv.1 = Some t
         ∧ query_accepts (reflect.Type_Kind t) = true
         ∧ parses (reflect.Type_Kind t) (QueryParameter req kv.2).

Definition header_fits (argsTypes : list reflect.Type_) (kv : Z * string)
  : Prop :=
  0 ≤ kv.1
  ∧ ∃ t, argsTypes !! Z.to_nat kv.1 = Some t
         ∧ reflect.Type_Kind (unwrapped t) = reflect.String.

Definition body_fits (req : RestServerRequest)
    (argsTypes : list reflect.Type_) (body : Z) : Prop :=
  ∀ t, 0 ≤ body → argsTypes !! Z.to_nat body = Some t →
       ∃ ni, ReadEntity req (decode_target (unwrapped t)) = inr ni.

Definition fits (req : RestServerRequest) (argsTypes : list reflect.Type_)
    (methodConfig : RestMethodConfig) : Prop :=
  (∀ k v, PathParamsMap methodConfig !! k = Some v →
          path_fits req argsTypes (k, v))
  ∧ (∀ k v, QueryParamsMap methodConfig !! k = Some v →
            query_fits req argsTypes (k, v))
  ∧ (∀ k v, HeadersMap methodConfig !! k = Some v →
            header_fits argsTypes (k, v))
  ∧ body_fits req argsTypes (Body methodConfig).

(** ** What a pass leaves alone

    The outcome [r] of a pass run on the list and log [s]: the pass
    returns, the list keeps its length, the log is extended at its end, and
    the slots whose index the pass does not map keep their values. *)
Definition frame (mapped : Z → Prop) (s : list value * list entry)
    (r : option (list value * list entry)) : Prop :=
  ∃ args' log',
    r = Some (args', log')
    ∧ length args' = length s.1
    ∧ s.2 `prefix_of` log'
    ∧ ∀ i : nat, ¬ mapped (Z.of_nat i) → args' !! i = s.1 !! i.

(** ** Examples *)

Example ParseInt_max32 : strconv.ParseInt "2147483647" 32 = (2147483647, None).
Proof. reflexivity. Qed.
Example ParseInt_over32 :
  strconv.ParseInt "2147483648" 32
  = (2147483647, Some (strconv.rangeError "ParseInt" "2147483648")).
Proof. reflexivity. Qed.
Example ParseInt_min32 : strconv.ParseInt "-2147483648" 32 = (-2147483648, None).
Proof. reflexivity. Qed.
Example ParseInt_abc :
  strconv.ParseInt "abc" 32 = (0, Some (strconv.syntaxError "ParseInt" "abc")).
Proof. reflexivity. Qed.
Example Atoi_42 : strconv.Atoi "-42" = (-42, None).
Proof. reflexivity. Qed.

Lemma ascending_valid : range_valid ascending.
Proof. intros site V m. apply merge_sort_Permutation. Qed.

Lemma descending_valid : range_valid descending.
Proof. intros site V m. apply merge_sort_Permutation. Qed.

Example path_string_slot :
  getArgsFromRequest ascending
    (request {["id" := ["42"]]} ∅ ∅ no_entity) [reflect.TString]
    (config {[0 := "id"]} ∅ ∅ (-1))
  = Some ([VString "42"], []).
Proof. vm_compute. reflexivity. Qed.

Example generic_sequence :
  getArgsInterfaceFromRequest descending
    (request {["id" := ["7"]]} {["tag" := ["x"]]} ∅ no_entity)
    (config {[0 := "id"]} {[2 := "tag"]} ∅ (-1))
  = Some ([VString "7"; VNil; VString "x"], []).
Proof. vm_compute. reflexivity. Qed.

(** ** Basic facts *)

Lemma len_nonneg {A} (a : list A) : 0 ≤ len a.
Proof. unfold len. lia. Qed.

Lemma index_Some {A} (a : list A) (k : Z) :
  0 ≤ k < len a → ∃ x, index a k = Some x ∧ a !! Z.to_nat k = Some x.
Proof.
  intros Hk. unfold index, len in *. rewrite decide_True by lia.
  destruct (lookup_lt_is_Some_2 a (Z.to_nat k)) as [x Hx]; [lia|]. eauto.
Qed.

Lemma index_lookup {A} (a : list A) (k : Z) (x : A) :
  index a k = Some x → a !! Z.to_nat k = Some x ∧ 0 ≤ k < len a.
Proof.
  unfold index, len. case_decide; [|done]. intros Hx. split; [done|].
  apply lookup_lt_Some in Hx. lia.
Qed.

Lemma store_Some {A} (a : list A) (k : Z) (x : A) :
  0 ≤ k < len a → store a k x = Some (<[Z.to_nat k := x]> a).
Proof. intros Hk. unfold store. by rewrite decide_True. Qed.

Lemma out_of_range_false (n k : Z) : out_of_range n k = false ↔ 0 ≤ k < n.
Proof. unfold out_of_range. lia. Qed.

Lemma out_of_range_true (n k : Z) : out_of_range n k = true ↔ ¬ 0 ≤ k < n.
Proof. unfold out_of_range. lia. Qed.

Lemma unwrap_unwrapped (t : reflect.Type_) :
  unwrap (reflect.Type_Kind t) t = Some (unwrapped t).
Proof. by destruct t. Qed.

Lemma for_range_ext {V S} (f g : Z → V → S → option S) (l : list (Z * V)) (s : S) :
  (∀ k v s, f k v s = g k v s) → for_range f l s = for_range g l s.
Proof.
  intros Hfg. revert s. induction l as [|[k v] l IH]; intros s; [done|].
  simpl. rewrite Hfg. destruct (g k v s); simpl; auto.
Qed.

(** *** Replaying events *)

Lemma replay_app (evs1 evs2 : list event) s :
  replay (evs1 ++ evs2) s = replay evs2 (replay evs1 s).
Proof. apply foldl_app. Qed.

Lemma replay_length (evs : list event) s :
  length (replay evs s).1 = length s.1.
Proof.
  revert s. induction evs as [|ev evs IH]; intros s; [done|].
  simpl. rewrite IH. destruct ev; simpl; [done|]. apply length_insert.
Qed.

Lemma replay_logs (evs : list event) s : (replay evs s).2 = s.2 ++ logs evs.
Proof.
  revert s. induction evs as [|ev evs IH]; intros s; simpl.
  - by rewrite app_nil_r.
  - rewrite IH. destruct ev; simpl; [|done]. by rewrite <- app_assoc.
Qed.

Lemma replay_lookup (evs : list event) s (i : nat) :
  (replay evs s).1 !! i
  = match last_store evs i with
    | Some y => if decide (i < length s.1)%nat then Some y else None
    | None => s.1 !! i
    end.
Proof.
  revert s. induction evs as [|ev evs IH]; intros s; [done|].
  simpl. rewrite IH. destruct ev as [e|k x]; simpl; [done|].
  rewrite length_insert. destruct (last_store evs i); [done|].
  case_decide as Hk.
  - subst i. case_decide.
    + by apply list_lookup_insert_eq.
    + apply lookup_ge_None. rewrite length_insert. lia.
  - by apply list_lookup_insert_ne.
Qed.

Lemma replay_overlay (evs : list event) s :
  (replay evs s).1 = overlay (last_store evs) s.1.
Proof.
  apply list_eq. intros i. rewrite replay_lookup. unfold overlay.
  rewrite list_lookup_imap. destruct (last_store evs i) as [y|].
  - case_decide as Hi.
    + destruct (lookup_lt_is_Some_2 _ _ Hi) as [x ->]. done.
    + rewrite lookup_ge_None_2; [done|lia].
  - by destruct (s.1 !! i).
Qed.

Lemma last_store_Some (evs : list event) (i : nat) (y : value) :
  last_store evs i = Some y → ∃ k, Store k y ∈ evs ∧ Z.to_nat k = i.
Proof.
  induction evs as [|[e|k x] evs IH]; simpl; [done| |].
  - intros [k' [? ?]]%IH. exists k'. split; [by right|done].
  - destruct (last_store evs i) as [y'|] eqn:E.
    + intros [= ->]. destruct IH as [k' [? ?]]; [done|].
      exists k'. split; [by right|done].
    + case_decide; [|done]. intros [= ->]. exists k. split; [by left|done].
Qed.

Lemma last_store_None (evs : list event) (i : nat) :
  (∀ k x, Store k x ∈ evs → Z.to_nat k ≠ i) → last_store evs i = None.
Proof.
  intros H. destruct (last_store evs i) as [y|] eqn:E; [|done].
  apply last_store_Some in E as [k [Hin Hk]]. by apply H in Hin.
Qed.

Lemma last_store_app (evs1 evs2 : list event) (i : nat) :
  last_store (evs1 ++ evs2) i
  = match last_store evs2 i with
    | Some y => Some y
    | None => last_store evs1 i
    end.
Proof.
  induction evs1 as [|[e|k x] evs1 IH]; simpl.
  - by destruct (last_store evs2 i).
  - done.
  - rewrite IH. by destruct (last_store evs2 i).
Qed.

Lemma logs_app (evs1 evs2 : list event) :
  logs (evs1 ++ evs2) = logs evs1 ++ logs evs2.
Proof. apply omap_app. Qed.

Lemma elem_of_logs (evs : list event) (e : entry) : e ∈ logs evs ↔ Log e ∈ evs.
Proof.
  unfold logs. rewrite list_elem_of_omap. split.
  - intros [[e'|k x] [Hin Heq]]; simplify_eq. done.
  - intros Hin. exists (Log e). done.
Qed.

(** *** Every pass replays its events *)

Section passes.

Variable ρ : range_order.
Variable req : RestServerRequest.
Variable argsTypes : list reflect.Type_.
Variable methodConfig : RestMethodConfig.

Lemma header_loop_replay (l : list (Z * string)) (s : list value * list entry) :
  length s.1 = length argsTypes →
  for_range (λ k v '(args, log),
      let param := HeaderParameter req v in
      if (k <? 0) || (len argsTypes <=? k)
      then Some (args, log ++ [(ERROR, HeaderArgMissing k)])
      else
        t ← index argsTypes k;
        t ← unwrap (reflect.Type_Kind t) t;
        if decide (reflect.Type_Kind t = reflect.String)
        then args ← store args k (VString param); Some (args, log)
        else Some (args, log ++ [(ERROR, HeaderArgKind k)])) l s
  = Some (replay (header_events req argsTypes l) s).
Proof.
  revert s. induction l as [|[k v] l IH]; intros [a lg] Hlen; [done|].
  cbn [for_range header_events fmap list_fmap replay foldl].
  unfold header_event at 1. fold (out_of_range (len argsTypes) k).
  destruct (out_of_range (len argsTypes) k) eqn:Hr.
  - cbn. apply IH. done.
  - apply out_of_range_false in Hr.
    destruct (index_Some argsTypes k Hr) as [t [Ht _]].
    rewrite Ht. cbn [mbind option_bind]. rewrite unwrap_unwrapped.
    cbn [mbind option_bind]. case_decide.
    + rewrite store_Some by (cbn in Hlen; unfold len in *; lia).
      cbn. apply IH. cbn. by rewrite length_insert.
    + cbn. apply IH. done.
Qed.

Lemma header_pass_replay (s : list value * list entry) :
  length s.1 = length argsTypes →
  assembleArgsFromHeaders ρ methodConfig req (len argsTypes) argsTypes s
  = Some (replay (header_events req argsTypes
                    (ρ HeaderLoop _ (HeadersMap methodConfig))) s).
Proof. apply header_loop_replay. Qed.

Lemma body_pass_replay (s : list value * list entry) :
  length s.1 = length argsTypes →
  assembleArgsFromBody methodConfig argsTypes req s
  = Some (replay (body_events req argsTypes (Body methodConfig)) s).
Proof.
  destruct s as [a lg]. intros Hlen. unfold assembleArgsFromBody, body_events.
  destruct ((0 <=? Body methodConfig) && (Body methodConfig <? len argsTypes))
    eqn:Hr; [|done].
  assert (0 ≤ Body methodConfig < len argsTypes) as Hb by lia.
  destruct (index_Some argsTypes _ Hb) as [t [Ht _]].
  rewrite Ht. cbn [mbind option_bind]. rewrite unwrap_unwrapped.
  cbn [mbind option_bind].
  destruct (ReadEntity req _) as [e|ni]; [done|].
  rewrite store_Some by (cbn in Hlen; unfold len in *; lia). done.
Qed.

Section coercion.

Variable coerce :
  reflect.Kind → string → option error → value → option (option error * value).
Variables (missing kindmsg : Z → entry) (parsemsg : error → entry).
Variable body : Z → string → locals → option locals.

Hypothesis body_verdict : ∀ k v a e p lg,
  length a = length argsTypes →
  body k v (Locals a e p lg)
  = let '(ev, (e', p')) :=
      verdict argsTypes coerce missing kindmsg parsemsg (k, v) (e, p) in
    let '(a', lg') := run_event ev (a, lg) in
    Some (Locals a' e' p' lg').

Lemma coercion_loop_replay (l : list (Z * string)) a e p lg :
  length a = length argsTypes →
  for_range body l (Locals a e p lg)
  = let '(evs, (e', p')) :=
      verdicts argsTypes coerce missing kindmsg parsemsg l (e, p) in
    let '(a', lg') := replay evs (a, lg) in
    Some (Locals a' e' p' lg').
Proof.
  revert a e p lg. induction l as [|kv l IH]; intros a e p lg Hlen; [done|].
  destruct kv as [k v]. cbn [for_range verdicts].
  rewrite body_verdict by done.
  destruct (verdict _ _ _ _ _ _ _) as [ev [e1 p1]].
  destruct (run_event ev (a, lg)) as [a1 lg1] eqn:Hev.
  cbn [mbind option_bind]. rewrite IH.
  - destruct (verdicts _ _ _ _ _ _ _) as [evs [e2 p2]].
    cbn [replay foldl]. by rewrite Hev.
  - change a1 with (a1, lg1).1. rewrite <- Hev.
    destruct ev; cbn; [done|]. by rewrite length_insert.
Qed.

End coercion.

End passes.

Section typed_passes.

Variable ρ : range_order.
Variable req : RestServerRequest.
Variable argsTypes : list reflect.Type_.
Variable methodConfig : RestMethodConfig.

Ltac iteration_cases k e Hlen :=
  unfold verdict; fold (out_of_range (len argsTypes) k);
  destruct (out_of_range (len argsTypes) k) eqn:Hr; [done|];
  apply out_of_range_false in Hr;
  let t := fresh "t" in let Ht := fresh "Ht" in
  destruct (index_Some argsTypes k Hr) as [t [Ht _]];
  rewrite Ht; cbn [mbind option_bind]; rewrite unwrap_unwrapped;
  cbn [mbind option_bind];
  assert (0 ≤ k < len (A:=value) _) as Hk
    by (unfold len in *; rewrite Hlen; exact Hr);
  destruct t; cbn;
  repeat (case_decide; [try done|try done]);
  repeat match goal with
    | |- context [strconv.Atoi ?x] => destruct (strconv.Atoi x) as [? [?|]]
    | |- context [strconv.ParseInt ?x ?w] =>
        destruct (strconv.ParseInt x w) as [? [?|]]
    end; cbn; try done;
  try destruct e; cbn; try done;
  try (rewrite (store_Some _ _ _ Hk); done).

Lemma path_pass_replay (s : list value * list entry) :
  length s.1 = length argsTypes →
  assembleArgsFromPathParams ρ methodConfig (len argsTypes) argsTypes req s
  = Some (replay (path_events req argsTypes
                    (ρ PathLoop _ (PathParamsMap methodConfig))) s).
Proof.
  intros Hlen. unfold assembleArgsFromPathParams, path_events.
  rewrite (coercion_loop_replay argsTypes (path_coerce req)
             (λ k, (ERROR, PathArgMissing k)) (λ k, (WARN, PathArgKind k))
             (λ e, (ERROR, PathParse e))); [| |exact Hlen].
  - destruct (verdicts _ _ _ _ _ _ _) as [evs [e p]].
    destruct s as [a lg]. cbn [fst snd]. by destruct (replay evs (a, lg)).
  - clear s Hlen. intros k v a e p lg Hlen. cbn [args err param logged logf].
    iteration_cases k e Hlen.
Qed.

Lemma query_pass_replay (s : list value * list entry) :
  length s.1 = length argsTypes →
  assembleArgsFromQueryParams ρ methodConfig (len argsTypes) argsTypes req s
  = Some (replay (query_events req argsTypes
                    (ρ QueryLoop _ (QueryParamsMap methodConfig))) s).
Proof.
  intros Hlen. unfold assembleArgsFromQueryParams, query_events.
  rewrite (coercion_loop_replay argsTypes (query_coerce req)
             (λ k, (ERROR, QueryArgMissing k)) (λ k, (ERROR, QueryArgKind k))
             (λ e, (ERROR, QueryParse e))); [| |exact Hlen].
  - destruct (verdicts _ _ _ _ _ _ _) as [evs [e p]].
    destruct s as [a lg]. cbn [fst snd]. by destruct (replay evs (a, lg)).
  - clear s Hlen. intros k v a e p lg Hlen. cbn [args err param logged logf].
    iteration_cases k e Hlen.
Qed.

End typed_passes.

(** *** The fresh argument list *)

Lemma zero_loop (l : list reflect.Type_) (n : nat) (a : list value) :
  (n + length l ≤ length a)%nat →
  for_range (λ i t args, store args i (Zero t))
    (imap (λ i x, (Z.of_nat (n + i), x)) l) a
  = Some (take n a ++ (Zero <$> l) ++ drop (n + length l) a).
Proof.
  revert n a. induction l as [|t l IH]; intros n a Hlen.
  - cbn. rewrite Nat.add_0_r. by rewrite take_drop.
  - cbn [imap for_range]. cbn in Hlen.
    rewrite store_Some by (unfold len; lia).
    cbn [mbind option_bind].
    rewrite (imap_ext _ (λ i x, (Z.of_nat (S n + i), x))); last first.
    { intros i x _. cbn. f_equal. lia. }
    rewrite IH by (rewrite length_insert; lia).
    f_equal. rewrite Nat.add_0_r, Nat2Z.id.
    destruct (lookup_lt_is_Some_2 a n) as [y Hy]; [lia|].
    rewrite (take_S_r _ _ (Zero t)); last first.
    { apply list_lookup_insert_eq. lia. }
    rewrite take_insert_ge by lia.
    rewrite drop_insert_lt by lia.
    cbn. rewrite <- app_assoc. cbn. by rewrite Nat.add_succ_r.
Qed.

Lemma zero_init (argsTypes : list reflect.Type_) :
  (args ← make (len argsTypes) (len argsTypes);
   for_range (λ i t args, store args i (Zero t)) (enumerate argsTypes) args)
  = Some (Zero <$> argsTypes).
Proof.
  unfold make, len. rewrite decide_True by lia. cbn [mbind option_bind].
  unfold enumerate.
  rewrite (zero_loop argsTypes 0) by (rewrite length_replicate; lia).
  rewrite Nat2Z.id. cbn. rewrite drop_ge by (rewrite length_replicate; lia).
  by rewrite app_nil_r.
Qed.

(** *** The typed binder replays the events of its four passes *)

Theorem getArgsFromRequest_replay (ρ : range_order) (req : RestServerRequest)
    (argsTypes : list reflect.Type_) (methodConfig : RestMethodConfig) :
  getArgsFromRequest ρ req argsTypes methodConfig
  = Some (replay (typed_events ρ req argsTypes methodConfig)
            (Zero <$> argsTypes, [])).
Proof.
  unfold getArgsFromRequest.
  pose proof (zero_init argsTypes) as Hz. cbn [mbind option_bind] in Hz.
  destruct (make (len argsTypes) (len argsTypes)) as [a0|]; [|done].
  cbn [mbind option_bind] in *. rewrite Hz. cbn [mbind option_bind].
  rewrite path_pass_replay by apply length_fmap.
  cbn [mbind option_bind].
  rewrite query_pass_replay by (rewrite replay_length; apply length_fmap).
  cbn [mbind option_bind].
  rewrite body_pass_replay by (rewrite !replay_length; apply length_fmap).
  cbn [mbind option_bind].
  rewrite header_pass_replay by (rewrite !replay_length; apply length_fmap).
  cbn [mbind option_bind].
  unfold typed_events. by rewrite !replay_app.
Qed.

(** *** Which events a pass produces *)

Lemma last_store_elem (evs : list event) (k : Z) (x : value) :
  Store k x ∈ evs → is_Some (last_store evs (Z.to_nat k)).
Proof.
  induction evs as [|[e|k' x'] evs IH]; intros Hin.
  - by apply elem_of_nil in Hin.
  - apply elem_of_cons in Hin as [?|Hin]; [done|]. cbn. auto.
  - cbn. apply elem_of_cons in Hin as [Heq|Hin].
    + simplify_eq. destruct (last_store evs _); [eauto|].
      rewrite decide_True by done. eauto.
    + destruct (IH Hin) as [y ->]. eauto.
Qed.

Lemma last_store_unique (evs : list event) (k : Z) (x : value) :
  Store k x ∈ evs →
  (∀ k' x', Store k' x' ∈ evs → Z.to_nat k' = Z.to_nat k → x' = x) →
  last_store evs (Z.to_nat k) = Some x.
Proof.
  intros Hin Huniq. destruct (last_store_elem _ _ _ Hin) as [y Hy].
  rewrite Hy. f_equal.
  apply last_store_Some in Hy as [k' [Hin' Hk']]. eauto.
Qed.

Lemma NoDup_fst_agree {A B} (l : list (A * B)) (k : A) (v v' : B) :
  NoDup l.*1 → (k, v) ∈ l → (k, v') ∈ l → v = v'.
Proof.
  induction l as [|[k0 v0] l IH]; cbn; intros Hnd Hin Hin'.
  - by apply elem_of_nil in Hin.
  - apply NoDup_cons in Hnd as [Hk0 Hnd].
    assert (∀ w, (k0, w) ∈ l → False) as Hfresh.
    { intros w Hw. apply Hk0, list_elem_of_fmap. by exists (k0, w). }
    apply elem_of_cons in Hin as [Heq|Hin], Hin' as [Heq'|Hin'].
    + congruence.
    + injection Heq as -> ->. by destruct (Hfresh v').
    + injection Heq' as -> ->. by destruct (Hfresh v).
    + by apply IH.
Qed.

Section header_events.

Variable req : RestServerRequest.
Variable argsTypes : list reflect.Type_.

Lemma header_store (l : list (Z * string)) (k : Z) (x : value) :
  Store k x ∈ header_events req argsTypes l →
  ∃ v t, (k, v) ∈ l ∧ 0 ≤ k < len argsTypes
         ∧ argsTypes !! Z.to_nat k = Some t
         ∧ reflect.Type_Kind (unwrapped t) = reflect.String
         ∧ x = VString (HeaderParameter req v).
Proof.
  unfold header_events. intros [[k' v] [Hev Hin]]%list_elem_of_fmap.
  unfold header_event in Hev.
  destruct (out_of_range _ k') eqn:Hr; [done|].
  apply out_of_range_false in Hr.
  destruct (index argsTypes k') as [t|] eqn:Ht; [|done].
  apply index_lookup in Ht as [Ht _].
  case_decide; [|done]. simplify_eq. by exists v, t.
Qed.

Lemma header_missing (l : list (Z * string)) (k : Z) (v : string) :
  (k, v) ∈ l → ¬ 0 ≤ k < len argsTypes →
  Log (ERROR, HeaderArgMissing k) ∈ header_events req argsTypes l.
Proof.
  intros Hin Hr. apply list_elem_of_fmap. exists (k, v). split; [|done].
  apply out_of_range_true in Hr. cbn. by rewrite Hr.
Qed.

Lemma header_event_in_range (k : Z) (v : string) (t : reflect.Type_) :
  0 ≤ k < len argsTypes → argsTypes !! Z.to_nat k = Some t →
  header_event req argsTypes (k, v)
  = if decide (reflect.Type_Kind (unwrapped t) = reflect.String)
    then Store k (VString (HeaderParameter req v))
    else Log (ERROR, HeaderArgKind k).
Proof.
  intros Hr Ht. apply out_of_range_false in Hr as Hr'. cbn. rewrite Hr'.
  destruct (index_Some argsTypes k Hr) as [t' [-> Ht']]. by simplify_eq.
Qed.

Lemma header_rejected (l : list (Z * string)) k v t :
  (k, v) ∈ l → 0 ≤ k < len argsTypes → argsTypes !! Z.to_nat k = Some t →
  reflect.Type_Kind (unwrapped t) ≠ reflect.String →
  Log (ERROR, HeaderArgKind k) ∈ header_events req argsTypes l.
Proof.
  intros Hin Hr Ht Hkind. apply list_elem_of_fmap. exists (k, v).
  split; [|done]. rewrite (header_event_in_range k v t) by done.
  by rewrite decide_False.
Qed.

Lemma header_accepted (l : list (Z * string)) k v t :
  NoDup l.*1 →
  (k, v) ∈ l → 0 ≤ k < len argsTypes → argsTypes !! Z.to_nat k = Some t →
  reflect.Type_Kind (unwrapped t) = reflect.String →
  last_store (header_events req argsTypes l) (Z.to_nat k)
  = Some (VString (HeaderParameter req v)).
Proof.
  intros Hnd Hin Hr Ht Hkind. apply last_store_unique.
  - apply list_elem_of_fmap. exists (k, v). split; [|done].
    rewrite (header_event_in_range k v t) by done. by rewrite decide_True.
  - intros k' x' (v' & t' & Hin' & Hr' & _ & _ & ->)%header_store Hk.
    assert (k' = k) as -> by lia.
    by rewrite (NoDup_fst_agree l k v v').
Qed.

Lemma header_untouched (l : list (Z * string)) (i : nat) (t : reflect.Type_) :
  argsTypes !! i = Some t →
  reflect.Type_Kind (unwrapped t) ≠ reflect.String →
  last_store (header_events req argsTypes l) i = None.
Proof.
  intros Ht Hkind. apply last_store_None.
  intros k x (v & t' & _ & _ & Ht' & Hkind' & _)%header_store <-.
  by simplify_eq.
Qed.

End header_events.

Lemma last_store_stores (evs : list event) (i : nat) :
  last_store evs i = last_write (stores evs) i.
Proof.
  induction evs as [|[e|k x] evs IH]; cbn; [done|done|]. by rewrite IH.
Qed.

Lemma replay_stores (evs evs' : list event) s :
  stores evs = stores evs' → (replay evs s).1 = (replay evs' s).1.
Proof.
  intros Heq. rewrite !replay_overlay. unfold overlay.
  apply imap_ext. intros i x _. by rewrite !last_store_stores, Heq.
Qed.

Section coercion_events.

Variable argsTypes : list reflect.Type_.
Variable coerce :
  reflect.Kind → string → option error → value → option (option error * value).
Variables (missing kindmsg : Z → entry) (parsemsg : error → entry).

Local Abbreviation verdict :=
  (verdict argsTypes coerce missing kindmsg parsemsg).
Local Abbreviation verdicts :=
  (verdicts argsTypes coerce missing kindmsg parsemsg).

Lemma verdict_store kv ep k x :
  (verdict kv ep).1 = Store k x →
  ∃ t, kv.1 = k ∧ 0 ≤ k < len argsTypes
       ∧ argsTypes !! Z.to_nat k = Some t
       ∧ coerce (reflect.Type_Kind t) kv.2 ep.1 ep.2 = Some (None, x).
Proof.
  destruct kv as [k' v]. unfold verdict.
  destruct (out_of_range _ k') eqn:Hr; [done|].
  apply out_of_range_false in Hr.
  destruct (index argsTypes k') as [t|] eqn:Ht; [|done].
  apply index_lookup in Ht as [Ht _].
  destruct (coerce _ _ _ _) as [[[e|] p]|] eqn:Hc; [done| |done].
  cbn. intros [= -> ->]. by exists t.
Qed.

Lemma verdicts_store l ep k x :
  Store k x ∈ (verdicts l ep).1 →
  ∃ v t e p, (k, v) ∈ l ∧ 0 ≤ k < len argsTypes
             ∧ argsTypes !! Z.to_nat k = Some t
             ∧ coerce (reflect.Type_Kind t) v e p = Some (None, x).
Proof.
  revert ep. induction l as [|kv l IH]; intros ep; cbn.
  - by intros ?%elem_of_nil.
  - destruct (verdict kv ep) as [ev ep1] eqn:Hv.
    destruct (verdicts l ep1) as [evs ep2] eqn:Hvs. cbn.
    intros [Heq|Hin]%elem_of_cons.
    + subst ev.
      destruct (verdict_store kv ep k x) as (t & Hk & Hr & Ht & Hc).
      { by rewrite Hv. }
      destruct kv as [k' v]. cbn in *. subst k'.
      exists v, t, ep.1, ep.2. split; [by left|done].
    + destruct (IH ep1) as (v & t & e & p & Hin' & H).
      { by rewrite Hvs. }
      exists v, t, e, p. split; [by right|done].
Qed.

Lemma verdicts_missing l ep k v :
  (k, v) ∈ l → ¬ 0 ≤ k < len argsTypes →
  Log (missing k) ∈ (verdicts l ep).1.
Proof.
  intros Hin Hr. apply out_of_range_true in Hr.
  revert ep. induction l as [|kv l IH]; intros ep.
  - by apply elem_of_nil in Hin.
  - cbn. destruct (verdict kv ep) as [ev ep1] eqn:Hv.
    specialize (λ H, IH H ep1).
    destruct (verdicts l ep1) as [evs ep2]. cbn in *.
    apply elem_of_cons in Hin as [<-|Hin]; [|right; auto].
    unfold verdict in Hv. rewrite Hr in Hv. injection Hv as <- <-. left.
Qed.

Lemma verdicts_rejected l ep k v t :
  (k, v) ∈ l → 0 ≤ k < len argsTypes → argsTypes !! Z.to_nat k = Some t →
  (∀ e p, coerce (reflect.Type_Kind t) v e p = None) →
  Log (kindmsg k) ∈ (verdicts l ep).1.
Proof.
  intros Hin Hr Ht Hc. apply out_of_range_false in Hr as Hr'.
  revert ep. induction l as [|kv l IH]; intros ep.
  - by apply elem_of_nil in Hin.
  - cbn. destruct (verdict kv ep) as [ev ep1] eqn:Hv.
    specialize (λ H, IH H ep1).
    destruct (verdicts l ep1) as [evs ep2]. cbn in *.
    apply elem_of_cons in Hin as [<-|Hin]; [|right; auto].
    unfold verdict in Hv. rewrite Hr' in Hv.
    destruct (index_Some argsTypes k Hr) as [t' [Hi Ht']].
    rewrite Hi in Hv. simplify_eq. rewrite Hc in Hv.
    injection Hv as <- <-. left.
Qed.

(** A coercion that succeeds whatever [err] and [param] hold. *)
Lemma verdicts_accepted l ep k v t x :
  NoDup l.*1 →
  (k, v) ∈ l → 0 ≤ k < len argsTypes → argsTypes !! Z.to_nat k = Some t →
  (∀ e p, coerce (reflect.Type_Kind t) v e p = Some (None, x)) →
  last_store (verdicts l ep).1 (Z.to_nat k) = Some x.
Proof.
  intros Hnd Hin Hr Ht Hc. apply last_store_unique.
  - apply out_of_range_false in Hr as Hr'. clear Hnd.
    revert ep. induction l as [|kv l IH]; intros ep.
    + by apply elem_of_nil in Hin.
    + cbn. destruct (verdict kv ep) as [ev ep1] eqn:Hv.
      specialize (λ H, IH H ep1).
      destruct (verdicts l ep1) as [evs ep2]. cbn in *.
      apply elem_of_cons in Hin as [<-|Hin]; [|right; auto].
      unfold verdict in Hv. rewrite Hr' in Hv.
      destruct (index_Some argsTypes k Hr) as [t' [Hi Ht']].
      rewrite Hi in Hv. simplify_eq. rewrite Hc in Hv.
      injection Hv as <- <-. left.
  - intros k' x' (v' & t' & e & p & Hin' & Hr' & Ht' & Hc')%verdicts_store Hk.
    assert (k' = k) as -> by lia.
    rewrite (NoDup_fst_agree l k v' v) in Hc' by done.
    simplify_eq. rewrite Hc in Hc'. congruence.
Qed.

(** Entries with an index out of range change neither [err] nor
    [param], and store nothing. *)
Lemma verdicts_in_range_only l ep :
  let inside := λ kv : Z * string, 0 ≤ kv.1 < len argsTypes in
  (verdicts (filter inside l) ep).2 = (verdicts l ep).2
  ∧ stores (verdicts (filter inside l) ep).1 = stores (verdicts l ep).1.
Proof.
  intros inside. revert ep. induction l as [|kv l IH]; intros ep; [done|].
  destruct (decide (inside kv)) as [Hin|Hout].
  - rewrite filter_cons_True by done. cbn.
    destruct (verdict kv ep) as [ev ep1].
    specialize (IH ep1).
    destruct (verdicts (filter inside l) ep1) as [evs ep2].
    destruct (verdicts l ep1) as [evs' ep2']. cbn in *.
    destruct IH as [-> Hs]. split; [done|].
    unfold stores in *. cbn. by rewrite Hs.
  - rewrite filter_cons_False by done. cbn.
    destruct (verdict kv ep) as [ev ep1] eqn:Hv.
    destruct kv as [k v]. unfold verdict in Hv.
    assert (out_of_range (len argsTypes) k = true) as Hr.
    { apply out_of_range_true. exact Hout. }
    rewrite Hr in Hv. injection Hv as <- <-.
    specialize (IH ep).
    destruct (verdicts (filter inside l) ep) as [evs ep2].
    destruct (verdicts l ep) as [evs' ep2']. cbn in *. done.
Qed.

End coercion_events.

(** ** The generic convention in closed form *)

(** *** Visiting orders *)

Section orders.

Variable ρ : range_order.
Hypothesis ρ_valid : range_valid ρ.

Lemma range_elem_of {V} site (m : gmap Z V) (k : Z) (v : V) :
  (k, v) ∈ ρ site V m ↔ m !! k = Some v.
Proof. rewrite (ρ_valid site V m). apply elem_of_map_to_list. Qed.

Lemma range_NoDup {V} site (m : gmap Z V) : NoDup (ρ site V m).*1.
Proof. rewrite (ρ_valid site V m). apply NoDup_fst_map_to_list. Qed.

Lemma range_list_to_map {V} site (m : gmap Z V) : list_to_map (ρ site V m) = m.
Proof.
  rewrite (list_to_map_proper _ (map_to_list m)).
  - apply list_to_map_to_list.
  - apply range_NoDup.
  - apply ρ_valid.
Qed.

Lemma range_empty {V} site : ρ site V ∅ = [].
Proof.
  apply Permutation_nil_r. rewrite (ρ_valid site V ∅).
  by rewrite map_to_list_empty.
Qed.

End orders.

(** *** The greatest key *)

Lemma upper_max (a b : Z) (ks : list Z) :
  upper (Z.max a b) ks = Z.max b (upper a ks).
Proof.
  unfold upper. induction ks as [|k ks IH]; cbn; [lia|]. rewrite IH. lia.
Qed.

Lemma upper_spec (M : Z) (ks : list Z) :
  M ≤ upper M ks ∧ Forall (λ k, k ≤ upper M ks) ks
  ∧ (upper M ks = M ∨ upper M ks ∈ ks).
Proof.
  induction ks as [|k ks (IH1 & IH2 & IH3)].
  - cbn. split; [lia|]. split; [constructor|by left].
  - change (upper M (k :: ks)) with (Z.max k (upper M ks)).
    split; [lia|]. split.
    + constructor; [lia|]. eapply Forall_impl; [exact IH2|]. cbn. lia.
    + destruct (Z.max_spec k (upper M ks)) as [[_ ->]|[_ ->]].
      * destruct IH3 as [?|?]; [by left|right; by right].
      * right. by left.
Qed.

Lemma upper_unique (M z : Z) (ks : list Z) :
  M ≤ z → Forall (λ k, k ≤ z) ks → z = M ∨ z ∈ ks → upper M ks = z.
Proof.
  intros HM Hall Hz. destruct (upper_spec M ks) as (H1 & H2 & H3).
  assert (upper M ks ≤ z).
  { destruct H3 as [->|Hin]; [done|].
    rewrite Forall_forall in Hall. by apply Hall. }
  assert (z ≤ upper M ks).
  { destruct Hz as [->|Hin]; [done|].
    rewrite Forall_forall in H2. by apply H2. }
  lia.
Qed.

Lemma upper_same_elements (M : Z) (ks ks' : list Z) :
  (∀ k, M < k → k ∈ ks ↔ k ∈ ks') → upper M ks = upper M ks'.
Proof.
  intros Hsame. destruct (upper_spec M ks') as (H1 & H2 & H3).
  rewrite Forall_forall in H2.
  apply upper_unique; [done| |].
  - apply Forall_forall. intros k Hk.
    destruct (decide (M < k)); [|lia]. apply H2. by apply Hsame.
  - destruct H3 as [?|Hin]; [by left|].
    destruct (decide (M < upper M ks')); [|left; lia].
    right. by apply Hsame.
Qed.

Lemma upper_perm (M : Z) (ks ks' : list Z) : ks ≡ₚ ks' → upper M ks = upper M ks'.
Proof. intros Hp. apply upper_same_elements. intros k _. by rewrite Hp. Qed.

Lemma elem_of_keys {V} (m : gmap Z V) (k : Z) : k ∈ keys m ↔ is_Some (m !! k).
Proof.
  unfold keys. rewrite list_elem_of_fmap. split.
  - intros [[k' v] [-> Hin]]. apply elem_of_map_to_list in Hin. by exists v.
  - intros [v Hv]. exists (k, v). split; [done|]. by apply elem_of_map_to_list.
Qed.

(** *** The loops of the generic binder *)

Lemma insert_loop (f : string → value) (l : list (Z * string))
    (m0 : gmap Z value) (M0 : Z) :
  NoDup l.*1 →
  for_range (λ k v '(argsMap, maxKey),
      let maxKey := if maxKey <? k then k else maxKey in
      Some (<[k := f v]> argsMap, maxKey)) l (m0, M0)
  = Some ((f <$> (list_to_map l : gmap Z string)) ∪ m0, upper M0 l.*1).
Proof.
  revert m0 M0. induction l as [|[k v] l IH]; intros m0 M0 Hnd.
  - cbn. by rewrite fmap_empty, (left_id_L ∅ (∪)).
  - apply NoDup_cons in Hnd as [Hk Hnd]. cbn [for_range mbind option_bind].
    rewrite IH by done. f_equal. f_equal.
    + cbn. rewrite fmap_insert, <- insert_union_l.
      rewrite insert_union_r; [done|].
      rewrite lookup_fmap. by rewrite (not_elem_of_list_to_map_1 _ _ Hk).
    + change (upper M0 ((k, v) :: l).*1) with (Z.max k (upper M0 l.*1)).
      rewrite <- upper_max. f_equal.
      destruct (Z.ltb_spec M0 k); lia.
Qed.

Lemma fill_loop_ok (l : list (Z * value)) (a : list value) :
  NoDup l.*1 →
  Forall (λ kv, 0 ≤ kv.1 → kv.1 < len a) l →
  for_range (λ k v args, if 0 <=? k then store args k v else Some args) l a
  = Some (imap (λ i x, default x ((list_to_map l : gmap Z value) !! Z.of_nat i)) a).
Proof.
  revert a. induction l as [|[k v] l IH]; intros a Hnd Hall.
  - cbn [for_range]. f_equal. apply list_eq. intros i.
    rewrite list_lookup_imap. destruct (a !! i); [|done].
    cbn. by rewrite lookup_empty.
  - apply NoDup_cons in Hnd as [Hk Hnd]. apply Forall_cons in Hall as [Hkr Hall].
    cbn [for_range fst] in *. destruct (Z.leb_spec 0 k) as [Hk0|Hk0].
    + rewrite store_Some by lia. cbn [mbind option_bind].
      rewrite IH; [|done|]; last first.
      { unfold len in *. by rewrite length_insert. }
      f_equal. apply list_eq. intros i. rewrite !list_lookup_imap.
      cbn [list_to_map foldr uncurry fst snd].
      destruct (decide (i = Z.to_nat k)) as [->|Hne].
      * rewrite Z2Nat.id by lia. rewrite lookup_insert_eq.
        rewrite (not_elem_of_list_to_map_1 _ _ Hk).
        rewrite list_lookup_insert_eq by (unfold len in *; lia).
        destruct (lookup_lt_is_Some_2 a (Z.to_nat k)) as [y ->];
          [unfold len in *; lia|]. done.
      * rewrite list_lookup_insert_ne by done.
        rewrite lookup_insert_ne by lia. done.
    + cbn [mbind option_bind]. rewrite IH by done. f_equal.
      apply imap_ext. intros i x _. cbn [list_to_map foldr uncurry fst snd].
      rewrite lookup_insert_ne by lia. done.
Qed.

Lemma fill_loop_panic (l : list (Z * value)) (a : list value) :
  ¬ Forall (λ kv, 0 ≤ kv.1 → kv.1 < len a) l →
  for_range (λ k v args, if 0 <=? k then store args k v else Some args) l a
  = None.
Proof.
  revert a. induction l as [|[k v] l IH]; intros a Hall.
  - destruct Hall. constructor.
  - cbn [for_range]. destruct (Z.leb_spec 0 k) as [Hk0|Hk0].
    + unfold store. case_decide as Hk; [|done]. cbn [mbind option_bind].
      apply IH. intros Hall'. apply Hall. constructor; [cbn; unfold len; lia|].
      eapply Forall_impl; [exact Hall'|]. cbn. unfold len.
      intros kv. by rewrite length_insert.
    + cbn [mbind option_bind]. apply IH. intros Hall'. apply Hall.
      constructor; [cbn; lia|done].
Qed.

Lemma fill_loop (ρ : range_order) (am : gmap Z value) (n : Z) :
  range_valid ρ → 0 ≤ n →
  for_range (λ k v args, if 0 <=? k then store args k v else Some args)
    (ρ ArgsLoop _ am) (replicate (Z.to_nat n) VNil)
  = if decide (map_Forall (λ k _, 0 ≤ k → k < n) am)
    then Some (imap (λ i x, default x (am !! Z.of_nat i))
                 (replicate (Z.to_nat n) VNil))
    else None.
Proof.
  intros Hρ Hn.
  assert (len (replicate (Z.to_nat n) VNil) = n) as Hlen.
  { unfold len. rewrite length_replicate. lia. }
  assert (map_Forall (λ k _, 0 ≤ k → k < n) am
          ↔ Forall (λ kv : Z * value,
                      0 ≤ kv.1 → kv.1 < len (replicate (Z.to_nat n) VNil))
              (ρ ArgsLoop _ am)) as Hiff.
  { rewrite Hlen, map_Forall_to_list, (Hρ ArgsLoop _ am).
    apply Forall_proper; [|done]. by intros [k v]. }
  case_decide as Hall.
  - rewrite fill_loop_ok.
    + by rewrite (range_list_to_map ρ Hρ).
    + by apply range_NoDup.
    + by apply Hiff.
  - apply fill_loop_panic. by rewrite <- Hiff.
Qed.

(** *** The generic binder computes the closed form *)

Theorem getArgsInterfaceFromRequest_closed (ρ : range_order)
    (req : RestServerRequest) (methodConfig : RestMethodConfig) :
  range_valid ρ →
  getArgsInterfaceFromRequest ρ req methodConfig
  = generic_result req methodConfig.
Proof.
  intros Hρ. unfold getArgsInterfaceFromRequest.
  rewrite insert_loop by (by apply range_NoDup). cbn [mbind option_bind].
  rewrite (for_range_ext _ (λ k v '(argsMap, maxKey),
      let maxKey := if maxKey <? k then k else maxKey in
      Some (<[k := query_value req v]> argsMap, maxKey))); last first.
  { intros k v [m M]. unfold query_value.
    by destruct (QueryParameters req v) as [|p [|q ps]]. }
  rewrite insert_loop by (by apply range_NoDup). cbn [mbind option_bind].
  rewrite insert_loop by (by apply range_NoDup). cbn [mbind option_bind].
  rewrite !(range_list_to_map ρ Hρ), (right_id_L ∅ (∪)).
  rewrite (upper_perm _ (ρ HeaderLoop _ _).*1 (keys (HeadersMap methodConfig)))
    by (unfold keys; by rewrite (Hρ HeaderLoop _ _)).
  rewrite (upper_perm _ (ρ QueryLoop _ _).*1 (keys (QueryParamsMap methodConfig)))
    by (unfold keys; by rewrite (Hρ QueryLoop _ _)).
  rewrite (upper_perm _ (ρ PathLoop _ _).*1 (keys (PathParamsMap methodConfig)))
    by (unfold keys; by rewrite (Hρ PathLoop _ _)).
  unfold generic_result, generic_argsMap, generic_log, generic_maxKey, fill.
  set (am := _ ∪ (_ ∪ _)).
  set (M := upper (upper (upper 0 _) _) _).
  assert (∀ (M' : Z) (am' : gmap Z value) (lg : list entry),
    (args ← make 0 (wrap IntSize (M' + 1));
     args ← for_range
       (λ k v args, if 0 <=? k then store args k v else Some args)
       (ρ ArgsLoop _ am') args;
     Some (args, lg))
    = (args ← (if decide ((0 ≤ wrap IntSize (M' + 1)
                           ∧ wrap IntSize (M' + 1) * interfaceSize ≤ maxAlloc)
                          ∧ map_Forall (λ k _, 0 ≤ k → k < wrap IntSize (M' + 1)) am')
               then Some (imap (λ i x, default x (am' !! Z.of_nat i))
                            (replicate (Z.to_nat (wrap IntSize (M' + 1))) VNil))
               else None);
       Some (args, lg))) as Hfinal.
  { intros M' am' lg. unfold make.
    assert (0 < interfaceSize) as Hsize by done.
    case_decide as Hn.
    - cbn [mbind option_bind]. rewrite fill_loop by tauto.
      case_decide as Hall.
      + rewrite decide_True; [done|]. split; [|done]. split; [tauto|].
        destruct Hn as [H0 [H1|H1]]; [done|].
        assert (wrap IntSize (M' + 1) = 0) as -> by lia.
        unfold maxAlloc. lia.
      + rewrite decide_False; [done|]. by intros [_ ?].
    - rewrite decide_False; [done|]. intros [[? ?] _]. apply Hn. tauto. }
  destruct (0 <=? Body methodConfig).
  - replace (if M <? Body methodConfig then Body methodConfig else M)
      with (Z.max M (Body methodConfig)) by (destruct (Z.ltb_spec M (Body methodConfig)); lia).
    destruct (ReadEntity req (VMap [])) as [e|m]; apply Hfinal.
  - apply Hfinal.
Qed.

(** ** Type names *)

Lemma has_dot_qualified (pkg name : string) : has_dot (pkg +:+ "." +:+ name) = true.
Proof.
  induction pkg as [|c pkg IH]; [done|].
  change (has_dot (String.String c pkg +:+ "." +:+ name))
    with (bool_decide (c = "."%char) || has_dot (pkg +:+ "." +:+ name)).
  rewrite IH. apply orb_true_r.
Qed.

Lemma Type_String_interface (t : reflect.Type_) :
  reflect.Type_String t = "interface {}" ↔ t = reflect.TInterface.
Proof.
  split; [|by intros ->].
  destruct t; cbn; try done.
  intros H. pose proof (has_dot_qualified pkg name) as Hd.
  rewrite H in Hd. done.
Qed.

Lemma Type_String_slice_interface (t : reflect.Type_) :
  reflect.Type_String t = "[]interface {}"
  ↔ t = reflect.TSlice reflect.TInterface.
Proof.
  split; [|by intros ->].
  destruct t; cbn; try done.
  - intros [= H]. apply Type_String_interface in H. by subst.
  - intros H. pose proof (has_dot_qualified pkg name) as Hd.
    rewrite H in Hd. done.
Qed.

(** ** The properties of the design document *)

(** *** Choice of the convention *)

Lemma chosen_spec (argsTypes : list reflect.Type_)
    (replyType : option reflect.Type_) :
  chosen argsTypes replyType
  = Some (if decide (generic_signature argsTypes replyType)
          then Generic else Typed).
Proof.
  assert (∀ t ts, (length (t :: ts) = 1%nat
                   ∨ (length (t :: ts) = 2%nat ∧ replyType = None)) →
    chosen (t :: ts) replyType
    = Some (if decide (generic_signature (t :: ts) replyType)
            then Generic else Typed)) as Hfirst.
  { intros t ts Hshape.
    transitivity (if decide (reflect.Type_String t = "[]interface {}")
                  then Some Generic else Some Typed).
    - unfold chosen, len.
      replace ((Z.of_nat (length (t :: ts)) =? 1)
               || ((Z.of_nat (length (t :: ts)) =? 2)
                   && bool_decide (replyType = None))) with true; [done|].
      destruct Hshape as [->|[-> ->]]; done.
    - destruct (decide (reflect.Type_String t = "[]interface {}")) as [Ht|Ht].
      + apply Type_String_slice_interface in Ht as ->.
        rewrite decide_True; [done|]. by split.
      + rewrite decide_False; [done|]. intros [[= ->] _]. by apply Ht. }
  destruct (decide (length argsTypes = 1%nat
                    ∨ (length argsTypes = 2%nat ∧ replyType = None)))
    as [Hshape|Hshape].
  - destruct argsTypes as [|t ts]; [|by apply Hfirst].
    by destruct Hshape as [?|[? _]].
  - rewrite decide_False by (by intros [_ ?]).
    unfold chosen, len.
    replace ((Z.of_nat (length argsTypes) =? 1)
             || ((Z.of_nat (length argsTypes) =? 2)
                 && bool_decide (replyType = None))) with false; [done|].
    symmetry. apply orb_false_iff. split.
    + apply Z.eqb_neq. intros H. apply Hshape. left. lia.
    + apply andb_false_iff.
      destruct (decide (replyType = None)) as [Hr|Hr].
      * left. apply Z.eqb_neq. intros H. apply Hshape. right. split; [lia|done].
      * right. by apply bool_decide_eq_false.
Qed.

(** C3: the route function binds with the generic convention exactly
    when the first declared argument is a sequence of untyped values and
    there is either one argument, or two and no reply type; in every
    other case it binds with the typed convention.  The arguments it
    hands to the invoker are those of the binder so chosen. *)
Theorem C3_convention_choice (ρ : range_order) (svc : gmap string MethodType)
    (invoker : Invoker) (methodConfig : RestMethodConfig)
    (req : RestServerRequest) (resp : RestServerResponse) (method : MethodType) :
  svc !! MethodName methodConfig = Some method →
  chosen (ArgsType method) (ReplyType method)
  = Some (if decide (generic_signature (ArgsType method) (ReplyType method))
          then Generic else Typed)
  ∧ (λ r, r.1.1) <$> GetRouteFunc ρ svc invoker methodConfig req resp
    = fst <$>
        (if decide (generic_signature (ArgsType method) (ReplyType method))
         then getArgsInterfaceFromRequest ρ req methodConfig
         else getArgsFromRequest ρ req (ArgsType method) methodConfig).
Proof.
  intros Hm. split; [apply chosen_spec|].
  unfold GetRouteFunc. rewrite Hm. cbn [mbind option_bind].
  rewrite chosen_spec. cbn [mbind option_bind].
  destruct (decide (generic_signature (ArgsType method) (ReplyType method)));
    [destruct (getArgsInterfaceFromRequest ρ req methodConfig) as [[a lg]|]
    |destruct (getArgsFromRequest ρ req (ArgsType method) methodConfig)
       as [[a lg]|]]; try done; cbn;
    (destruct (Error _); [destruct (WriteError _ _ _)|destruct (WriteEntity _ _)]);
    done.
Qed.

Lemma C3_convention_choice_witness :
  let method :=
    {| ArgsType := [reflect.TSlice reflect.TInterface;
                    reflect.TPtr (reflect.TStruct "main" "User")];
       ReplyType := None |} in
  let svc : gmap string MethodType := {["GetUser" := method]} in
  let invoker : Invoker := λ _ _, {| Error := None; Result_ := VNil |} in
  let resp := {| WriteError := λ _ _, None; WriteEntity := λ _, None |} in
  let req := request {["id" := ["7"]]} ∅ ∅ no_entity in
  let methodConfig := config {[0 := "id"]} ∅ ∅ (-1) in
  svc !! MethodName methodConfig = Some method
  ∧ chosen (ArgsType method) (ReplyType method) = Some Generic
  ∧ (λ r, r.1.1) <$> GetRouteFunc ascending svc invoker methodConfig req resp
    = Some [VString "7"].
Proof.
  intros method svc invoker resp req methodConfig.
  assert (svc !! MethodName methodConfig = Some method) as Hm by reflexivity.
  split; [exact Hm|].
  destruct (C3_convention_choice ascending svc invoker methodConfig req resp
              method Hm) as [Hc Hr].
  split.
  - rewrite Hc. reflexivity.
  - rewrite Hr. vm_compute. reflexivity.
Defined.

(** *** The typed convention: four passes in a fixed order *)

Lemma overlay_lookup (w : nat → option value) (a : list value) (i : nat) :
  overlay w a !! i = (λ x, default x (w i)) <$> a !! i.
Proof. apply list_lookup_imap. Qed.

Lemma overlay_length (w : nat → option value) (a : list value) :
  length (overlay w a) = length a.
Proof. apply length_imap. Qed.

(** C4: the typed binder returns a list with one slot per declared
    parameter; it starts from the zero values of the declared types and
    applies the path, query, body and header passes in this order.  Each
    pass either leaves a slot as it finds it or writes a value that does
    not depend on what the slot held ([overlay]), so a slot ends with the
    value of the last pass that writes it, and with its zero value if
    none does. *)
Theorem C4_typed_passes_in_order (ρ : range_order) (req : RestServerRequest)
    (argsTypes : list reflect.Type_) (methodConfig : RestMethodConfig) :
  ∃ wp wq wb wh : nat → option value,
    (∀ s, length s.1 = length argsTypes →
       fst <$> assembleArgsFromPathParams ρ methodConfig (len argsTypes)
                 argsTypes req s = Some (overlay wp s.1))
    ∧ (∀ s, length s.1 = length argsTypes →
       fst <$> assembleArgsFromQueryParams ρ methodConfig (len argsTypes)
                 argsTypes req s = Some (overlay wq s.1))
    ∧ (∀ s, length s.1 = length argsTypes →
       fst <$> assembleArgsFromBody methodConfig argsTypes req s
       = Some (overlay wb s.1))
    ∧ (∀ s, length s.1 = length argsTypes →
       fst <$> assembleArgsFromHeaders ρ methodConfig req (len argsTypes)
                 argsTypes s = Some (overlay wh s.1))
    ∧ ∃ args log,
        getArgsFromRequest ρ req argsTypes methodConfig = Some (args, log)
        ∧ length args = length argsTypes
        ∧ args = overlay wh (overlay wb (overlay wq (overlay wp
                   (Zero <$> argsTypes))))
        ∧ ∀ i t, argsTypes !! i = Some t →
            args !! i
            = Some (default (default (default (default (Zero t) (wp i))
                                        (wq i)) (wb i)) (wh i)).
Proof.
  set (wp := last_store (path_events req argsTypes
                           (ρ PathLoop _ (PathParamsMap methodConfig)))).
  set (wq := last_store (query_events req argsTypes
                           (ρ QueryLoop _ (QueryParamsMap methodConfig)))).
  set (wb := last_store (body_events req argsTypes (Body methodConfig))).
  set (wh := last_store (header_events req argsTypes
                           (ρ HeaderLoop _ (HeadersMap methodConfig)))).
  exists wp, wq, wb, wh.
  split; [|split; [|split; [|split]]].
  - intros s Hs. rewrite path_pass_replay by done. cbn.
    by rewrite replay_overlay.
  - intros s Hs. rewrite query_pass_replay by done. cbn.
    by rewrite replay_overlay.
  - intros s Hs. rewrite body_pass_replay by done. cbn.
    by rewrite replay_overlay.
  - intros s Hs. rewrite header_pass_replay by done. cbn.
    by rewrite replay_overlay.
  - rewrite getArgsFromRequest_replay. unfold typed_events.
    rewrite !replay_app.
    set (final := replay _ (replay _ (replay _ (replay _ _)))).
    assert (final.1 = overlay wh (overlay wb (overlay wq (overlay wp
              (Zero <$> argsTypes))))) as Hfinal.
    { unfold final. rewrite replay_overlay. f_equal.
      rewrite replay_overlay. f_equal. rewrite replay_overlay. f_equal.
      by rewrite replay_overlay. }
    exists final.1, final.2. split; [by destruct final|].
    split; [|split; [exact Hfinal|]].
    + unfold final. rewrite !replay_length. apply length_fmap.
    + intros i t Ht. rewrite Hfinal, !overlay_lookup, list_lookup_fmap, Ht.
      done.
Qed.

(** The list and the log of the typed binder, by its events. *)
Lemma typed_result (ρ : range_order) (req : RestServerRequest)
    (argsTypes : list reflect.Type_) (methodConfig : RestMethodConfig) :
  ∃ args,
    getArgsFromRequest ρ req argsTypes methodConfig
    = Some (args, logs (typed_events ρ req argsTypes methodConfig))
    ∧ length args = length argsTypes
    ∧ ∀ i t, argsTypes !! i = Some t →
        args !! i
        = Some (default (Zero t)
                  (last_store (typed_events ρ req argsTypes methodConfig) i)).
Proof.
  rewrite getArgsFromRequest_replay.
  set (final := replay _ _). exists final.1. split; [|split].
  - rewrite (surjective_pairing final) at 1. do 2 f_equal.
    unfold final. by rewrite replay_logs.
  - unfold final. rewrite replay_length. apply length_fmap.
  - intros i t Ht. unfold final. rewrite replay_lookup. cbn [fst].
    rewrite list_lookup_fmap, Ht, length_fmap.
    destruct (last_store _ i); [|done].
    rewrite decide_True; [done|]. by apply lookup_lt_Some in Ht.
Qed.

Lemma verdicts_untouched argsTypes coerce missing kindmsg parsemsg
    (l : list (Z * string)) ep (i : nat) (t : reflect.Type_) :
  argsTypes !! i = Some t →
  (∀ v e p x, coerce (reflect.Type_Kind t) v e p ≠ Some (None, x)) →
  last_store (verdicts argsTypes coerce missing kindmsg parsemsg l ep).1 i = None.
Proof.
  intros Ht Hc. apply last_store_None.
  intros k x (v & t' & e & p & _ & _ & Ht' & Hc')%verdicts_store <-.
  simplify_eq. by eapply Hc.
Qed.

Lemma path_coerce_rejects req kind v e p :
  path_accepts kind = false → path_coerce req kind v e p = None.
Proof. by destruct kind. Qed.

Lemma query_coerce_rejects req kind v e p :
  query_accepts kind = false → query_coerce req kind v e p = None.
Proof. by destruct kind. Qed.

Lemma path_untouched req argsTypes (l : list (Z * string)) (i : nat) t :
  argsTypes !! i = Some t →
  path_accepts (reflect.Type_Kind t) = false →
  last_store (path_events req argsTypes l) i = None.
Proof.
  intros Ht Hk. apply (verdicts_untouched _ _ _ _ _ _ _ _ t Ht).
  intros v e p x. by rewrite path_coerce_rejects.
Qed.

Lemma query_untouched req argsTypes (l : list (Z * string)) (i : nat) t :
  argsTypes !! i = Some t →
  query_accepts (reflect.Type_Kind t) = false →
  last_store (query_events req argsTypes l) i = None.
Proof.
  intros Ht Hk. apply (verdicts_untouched _ _ _ _ _ _ _ _ t Ht).
  intros v e p x. by rewrite query_coerce_rejects.
Qed.

(** *** Header pass *)

(** C6: the header pass is not fatal and leaves every slot whose
    declared type, with one level of pointer removed, is not of kind
    String as it finds it, whatever the header holds; when such a slot
    is mapped to a header the rejection is logged. *)
Theorem C6_header_writes_string_slots_only (ρ : range_order)
    (req : RestServerRequest) (argsTypes : list reflect.Type_)
    (methodConfig : RestMethodConfig) (s : list value * list entry)
    (i : nat) (t : reflect.Type_) :
  range_valid ρ →
  length s.1 = length argsTypes →
  argsTypes !! i = Some t →
  reflect.Type_Kind (unwrapped t) ≠ reflect.String →
  ∃ args' log',
    assembleArgsFromHeaders ρ methodConfig req (len argsTypes) argsTypes s
    = Some (args', log')
    ∧ args' !! i = s.1 !! i
    ∧ ∀ v, HeadersMap methodConfig !! Z.of_nat i = Some v →
        (ERROR, HeaderArgKind (Z.of_nat i)) ∈ log'.
Proof.
  intros Hρ Hlen Ht Hkind. rewrite header_pass_replay by done.
  set (final := replay _ s). exists final.1, final.2.
  split; [by destruct final|]. split.
  - unfold final. rewrite replay_lookup.
    by rewrite (header_untouched req argsTypes _ i t).
  - intros v Hv. unfold final. rewrite replay_logs.
    apply elem_of_app. right. apply elem_of_logs.
    apply (header_rejected req argsTypes _ _ v t).
    + by apply range_elem_of.
    + apply lookup_lt_Some in Ht. unfold len. lia.
    + by rewrite Nat2Z.id.
    + done.
Qed.

Lemma C6_header_writes_string_slots_only_witness :
  let req := request ∅ ∅ {["X-Count" := "12"]} no_entity in
  let methodConfig := config ∅ ∅ {[0 := "X-Count"]} (-1) in
  let s : list value * list entry := ([VInt32 5], []) in
  range_valid ascending
  ∧ length s.1 = length [reflect.TInt32]
  ∧ [reflect.TInt32] !! 0%nat = Some reflect.TInt32
  ∧ reflect.Type_Kind (unwrapped reflect.TInt32) ≠ reflect.String
  ∧ ∃ args' log',
      assembleArgsFromHeaders ascending methodConfig req 1 [reflect.TInt32] s
      = Some (args', log')
      ∧ args' !! 0%nat = Some (VInt32 5)
      ∧ ∀ v, HeadersMap methodConfig !! 0 = Some v →
          (ERROR, HeaderArgKind 0) ∈ log'.
Proof.
  intros req methodConfig s.
  assert (reflect.Type_Kind (unwrapped reflect.TInt32) ≠ reflect.String)
    as Hkind by discriminate.
  split; [exact ascending_valid|]. split; [reflexivity|].
  split; [reflexivity|]. split; [exact Hkind|].
  exact (C6_header_writes_string_slots_only ascending req [reflect.TInt32]
           methodConfig s 0 reflect.TInt32 ascending_valid eq_refl eq_refl Hkind).
Defined.

(** *** Body pass *)

(** After a decode failure the slot of type [*main.User] holds the nil
    pointer with which [getArgsFromRequest] filled it, not the instance
    that the body pass allocated for decoding. *)
Lemma C5_slot_is_nil_pointer_after_failed_decode :
  getArgsFromRequest ascending malformed [reflect.TPtr user; reflect.TString]
    (config ∅ ∅ {[1 := "X-Token"]} 0)
  = Some ([VNilPtr user; VString "tok"], [(ERROR, BodyRead (EntityErr "EOF"))])
  ∧ VNilPtr user ≠ New user.
Proof. split; [vm_compute; reflexivity|discriminate]. Qed.

Lemma body_events_struct_pointer req argsTypes (body : Z) (pkg name : string) :
  0 ≤ body →
  argsTypes !! Z.to_nat body = Some (reflect.TPtr (reflect.TStruct pkg name)) →
  body_events req argsTypes body
  = match ReadEntity req (New (reflect.TStruct pkg name)) with
    | inl e => [Log (ERROR, BodyRead e)]
    | inr ni => [Store body ni]
    end.
Proof.
  intros Hb Ht. unfold body_events.
  assert (0 ≤ body < len argsTypes) as Hr.
  { apply lookup_lt_Some in Ht. unfold len. lia. }
  replace ((0 <=? body) && (body <? len argsTypes)) with true by lia.
  destruct (index_Some argsTypes body Hr) as [t [-> Ht']]. simplify_eq.
  cbn [unwrapped].
  rewrite decide_False; last first.
  { intros H. by apply Type_String_slice_interface in H. }
  rewrite decide_False; last first.
  { intros H. by apply Type_String_interface in H. }
  done.
Qed.

(** C5 (amended): for a body-mapped slot of type pointer to a
    structured type, a body that decodes leaves the decoded instance in
    the slot; when decoding fails the failure is logged and the slot
    keeps the zero value of its declared type, the nil pointer.  In both
    cases the header pass runs afterwards and every header-mapped slot of
    String kind holds its header value. *)
Theorem C5_body_pointer_slot (ρ : range_order) (req : RestServerRequest)
    (argsTypes : list reflect.Type_) (methodConfig : RestMethodConfig)
    (pkg name : string) :
  range_valid ρ →
  0 ≤ Body methodConfig →
  argsTypes !! Z.to_nat (Body methodConfig)
  = Some (reflect.TPtr (reflect.TStruct pkg name)) →
  ∃ args log,
    getArgsFromRequest ρ req argsTypes methodConfig = Some (args, log)
    ∧ match ReadEntity req (New (reflect.TStruct pkg name)) with
      | inr ni => args !! Z.to_nat (Body methodConfig) = Some ni
      | inl e =>
          args !! Z.to_nat (Body methodConfig)
          = Some (VNilPtr (reflect.TStruct pkg name))
          ∧ (ERROR, BodyRead e) ∈ log
      end
    ∧ ∀ k v t,
        HeadersMap methodConfig !! k = Some v → 0 ≤ k →
        argsTypes !! Z.to_nat k = Some t →
        reflect.Type_Kind (unwrapped t) = reflect.String →
        args !! Z.to_nat k = Some (VString (HeaderParameter req v)).
Proof.
  intros Hρ Hb Ht.
  destruct (typed_result ρ req argsTypes methodConfig) as (args & Hrun & _ & Hslot).
  exists args, (logs (typed_events ρ req argsTypes methodConfig)).
  split; [exact Hrun|]. split.
  - rewrite (Hslot _ _ Ht). unfold typed_events.
    rewrite !last_store_app, !logs_app.
    rewrite (header_untouched req argsTypes _ _ _ Ht) by done.
    rewrite (body_events_struct_pointer req argsTypes _ pkg name) by done.
    rewrite (path_untouched req argsTypes _ _ _ Ht) by done.
    rewrite (query_untouched req argsTypes _ _ _ Ht) by done.
    destruct (ReadEntity req _) as [e|ni]; cbn.
    + split; [done|]. rewrite !elem_of_app. right. right. by left.
    + by rewrite decide_True.
  - intros k v t Hv Hk Hkt Hkind. rewrite (Hslot _ _ Hkt).
    unfold typed_events. rewrite !app_assoc, last_store_app.
    rewrite (header_accepted req argsTypes _ k v t); try done.
    + by apply range_NoDup.
    + by apply range_elem_of.
    + apply lookup_lt_Some in Hkt. unfold len. lia.
Qed.

Lemma C5_body_pointer_slot_witness :
  let ann := VPtr user (VStruct "main" "User" [("Name", VString "Ann")]) in
  let req := request ∅ ∅ {["X-Token" := "tok"]} (λ _, inr ann) in
  let methodConfig := config ∅ ∅ {[1 := "X-Token"]} 0 in
  let argsTypes := [reflect.TPtr user; reflect.TString] in
  range_valid ascending
  ∧ 0 ≤ Body methodConfig
  ∧ argsTypes !! Z.to_nat (Body methodConfig) = Some (reflect.TPtr user)
  ∧ ∃ args log,
      getArgsFromRequest ascending req argsTypes methodConfig = Some (args, log)
      ∧ args !! 0%nat = Some ann
      ∧ ∀ k v t,
          HeadersMap methodConfig !! k = Some v → 0 ≤ k →
          argsTypes !! Z.to_nat k = Some t →
          reflect.Type_Kind (unwrapped t) = reflect.String →
          args !! Z.to_nat k = Some (VString (HeaderParameter req v)).
Proof.
  intros ann req methodConfig argsTypes.
  assert (0 ≤ Body methodConfig) as Hb by (cbn; lia).
  split; [exact ascending_valid|]. split; [exact Hb|].
  split; [reflexivity|].
  exact (C5_body_pointer_slot ascending req argsTypes methodConfig
           "main" "User" ascending_valid Hb eq_refl).
Defined.

(** *** Indices out of range *)

(** With a body index that is negative, or at least the number of
    declared arguments, the typed binder logs nothing about the body. *)
Lemma C2_body_index_out_of_range_not_reported :
  getArgsFromRequest ascending (request ∅ ∅ ∅ no_entity) [reflect.TString]
    (config ∅ ∅ ∅ (-1))
  = Some ([VString EmptyString], [])
  ∧ getArgsFromRequest ascending (request ∅ ∅ ∅ no_entity) [reflect.TString]
      (config ∅ ∅ ∅ 5)
    = Some ([VString EmptyString], []).
Proof. split; vm_compute; reflexivity. Qed.

Lemma stores_app (evs1 evs2 : list event) :
  stores (evs1 ++ evs2) = stores evs1 ++ stores evs2.
Proof. apply omap_app. Qed.

Lemma header_in_range_only req argsTypes (l : list (Z * string)) :
  stores (header_events req argsTypes
            (filter (λ kv, 0 ≤ kv.1 < len argsTypes) l))
  = stores (header_events req argsTypes l).
Proof.
  induction l as [|[k v] l IH]; [done|].
  destruct (decide (0 ≤ k < len argsTypes)) as [Hin|Hout].
  - rewrite filter_cons_True by done. unfold header_events, stores in *.
    cbn [fmap list_fmap omap list_omap]. by rewrite IH.
  - rewrite filter_cons_False by done. rewrite IH.
    unfold header_events, stores. cbn [fmap list_fmap omap list_omap].
    apply out_of_range_true in Hout. unfold header_event. by rewrite Hout.
Qed.

Lemma body_events_out_of_range req argsTypes (body : Z) :
  ¬ 0 ≤ body < len argsTypes → body_events req argsTypes body = [].
Proof.
  intros Hb. unfold body_events.
  by replace ((0 <=? body) && (body <? len argsTypes)) with false by lia.
Qed.

Lemma verdicts_logs argsTypes coerce missing kindmsg parsemsg l ep (e : entry) :
  Log e ∈ (verdicts argsTypes coerce missing kindmsg parsemsg l ep).1 →
  (∃ k, e = missing k) ∨ (∃ k, e = kindmsg k) ∨ (∃ x, e = parsemsg x).
Proof.
  revert ep. induction l as [|[k v] l IH]; intros ep; cbn [verdicts].
  - by intros ?%elem_of_nil.
  - destruct (verdict argsTypes coerce missing kindmsg parsemsg (k, v) ep)
      as [ev ep1] eqn:Hv.
    specialize (IH ep1).
    destruct (verdicts argsTypes coerce missing kindmsg parsemsg l ep1)
      as [evs ep2]. cbn in *.
    intros [Heq|Hin]%elem_of_cons; [|by apply IH]. subst ev.
    unfold verdict in Hv.
    destruct (out_of_range _ k); [left; exists k; congruence|].
    destruct (index argsTypes k); [|left; exists k; congruence].
    destruct (coerce _ _ _ _) as [[[x|] p]|].
    + right. right. exists x. congruence.
    + done.
    + right. left. exists k. congruence.
Qed.

Lemma header_logs req argsTypes l (e : entry) :
  Log e ∈ header_events req argsTypes l →
  ∃ k, e = (ERROR, HeaderArgMissing k) ∨ e = (ERROR, HeaderArgKind k).
Proof.
  unfold header_events. intros [[k v] [Hev _]]%list_elem_of_fmap.
  exists k. unfold header_event in Hev.
  destruct (out_of_range _ k); [left; congruence|].
  destruct (index argsTypes k); [|left; congruence].
  case_decide; [done|right; congruence].
Qed.

(** C2 (amended): an index of the path, query or header mapping that
    is negative or not below the number of declared arguments is never
    used to index the argument list (the binder returns, with a list of
    the declared length), is logged as an error, and has no other effect:
    the list is the one of a run that skips those entries.  A body index
    that is out of range is never used to index the list either, and the
    list is the one for a configuration without body index; a negative
    body index stands for "no body" and nothing is logged about it. *)
Theorem C2_out_of_range_indices (ρ : range_order) (req : RestServerRequest)
    (argsTypes : list reflect.Type_) (methodConfig : RestMethodConfig) :
  range_valid ρ →
  ∃ args log,
    getArgsFromRequest ρ req argsTypes methodConfig = Some (args, log)
    ∧ length args = length argsTypes
    ∧ (∀ k v, ¬ 0 ≤ k < len argsTypes →
         (PathParamsMap methodConfig !! k = Some v →
            (ERROR, PathArgMissing k) ∈ log)
         ∧ (QueryParamsMap methodConfig !! k = Some v →
            (ERROR, QueryArgMissing k) ∈ log)
         ∧ (HeadersMap methodConfig !! k = Some v →
            (ERROR, HeaderArgMissing k) ∈ log))
    ∧ fst <$> getArgsFromRequest (in_range_only (len argsTypes) ρ) req
                argsTypes methodConfig = Some args
    ∧ (¬ 0 ≤ Body methodConfig < len argsTypes →
         fst <$> getArgsFromRequest ρ req argsTypes (without_body methodConfig)
         = Some args)
    ∧ (Body methodConfig < 0 → ∀ e, (ERROR, BodyRead e) ∉ log).
Proof.
  intros Hρ.
  destruct (typed_result ρ req argsTypes methodConfig) as (args & Hrun & Hlen & _).
  assert (args = (replay (typed_events ρ req argsTypes methodConfig)
                    (Zero <$> argsTypes, [])).1) as Hargs.
  { rewrite getArgsFromRequest_replay in Hrun. injection Hrun as Hrun.
    by rewrite Hrun. }
  exists args, (logs (typed_events ρ req argsTypes methodConfig)).
  split; [exact Hrun|]. split; [exact Hlen|]. split; [|split; [|split]].
  - intros k v Hk. unfold typed_events. rewrite !logs_app, !elem_of_app.
    split; [|split]; intros Hv.
    + left. apply elem_of_logs. unfold path_events.
      apply (verdicts_missing argsTypes (path_coerce req)
               (λ k, (ERROR, PathArgMissing k)) _ _ _ _ k v); [|done].
      by apply range_elem_of.
    + right. left. apply elem_of_logs. unfold query_events.
      apply (verdicts_missing argsTypes (query_coerce req)
               (λ k, (ERROR, QueryArgMissing k)) _ _ _ _ k v); [|done].
      by apply range_elem_of.
    + right. right. right. apply elem_of_logs.
      apply (header_missing _ _ _ k v); [|done]. by apply range_elem_of.
  - rewrite Hargs, getArgsFromRequest_replay.
    cbn [fmap option_fmap option_map]. f_equal. apply replay_stores.
    unfold typed_events, in_range_only. rewrite !stores_app.
    f_equal; [|f_equal; [|f_equal]].
    + unfold path_events. apply verdicts_in_range_only.
    + unfold query_events. apply verdicts_in_range_only.
    + apply header_in_range_only.
  - intros Hb. rewrite Hargs, getArgsFromRequest_replay.
    cbn [fmap option_fmap option_map]. f_equal. unfold typed_events.
    cbn [PathParamsMap QueryParamsMap HeadersMap Body without_body].
    rewrite (body_events_out_of_range req argsTypes (-1))
      by (pose proof (len_nonneg argsTypes); lia).
    by rewrite (body_events_out_of_range req argsTypes (Body methodConfig)).
  - intros Hb e. unfold typed_events. rewrite !logs_app, !elem_of_app.
    rewrite (body_events_out_of_range req argsTypes (Body methodConfig))
      by lia.
    intros [H|[H|[H|H]]].
    + apply elem_of_logs, verdicts_logs in H as [[? ?]|[[? ?]|[? ?]]]; done.
    + apply elem_of_logs, verdicts_logs in H as [[? ?]|[[? ?]|[? ?]]]; done.
    + by apply elem_of_nil in H.
    + apply elem_of_logs, header_logs in H as [? [?|?]]; done.
Qed.

Lemma C2_out_of_range_indices_witness :
  let req := request {["id" := ["7"]]} ∅ ∅ no_entity in
  let methodConfig := config {[0 := "id"; 3 := "id"]} ∅ {[-1 := "X"]} 9 in
  let argsTypes := [reflect.TInt] in
  range_valid descending
  ∧ ∃ args log,
      getArgsFromRequest descending req argsTypes methodConfig = Some (args, log)
      ∧ length args = length argsTypes
      ∧ (∀ k v, ¬ 0 ≤ k < len argsTypes →
           (PathParamsMap methodConfig !! k = Some v →
              (ERROR, PathArgMissing k) ∈ log)
           ∧ (QueryParamsMap methodConfig !! k = Some v →
              (ERROR, QueryArgMissing k) ∈ log)
           ∧ (HeadersMap methodConfig !! k = Some v →
              (ERROR, HeaderArgMissing k) ∈ log))
      ∧ fst <$> getArgsFromRequest (in_range_only (len argsTypes) descending)
                  req argsTypes methodConfig = Some args
      ∧ (¬ 0 ≤ Body methodConfig < len argsTypes →
           fst <$> getArgsFromRequest descending req argsTypes
                     (without_body methodConfig) = Some args)
      ∧ (Body methodConfig < 0 → ∀ e, (ERROR, BodyRead e) ∉ log).
Proof.
  intros req methodConfig argsTypes.
  split; [exact descending_valid|].
  exact (C2_out_of_range_indices descending req argsTypes methodConfig
           descending_valid).
Defined.

Example out_of_range_run :
  getArgsFromRequest descending (request {["id" := ["7"]]} ∅ ∅ no_entity)
    [reflect.TInt] (config {[0 := "id"; 3 := "id"]} ∅ {[-1 := "X"]} 9)
  = Some ([VInt 7],
          [(ERROR, PathArgMissing 3); (ERROR, HeaderArgMissing (-1))]).
Proof. vm_compute. reflexivity. Qed.

(** *** Pointer-wrapped slots *)

(** C1 (the code departs from it): a path-mapped slot of type [*string]
    and a query-mapped slot of type [*int32] are both rejected, although
    the values "42" and "7" are well-formed for the unwrapped kinds: the
    passes test the kind taken before the pointer is removed. *)
Theorem C1_pointer_wrapped_slots_rejected :
  getArgsFromRequest ascending
    (request {["id" := ["42"]]} {["n" := ["7"]]} ∅ no_entity)
    [reflect.TPtr reflect.TString; reflect.TPtr reflect.TInt32]
    (config {[0 := "id"]} {[1 := "n"]} ∅ (-1))
  = Some ([VNilPtr reflect.TString; VNilPtr reflect.TInt32],
          [(WARN, PathArgKind 0); (ERROR, QueryArgKind 1)]).
Proof. vm_compute. reflexivity. Qed.

(** The same holds for every pointer-wrapped slot, every request and
    every mapping: the path and the query pass never write it. *)
Theorem pointer_wrapped_slot_untouched (ρ : range_order)
    (req : RestServerRequest) (argsTypes : list reflect.Type_)
    (methodConfig : RestMethodConfig) (s : list value * list entry)
    (i : nat) (elem : reflect.Type_) :
  length s.1 = length argsTypes →
  argsTypes !! i = Some (reflect.TPtr elem) →
  (∃ s', assembleArgsFromPathParams ρ methodConfig (len argsTypes) argsTypes
           req s = Some s' ∧ s'.1 !! i = s.1 !! i)
  ∧ (∃ s', assembleArgsFromQueryParams ρ methodConfig (len argsTypes)
             argsTypes req s = Some s' ∧ s'.1 !! i = s.1 !! i).
Proof.
  intros Hlen Ht. split.
  - rewrite path_pass_replay by done. eexists. split; [done|].
    rewrite replay_lookup. by rewrite (path_untouched _ _ _ _ _ Ht).
  - rewrite query_pass_replay by done. eexists. split; [done|].
    rewrite replay_lookup. by rewrite (query_untouched _ _ _ _ _ Ht).
Qed.

(** The header pass does test the kind after removing the pointer. *)
Example header_pointer_wrapped_slot :
  getArgsFromRequest ascending (request ∅ ∅ {["X-Id" := "42"]} no_entity)
    [reflect.TPtr reflect.TString] (config ∅ ∅ {[0 := "X-Id"]} (-1))
  = Some ([VString "42"], []).
Proof. vm_compute. reflexivity. Qed.

(** *** Parse failures *)

(** C7 (the code departs from it): when the loop of the query pass
    visits the Int32 slot with value "abc" before the String slot, the
    String slot is not bound although its value "hello" is present:
    [err] still holds the parse error of the earlier iteration. *)
Theorem C7_parse_failure_blocks_later_string_slot :
  ascending QueryLoop _ (QueryParamsMap two_query_slots) = [(0, "n"); (1, "s")]
  ∧ getArgsFromRequest ascending bad_number
      [reflect.TInt32; reflect.TString] two_query_slots
    = Some ([VInt32 0; VString EmptyString], [abc_error; abc_error]).
Proof. split; vm_compute; reflexivity. Qed.

(** *** Determinism *)

(** C8 (the code departs from it): two runs of the typed binder on the
    same request, signature and mapping yield different argument lists
    when their loops visit the query mapping in different orders. *)
Theorem C8_typed_binding_depends_on_visiting_order :
  range_valid ascending ∧ range_valid descending
  ∧ getArgsFromRequest ascending bad_number
      [reflect.TInt32; reflect.TString] two_query_slots
    = Some ([VInt32 0; VString EmptyString], [abc_error; abc_error])
  ∧ getArgsFromRequest descending bad_number
      [reflect.TInt32; reflect.TString] two_query_slots
    = Some ([VInt32 0; VString "hello"], [abc_error]).
Proof.
  split; [exact ascending_valid|]. split; [exact descending_valid|].
  split; vm_compute; reflexivity.
Qed.

(** X4: the generic binder does not depend on the visiting order: for
    any two orders in which Go may visit the maps, it returns the same
    list and log, or panics for both. *)
Theorem generic_binding_deterministic (ρ ρ' : range_order)
    (req : RestServerRequest) (methodConfig : RestMethodConfig) :
  range_valid ρ → range_valid ρ' →
  getArgsInterfaceFromRequest ρ req methodConfig
  = getArgsInterfaceFromRequest ρ' req methodConfig.
Proof.
  intros Hρ Hρ'. by rewrite !getArgsInterfaceFromRequest_closed.
Qed.

(** *** The generic convention *)

(** C9: with no index in the path, query and header mappings and no
    body index, the generic binder returns the list of length one that
    holds the nil interface value. *)
Theorem C9_generic_without_indices (ρ : range_order)
    (req : RestServerRequest) (methodConfig : RestMethodConfig) :
  range_valid ρ →
  PathParamsMap methodConfig = ∅ →
  QueryParamsMap methodConfig = ∅ →
  HeadersMap methodConfig = ∅ →
  Body methodConfig < 0 →
  getArgsInterfaceFromRequest ρ req methodConfig = Some ([VNil], []).
Proof.
  intros Hρ Hp Hq Hh Hb. unfold getArgsInterfaceFromRequest.
  rewrite Hp, Hq, Hh, !(range_empty ρ Hρ). cbn [for_range mbind option_bind].
  replace (0 <=? Body methodConfig) with false by lia.
  rewrite (range_empty ρ Hρ). reflexivity.
Qed.

Lemma C9_generic_without_indices_witness :
  let req := request {["id" := ["7"]]} ∅ ∅ no_entity in
  let methodConfig := config ∅ ∅ ∅ (-1) in
  range_valid descending
  ∧ Body methodConfig < 0
  ∧ getArgsInterfaceFromRequest descending req methodConfig
    = Some ([VNil], []).
Proof.
  intros req methodConfig.
  assert (Body methodConfig < 0) as Hb by (cbn; lia).
  split; [exact descending_valid|]. split; [exact Hb|].
  exact (C9_generic_without_indices descending req methodConfig
           descending_valid eq_refl eq_refl eq_refl Hb).
Defined.

(** *** Negative indices in the generic convention *)

Lemma lookup_filter_nonneg {V} (m : gmap Z V) (k : Z) :
  0 ≤ k → filter nonneg m !! k = m !! k.
Proof.
  intros Hk. apply option_eq. intros x.
  rewrite map_lookup_filter_Some. unfold nonneg. cbn. tauto.
Qed.

Lemma upper_filter_nonneg {V} (M : Z) (m : gmap Z V) :
  0 ≤ M → upper M (keys (filter nonneg m)) = upper M (keys m).
Proof.
  intros HM. apply upper_same_elements. intros k Hk.
  rewrite !elem_of_keys, lookup_filter_nonneg by lia. done.
Qed.

Lemma upper_nonneg (M : Z) (ks : list Z) : 0 ≤ M → 0 ≤ upper M ks.
Proof. intros HM. destruct (upper_spec M ks) as [? _]. lia. Qed.

Lemma fill_agree (n : Z) (am am' : gmap Z value) :
  (∀ k, 0 ≤ k → am !! k = am' !! k) → fill n am = fill n am'.
Proof.
  intros Hagree. unfold fill.
  assert (map_Forall (λ k _, 0 ≤ k → k < n) am
          ↔ map_Forall (λ k _, 0 ≤ k → k < n) am') as Hiff.
  { unfold map_Forall. split; intros H k x Hx Hk; apply (H k x); try done.
    - by rewrite Hagree.
    - by rewrite <- Hagree. }
  destruct (decide ((0 ≤ n ∧ n * interfaceSize ≤ maxAlloc)
                    ∧ map_Forall (λ k _, 0 ≤ k → k < n) am)) as [H|H].
  - rewrite decide_True by (by rewrite <- Hiff). f_equal.
    apply imap_ext. intros i x _. rewrite Hagree by lia. done.
  - rewrite decide_False by (by rewrite <- Hiff). done.
Qed.

Lemma generic_maxKey_nonneg_part (methodConfig : RestMethodConfig) :
  generic_maxKey (nonneg_part methodConfig) = generic_maxKey methodConfig.
Proof.
  unfold generic_maxKey. cbn [PathParamsMap QueryParamsMap HeadersMap Body nonneg_part].
  rewrite !upper_filter_nonneg by (repeat apply upper_nonneg; done).
  destruct (Z.leb_spec 0 (Body methodConfig)) as [Hb|Hb].
  - by replace (0 <=? Body methodConfig) with true by lia.
  - done.
Qed.

Lemma generic_argsMap_nonneg_part req (methodConfig : RestMethodConfig) (k : Z) :
  0 ≤ k →
  generic_argsMap req (nonneg_part methodConfig) !! k
  = generic_argsMap req methodConfig !! k.
Proof.
  intros Hk. unfold generic_argsMap.
  cbn [PathParamsMap QueryParamsMap HeadersMap Body nonneg_part].
  assert (∀ f g h : string → value,
    (((f <$> filter nonneg (HeadersMap methodConfig))
      ∪ ((g <$> filter nonneg (QueryParamsMap methodConfig))
         ∪ (h <$> filter nonneg (PathParamsMap methodConfig)))) : gmap Z value) !! k
    = (((f <$> HeadersMap methodConfig)
        ∪ ((g <$> QueryParamsMap methodConfig)
           ∪ (h <$> PathParamsMap methodConfig))) : gmap Z value) !! k) as Hu.
  { intros f g h.
    by rewrite !lookup_union, !lookup_fmap, !lookup_filter_nonneg. }
  destruct (Z.leb_spec 0 (Body methodConfig)) as [Hb|Hb].
  - replace (0 <=? Body methodConfig) with true by lia.
    destruct (ReadEntity req (VMap [])) as [e|m]; [by apply Hu|].
    destruct (decide (Body methodConfig = k)) as [->|Hne].
    + by rewrite !lookup_insert_eq.
    + rewrite !lookup_insert_ne by done. by apply Hu.
  - cbn. by apply Hu.
Qed.

Lemma generic_log_nonneg_part req (methodConfig : RestMethodConfig) :
  generic_log req (nonneg_part methodConfig) = generic_log req methodConfig.
Proof.
  unfold generic_log. cbn [Body nonneg_part].
  destruct (Z.leb_spec 0 (Body methodConfig)) as [Hb|Hb]; [|done].
  by replace (0 <=? Body methodConfig) with true by lia.
Qed.

Lemma generic_result_nonneg_part req (methodConfig : RestMethodConfig) :
  generic_result req (nonneg_part methodConfig)
  = generic_result req methodConfig.
Proof.
  unfold generic_result.
  rewrite generic_maxKey_nonneg_part, generic_log_nonneg_part.
  rewrite (fill_agree _ (generic_argsMap req (nonneg_part methodConfig))
             (generic_argsMap req methodConfig)); [done|].
  intros k Hk. by apply generic_argsMap_nonneg_part.
Qed.

Lemma wrap_small (z : Z) : - 2 ^ 63 ≤ z < 2 ^ 63 → wrap IntSize z = z.
Proof.
  intros Hz. unfold wrap, IntSize.
  change (2 ^ (64 - 1)) with (2 ^ 63). change (2 ^ 64) with (2 * 2 ^ 63).
  rewrite Z.mod_small by lia. lia.
Qed.

Lemma interfaceSize_eq : interfaceSize = 16.
Proof. reflexivity. Qed.

Lemma MaxLen_eq : MaxLen = 2 ^ 44.
Proof. reflexivity. Qed.

Lemma make_is_Some (held n : Z) :
  is_Some (make held n) ↔ 0 ≤ n ∧ (n ≤ MaxLen ∨ n ≤ held).
Proof.
  unfold make. rewrite MaxLen_eq, interfaceSize_eq. unfold maxAlloc.
  case_decide as Hn.
  - split; [intros _; lia|by eauto].
  - split; [by intros [? ?]|]. intros Hn'. exfalso. apply Hn. lia.
Qed.

(** The length [M+1] that [make] is asked for: allocated for [M] below
    [MaxLen], refused (past [maxAlloc], or wrapped around to a negative
    number) from [MaxLen] on. *)
Lemma make_length_small (M : Z) :
  0 ≤ M < MaxLen →
  wrap IntSize (M + 1) = M + 1
  ∧ 0 ≤ M + 1 ∧ (M + 1) * interfaceSize ≤ maxAlloc.
Proof.
  rewrite MaxLen_eq, interfaceSize_eq. unfold maxAlloc. intros HM.
  rewrite wrap_small by lia. lia.
Qed.

Lemma make_length_large (M : Z) :
  MaxLen ≤ M ≤ MaxInt →
  ¬ (0 ≤ wrap IntSize (M + 1)
     ∧ wrap IntSize (M + 1) * interfaceSize ≤ maxAlloc).
Proof.
  rewrite MaxLen_eq, interfaceSize_eq. unfold maxAlloc, MaxInt, IntSize.
  intros HM. destruct (decide (M = 2 ^ (64 - 1) - 1)) as [->|Hne].
  - intros [Hneg _]. by vm_compute in Hneg.
  - rewrite wrap_small by lia. lia.
Qed.

Lemma generic_maxKey_spec (methodConfig : RestMethodConfig) :
  0 ≤ generic_maxKey methodConfig
  ∧ (∀ k, referenced methodConfig k → k ≤ generic_maxKey methodConfig)
  ∧ (generic_maxKey methodConfig = 0
     ∨ referenced methodConfig (generic_maxKey methodConfig)).
Proof.
  unfold generic_maxKey, referenced.
  set (M1 := upper 0 (keys (PathParamsMap methodConfig))).
  set (M2 := upper M1 (keys (QueryParamsMap methodConfig))).
  set (M3 := upper M2 (keys (HeadersMap methodConfig))).
  destruct (upper_spec 0 (keys (PathParamsMap methodConfig))) as (A1 & A2 & A3).
  destruct (upper_spec M1 (keys (QueryParamsMap methodConfig))) as (B1 & B2 & B3).
  destruct (upper_spec M2 (keys (HeadersMap methodConfig))) as (C1 & C2 & C3).
  fold M1 in A1, A2, A3, B1, B2, B3. fold M2 in B1, B2, B3, C1, C2, C3.
  fold M3 in C1, C2, C3.
  rewrite Forall_forall in A2, B2, C2.
  assert (∀ k, k ∈ keys (PathParamsMap methodConfig)
               ∨ k ∈ keys (QueryParamsMap methodConfig)
               ∨ k ∈ keys (HeadersMap methodConfig) → k ≤ M3) as Hle.
  { intros k [H|[H|H]]; [apply A2 in H|apply B2 in H|apply C2 in H]; lia. }
  assert (M3 = 0 ∨ M3 ∈ keys (PathParamsMap methodConfig)
          ∨ M3 ∈ keys (QueryParamsMap methodConfig)
          ∨ M3 ∈ keys (HeadersMap methodConfig)) as Hin.
  { destruct C3 as [->|?]; [|auto].
    destruct B3 as [->|?]; [|auto].
    destruct A3 as [->|?]; auto. }
  destruct (Z.leb_spec 0 (Body methodConfig)) as [Hb|Hb].
  - split; [lia|]. split.
    + intros k [H|[H|[H|[-> _]]]]; [| | |lia];
        (etrans; [apply Hle; auto|lia]).
    + destruct (Z.max_spec M3 (Body methodConfig)) as [[_ ->]|[_ ->]].
      * right. auto.
      * destruct Hin as [?|[?|[?|?]]]; auto.
  - split; [lia|]. split.
    + intros k [H|[H|[H|[-> ?]]]]; [| | |lia]; apply Hle; auto.
    + destruct Hin as [?|[?|[?|?]]]; auto.
Qed.

Lemma generic_argsMap_referenced req (methodConfig : RestMethodConfig) k x :
  generic_argsMap req methodConfig !! k = Some x → referenced methodConfig k.
Proof.
  unfold generic_argsMap, referenced.
  assert (∀ f g h : string → value,
    (((f <$> HeadersMap methodConfig)
      ∪ ((g <$> QueryParamsMap methodConfig)
         ∪ (h <$> PathParamsMap methodConfig))) : gmap Z value) !! k = Some x →
    k ∈ keys (PathParamsMap methodConfig)
    ∨ k ∈ keys (QueryParamsMap methodConfig)
    ∨ k ∈ keys (HeadersMap methodConfig)) as Hu.
  { intros f g h. rewrite !elem_of_keys.
    intros [H|[_ [H|[_ H]]%lookup_union_Some_raw]]%lookup_union_Some_raw;
      rewrite lookup_fmap in H;
      destruct (_ !! k) eqn:E in H; try done; rewrite E; eauto. }
  destruct (Z.leb_spec 0 (Body methodConfig)) as [Hb|Hb].
  - destruct (ReadEntity req (VMap [])) as [e|m].
    + intros H. apply Hu in H. tauto.
    + destruct (decide (Body methodConfig = k)) as [<-|Hne]; [auto|].
      rewrite lookup_insert_ne by done. intros H. apply Hu in H. tauto.
  - intros H. apply Hu in H. tauto.
Qed.

(** C10: in the generic convention negative indices are inert.  The
    run is the one for the configuration without them, whatever order the
    loops visit the mappings in: they add no slot and no value to the
    list.  When the indices referenced are below the largest length that
    [make] allocates the binder returns, so no write is out of bounds; the
    list has one slot more than the largest index that is not negative,
    and the only thing ever logged is a failure to read the body for a
    body index that is not negative. *)
Theorem C10_generic_negative_indices (ρ ρ' : range_order)
    (req : RestServerRequest) (methodConfig : RestMethodConfig) :
  range_valid ρ → range_valid ρ' →
  getArgsInterfaceFromRequest ρ req methodConfig
  = getArgsInterfaceFromRequest ρ' req (nonneg_part methodConfig)
  ∧ ((∀ k, referenced methodConfig k → k < MaxLen) →
     ∃ args log,
       getArgsInterfaceFromRequest ρ req methodConfig = Some (args, log)
       ∧ len args = generic_maxKey (nonneg_part methodConfig) + 1
       ∧ ∀ e, e ∈ log →
           ∃ x, e = (WARN, BodyReadAsMap x) ∧ 0 ≤ Body methodConfig).
Proof.
  intros Hρ Hρ'. rewrite !getArgsInterfaceFromRequest_closed by done.
  split; [by rewrite generic_result_nonneg_part|].
  intros Hbound. rewrite generic_maxKey_nonneg_part.
  destruct (generic_maxKey_spec methodConfig) as (H0 & Hle & Hin).
  assert (generic_maxKey methodConfig < MaxLen) as Hmax.
  { destruct Hin as [->|Hin]; [done|]. by apply Hbound. }
  destruct (make_length_small (generic_maxKey methodConfig))
    as [Hw Halloc]; [lia|].
  unfold generic_result, fill. rewrite Hw.
  rewrite decide_True; last first.
  { split; [exact Halloc|]. intros k x Hx _.
    apply generic_argsMap_referenced, Hle in Hx. lia. }
  cbn [mbind option_bind]. eexists _, _. split; [done|]. split.
  - unfold len. rewrite length_imap, length_replicate. lia.
  - intros e. unfold generic_log.
    destruct (Z.leb_spec 0 (Body methodConfig)) as [Hb|Hb].
    + destruct (ReadEntity req (VMap [])) as [x|m].
      * intros ->%list_elem_of_singleton. eauto.
      * by intros ?%elem_of_nil.
    + by intros ?%elem_of_nil.
Qed.

Lemma C10_generic_negative_indices_witness :
  let req := request {["id" := ["7"]]} {["tag" := ["x"]]}
               {["X-Id" := "h"]} no_entity in
  let methodConfig :=
    config {[0 := "id"; -4 := "id"]} {[2 := "tag"; -1 := "tag"]}
      {[-9 := "X-Id"]} (-2) in
  range_valid ascending ∧ range_valid descending
  ∧ (∀ k, referenced methodConfig k → k < MaxLen)
  ∧ getArgsInterfaceFromRequest ascending req methodConfig
    = getArgsInterfaceFromRequest descending req (nonneg_part methodConfig)
  ∧ ∃ args log,
      getArgsInterfaceFromRequest ascending req methodConfig = Some (args, log)
      ∧ len args = generic_maxKey (nonneg_part methodConfig) + 1
      ∧ ∀ e, e ∈ log →
          ∃ x, e = (WARN, BodyReadAsMap x) ∧ 0 ≤ Body methodConfig.
Proof.
  intros req methodConfig.
  assert (∀ k, referenced methodConfig k → k < MaxLen) as Hbound.
  { intros k. unfold referenced.
    remember (keys (PathParamsMap methodConfig)) as ps eqn:Ep.
    remember (keys (QueryParamsMap methodConfig)) as qs eqn:Eq.
    remember (keys (HeadersMap methodConfig)) as hs eqn:Eh.
    vm_compute in Ep, Eq, Eh. subst ps qs hs.
    rewrite !elem_of_cons, !elem_of_nil, MaxLen_eq. cbn. lia. }
  split; [exact ascending_valid|]. split; [exact descending_valid|].
  split; [exact Hbound|].
  destruct (C10_generic_negative_indices ascending descending req
              methodConfig ascending_valid descending_valid) as [Heq Hrun].
  split; [exact Heq|exact (Hrun Hbound)].
Defined.

(** *** What does hold of a query-mapped Int32 slot *)

Lemma verdicts_failed argsTypes coerce missing kindmsg parsemsg
    (l : list (Z * string)) ep (k : Z) v t (x : error) :
  NoDup l.*1 →
  (k, v) ∈ l → 0 ≤ k < len argsTypes → argsTypes !! Z.to_nat k = Some t →
  (∀ e p, ∃ p', coerce (reflect.Type_Kind t) v e p = Some (Some x, p')) →
  last_store (verdicts argsTypes coerce missing kindmsg parsemsg l ep).1
    (Z.to_nat k) = None
  ∧ Log (parsemsg x)
    ∈ (verdicts argsTypes coerce missing kindmsg parsemsg l ep).1.
Proof.
  intros Hnd Hin Hr Ht Hc. split.
  - apply last_store_None.
    intros k' y (v' & t' & e & p & Hin' & Hr' & Ht' & Hc')%verdicts_store Hk.
    assert (k' = k) as -> by lia.
    rewrite (NoDup_fst_agree l k v' v) in Hc' by done. simplify_eq.
    destruct (Hc e p) as [p' Hp]. congruence.
  - apply out_of_range_false in Hr as Hr'. clear Hnd.
    revert ep. induction l as [|kv l IH]; intros ep.
    + by apply elem_of_nil in Hin.
    + cbn [verdicts].
      destruct (verdict argsTypes coerce missing kindmsg parsemsg kv ep)
        as [ev ep1] eqn:Hv.
      specialize (λ H, IH H ep1).
      destruct (verdicts argsTypes coerce missing kindmsg parsemsg l ep1)
        as [evs ep2]. cbn [fst] in *.
      apply elem_of_cons in Hin as [<-|Hin]; [|right; auto].
      unfold verdict in Hv. rewrite Hr' in Hv.
      destruct (index_Some argsTypes k Hr) as [t' [Hi Ht']].
      rewrite Hi in Hv. simplify_eq.
      destruct (Hc ep.1 ep.2) as [p' Hp]. rewrite Hp in Hv.
      injection Hv as <- <-. left.
Qed.

(** A query-mapped slot of kind Int32 holds the parsed value after the
    query pass when its value parses, whatever happened in earlier
    iterations; when it does not parse the slot is left as it was and the
    error is logged. *)
Theorem query_int32_slot (ρ : range_order) (req : RestServerRequest)
    (argsTypes : list reflect.Type_) (methodConfig : RestMethodConfig)
    (s : list value * list entry) (i : nat) (v : string) :
  range_valid ρ →
  length s.1 = length argsTypes →
  argsTypes !! i = Some reflect.TInt32 →
  QueryParamsMap methodConfig !! Z.of_nat i = Some v →
  ∃ args' log',
    assembleArgsFromQueryParams ρ methodConfig (len argsTypes) argsTypes req s
    = Some (args', log')
    ∧ match strconv.ParseInt (QueryParameter req v) 32 with
      | (n, None) => args' !! i = Some (VInt32 (wrap 32 n))
      | (_, Some e) =>
          args' !! i = s.1 !! i ∧ (ERROR, QueryParse (NumErr e)) ∈ log'
      end.
Proof.
  intros Hρ Hlen Ht Hv. rewrite query_pass_replay by done.
  set (l := ρ QueryLoop _ (QueryParamsMap methodConfig)).
  exists (replay (query_events req argsTypes l) s).1,
         (replay (query_events req argsTypes l) s).2.
  split; [by destruct (replay _ s)|].
  assert (NoDup l.*1) as Hnd by (by apply range_NoDup).
  assert ((Z.of_nat i, v) ∈ l) as Hin by (by apply range_elem_of).
  assert (0 ≤ Z.of_nat i < len argsTypes) as Hr.
  { apply lookup_lt_Some in Ht. unfold len. lia. }
  assert (argsTypes !! Z.to_nat (Z.of_nat i) = Some reflect.TInt32) as Ht'
    by (by rewrite Nat2Z.id).
  rewrite replay_lookup, replay_logs. unfold query_events.
  destruct (strconv.ParseInt (QueryParameter req v) 32) as [n [e|]] eqn:Hp.
  - destruct (verdicts_failed argsTypes (query_coerce req)
                (λ k, (ERROR, QueryArgMissing k)) (λ k, (ERROR, QueryArgKind k))
                (λ e, (ERROR, QueryParse e)) l (None, VNil) (Z.of_nat i) v
                reflect.TInt32 (NumErr e) Hnd Hin Hr Ht') as [Hnone Hlog].
    { intros e' p. exists p. cbn. by rewrite Hp. }
    rewrite Nat2Z.id in Hnone. rewrite Hnone. split; [done|].
    apply elem_of_app. right. by apply elem_of_logs.
  - pose proof (verdicts_accepted argsTypes (query_coerce req)
                  (λ k, (ERROR, QueryArgMissing k)) (λ k, (ERROR, QueryArgKind k))
                  (λ e, (ERROR, QueryParse e)) l (None, VNil) (Z.of_nat i) v
                  reflect.TInt32 (VInt32 (wrap 32 n)) Hnd Hin Hr Ht') as Hsome.
    rewrite Nat2Z.id in Hsome. rewrite Hsome.
    + rewrite decide_True; [done|]. rewrite Hlen. by apply lookup_lt_Some in Ht.
    + intros e' p. cbn. by rewrite Hp.
Qed.

Example query_int32_max :
  getArgsFromRequest descending
    (request ∅ (list_to_map [("n", ["2147483647"]); ("s", ["hello"])]) ∅ no_entity)
    [reflect.TInt32; reflect.TString] two_query_slots
  = Some ([VInt32 2147483647; VString "hello"], []).
Proof. vm_compute. reflexivity. Qed.

(** A slot that the path and the header mapping both target ends with
    the header value: the header pass is the last one. *)
Example header_overwrites_path :
  getArgsFromRequest ascending
    (request {["id" := ["from-path"]]} ∅ {["X-Id" := "from-header"]} no_entity)
    [reflect.TString] (config {[0 := "id"]} ∅ {[0 := "X-Id"]} (-1))
  = Some ([VString "from-header"], []).
Proof. vm_compute. reflexivity. Qed.

(** *** Where the typed binder does not depend on the visiting order *)

Lemma last_store_perm (evs evs' : list event) (i : nat) :
  evs ≡ₚ evs' →
  (∀ k x k' x', Store k x ∈ evs → Store k' x' ∈ evs →
                Z.to_nat k = Z.to_nat k' → x = x') →
  last_store evs i = last_store evs' i.
Proof.
  intros Hp Huniq. destruct (last_store evs i) as [y|] eqn:E.
  - apply last_store_Some in E as [k [Hin <-]]. symmetry.
    apply last_store_unique; [by rewrite <- Hp|].
    intros k' x' Hin' Hk. rewrite <- Hp in Hin'. symmetry. eauto.
  - destruct (last_store evs' i) as [y'|] eqn:E'; [|done].
    apply last_store_Some in E' as [k' [Hin' <-]]. rewrite <- Hp in Hin'.
    apply last_store_elem in Hin' as [y Hy]. congruence.
Qed.

Lemma fmap_store_unique (f : Z * string → event) (l : list (Z * string)) :
  NoDup l.*1 →
  (∀ kv k x, f kv = Store k x → kv.1 = k ∧ 0 ≤ k) →
  ∀ k x k' x', Store k x ∈ f <$> l → Store k' x' ∈ f <$> l →
               Z.to_nat k = Z.to_nat k' → x = x'.
Proof.
  intros Hnd Hf k x k' x' [[k1 v1] [H1 Hin1]]%list_elem_of_fmap
    [[k2 v2] [H2 Hin2]]%list_elem_of_fmap Hk.
  symmetry in H1, H2.
  destruct (Hf _ _ _ H1) as [E1 ?], (Hf _ _ _ H2) as [E2 ?]. cbn in *.
  assert (k1 = k2) as -> by lia.
  rewrite (NoDup_fst_agree l k2 v1 v2) in H1 by done. congruence.
Qed.

Lemma header_events_perm req argsTypes (l l' : list (Z * string)) (i : nat) :
  NoDup l.*1 → l ≡ₚ l' →
  last_store (header_events req argsTypes l) i
  = last_store (header_events req argsTypes l') i.
Proof.
  intros Hnd Hp. apply last_store_perm.
  - unfold header_events. by rewrite Hp.
  - apply fmap_store_unique; [done|]. intros [k v] k' x. cbn.
    destruct (out_of_range _ k) eqn:Hr; [done|].
    apply out_of_range_false in Hr.
    destruct (index argsTypes k); [|done]. case_decide; [|done].
    intros [= <- _]. split; [done|lia].
Qed.

Section clean_coercion.

Variable argsTypes : list reflect.Type_.
Variable coerce :
  reflect.Kind → string → option error → value → option (option error * value).
Variables (missing kindmsg : Z → entry) (parsemsg : error → entry).

Local Abbreviation verdict :=
  (verdict argsTypes coerce missing kindmsg parsemsg).
Local Abbreviation verdicts :=
  (verdicts argsTypes coerce missing kindmsg parsemsg).

Local Abbreviation clean :=
  (clean argsTypes coerce missing kindmsg parsemsg).

Lemma verdicts_clean (l : list (Z * string)) (p : value) :
  Forall clean l →
  (verdicts l (None, p)).1 = (λ kv, (verdict kv (None, VNil)).1) <$> l.
Proof.
  revert p. induction l as [|kv l IH]; intros p Hclean; [done|].
  apply Forall_cons in Hclean as [Hkv Hl]. cbn [verdicts fmap list_fmap].
  destruct (Hkv p) as [He Hev].
  destruct (verdict kv (None, p)) as [ev [e1 p1]]. cbn in He, Hev. subst e1.
  specialize (IH p1 Hl).
  destruct (verdicts l (None, p1)) as [evs ep2]. cbn in *. by rewrite Hev, IH.
Qed.

Lemma verdicts_clean_perm (l l' : list (Z * string)) (p : value) (i : nat) :
  NoDup l.*1 → l ≡ₚ l' → Forall clean l →
  last_store (verdicts l (None, p)).1 i
  = last_store (verdicts l' (None, p)).1 i.
Proof.
  intros Hnd Hp Hclean.
  rewrite !verdicts_clean by (by rewrite <- ?Hp).
  apply last_store_perm; [by rewrite Hp|].
  apply fmap_store_unique; [done|].
  intros kv k x Hv.
  destruct (verdict_store argsTypes coerce missing kindmsg parsemsg
              kv (None, VNil) k x Hv) as (t & Hk & Hr & _).
  split; [done|lia].
Qed.

End clean_coercion.

Lemma path_clean req argsTypes (k : Z) (v : string) :
  (∀ t, 0 ≤ k → argsTypes !! Z.to_nat k = Some t →
        parses (reflect.Type_Kind t) (PathParameter req v)) →
  clean argsTypes (path_coerce req) (λ k, (ERROR, PathArgMissing k))
    (λ k, (WARN, PathArgKind k)) (λ e, (ERROR, PathParse e)) (k, v).
Proof.
  intros Hparse p. unfold verdict.
  destruct (out_of_range _ k) eqn:Hr; [done|].
  apply out_of_range_false in Hr.
  destruct (index argsTypes k) as [t|] eqn:Ht; [|done].
  apply index_lookup in Ht as [Ht _]. specialize (Hparse t (proj1 Hr) Ht).
  destruct (reflect.Type_Kind t); cbn in *; try done.
  - destruct (strconv.Atoi _) as [n e]. cbn in Hparse. by subst e.
  - destruct (strconv.ParseInt _ 32) as [n e]. cbn in Hparse. by subst e.
  - destruct (strconv.ParseInt _ 64) as [n e]. cbn in Hparse. by subst e.
Qed.

Lemma query_clean req argsTypes (k : Z) (v : string) :
  (∀ t, 0 ≤ k → argsTypes !! Z.to_nat k = Some t →
        parses (reflect.Type_Kind t) (QueryParameter req v)) →
  clean argsTypes (query_coerce req) (λ k, (ERROR, QueryArgMissing k))
    (λ k, (ERROR, QueryArgKind k)) (λ e, (ERROR, QueryParse e)) (k, v).
Proof.
  intros Hparse p. unfold verdict.
  destruct (out_of_range _ k) eqn:Hr; [done|].
  apply out_of_range_false in Hr.
  destruct (index argsTypes k) as [t|] eqn:Ht; [|done].
  apply index_lookup in Ht as [Ht _]. specialize (Hparse t (proj1 Hr) Ht).
  destruct (reflect.Type_Kind t); cbn in *; try done.
  - destruct (strconv.Atoi _) as [n e]. cbn in Hparse. by subst e.
  - destruct (strconv.ParseInt _ 32) as [n e]. cbn in Hparse. by subst e.
  - destruct (strconv.ParseInt _ 64) as [n e]. cbn in Hparse. by subst e.
Qed.

(** X9: when every path and query value mapped to an integer slot
    parses, the argument list of the typed binder is the same for all
    visiting orders. *)
Theorem typed_binding_deterministic_without_parse_failures
    (ρ ρ' : range_order) (req : RestServerRequest)
    (argsTypes : list reflect.Type_) (methodConfig : RestMethodConfig) :
  range_valid ρ → range_valid ρ' →
  (∀ k v t, 0 ≤ k → PathParamsMap methodConfig !! k = Some v →
            argsTypes !! Z.to_nat k = Some t →
            parses (reflect.Type_Kind t) (PathParameter req v)) →
  (∀ k v t, 0 ≤ k → QueryParamsMap methodConfig !! k = Some v →
            argsTypes !! Z.to_nat k = Some t →
            parses (reflect.Type_Kind t) (QueryParameter req v)) →
  fst <$> getArgsFromRequest ρ req argsTypes methodConfig
  = fst <$> getArgsFromRequest ρ' req argsTypes methodConfig.
Proof.
  intros Hρ Hρ' Hpath Hquery. rewrite !getArgsFromRequest_replay.
  cbn [fmap option_fmap option_map]. f_equal. rewrite !replay_overlay.
  apply imap_ext. intros i x _. f_equal. unfold typed_events.
  rewrite !last_store_app.
  assert (∀ site V (m : gmap Z V), ρ site V m ≡ₚ ρ' site V m) as Hp.
  { intros site V m. by rewrite (Hρ site V m), (Hρ' site V m). }
  rewrite (header_events_perm req argsTypes
             (ρ HeaderLoop _ (HeadersMap methodConfig))
             (ρ' HeaderLoop _ (HeadersMap methodConfig)) i);
    [|by apply range_NoDup|apply Hp].
  unfold path_events, query_events.
  rewrite (verdicts_clean_perm argsTypes (path_coerce req) _ _ _
             (ρ PathLoop _ (PathParamsMap methodConfig))
             (ρ' PathLoop _ (PathParamsMap methodConfig)) VNil i);
    [|by apply range_NoDup|apply Hp|].
  - rewrite (verdicts_clean_perm argsTypes (query_coerce req) _ _ _
               (ρ QueryLoop _ (QueryParamsMap methodConfig))
               (ρ' QueryLoop _ (QueryParamsMap methodConfig)) VNil i);
      [done|by apply range_NoDup|apply Hp|].
    apply Forall_forall. intros [k v] Hin. apply query_clean.
    intros t Hk Ht. apply (Hquery k v t); [done| |done].
    by apply (range_elem_of ρ Hρ) in Hin.
  - apply Forall_forall. intros [k v] Hin. apply path_clean.
    intros t Hk Ht. apply (Hpath k v t); [done| |done].
    by apply (range_elem_of ρ Hρ) in Hin.
Qed.

(** ** Further properties of the generic binder *)

Lemma generic_argsMap_slot req (methodConfig : RestMethodConfig) (k : Z) :
  default VNil (generic_argsMap req methodConfig !! k)
  = generic_slot req methodConfig k.
Proof.
  unfold generic_argsMap, generic_slot, generic_body, query_value.
  assert (default VNil
            ((((λ v, VString (HeaderParameter req v)) <$> HeadersMap methodConfig)
              ∪ (((λ v, match QueryParameters req v with
                        | [p] => VString p
                        | params => VStrings params
                        end) <$> QueryParamsMap methodConfig)
                 ∪ ((λ v, VString (PathParameter req v))
                      <$> PathParamsMap methodConfig)) : gmap Z value) !! k)
          = match HeadersMap methodConfig !! k with
            | Some v => VString (HeaderParameter req v)
            | None =>
                match QueryParamsMap methodConfig !! k with
                | Some v =>
                    match QueryParameters req v with
                    | [p] => VString p
                    | params => VStrings params
                    end
                | None =>
                    match PathParamsMap methodConfig !! k with
                    | Some v => VString (PathParameter req v)
                    | None => VNil
                    end
                end
            end) as Hu.
  { rewrite !lookup_union, !lookup_fmap.
    by destruct (HeadersMap methodConfig !! k),
      (QueryParamsMap methodConfig !! k), (PathParamsMap methodConfig !! k). }
  destruct (0 <=? Body methodConfig); cbn [andb]; [|exact Hu].
  destruct (ReadEntity req (VMap [])) as [e|m].
  - by destruct (bool_decide _).
  - case_bool_decide as Hb.
    + subst k. by rewrite lookup_insert_eq.
    + by rewrite lookup_insert_ne.
Qed.

(** The list of the generic binder when its indices are below the
    largest length that [make] allocates: its length, and every slot. *)
Lemma generic_result_slots (ρ : range_order) (req : RestServerRequest)
    (methodConfig : RestMethodConfig) :
  range_valid ρ →
  (∀ k, referenced methodConfig k → k < MaxLen) →
  ∃ args,
    getArgsInterfaceFromRequest ρ req methodConfig
    = Some (args, generic_log req methodConfig)
    ∧ len args = generic_maxKey methodConfig + 1
    ∧ ∀ i : nat, (i < length args)%nat →
        args !! i = Some (generic_slot req methodConfig (Z.of_nat i)).
Proof.
  intros Hρ Hbound. rewrite getArgsInterfaceFromRequest_closed by done.
  destruct (generic_maxKey_spec methodConfig) as (H0 & Hle & Hin).
  assert (generic_maxKey methodConfig < MaxLen) as Hmax.
  { destruct Hin as [->|Hin]; [done|]. by apply Hbound. }
  destruct (make_length_small (generic_maxKey methodConfig))
    as [Hw Halloc]; [lia|].
  unfold generic_result, fill. rewrite Hw.
  rewrite decide_True; last first.
  { split; [exact Halloc|]. intros k x Hx _.
    apply generic_argsMap_referenced, Hle in Hx. lia. }
  cbn [mbind option_bind]. eexists. split; [done|]. split.
  - unfold len. rewrite length_imap, length_replicate. lia.
  - intros i Hi. rewrite length_imap, length_replicate in Hi.
    rewrite list_lookup_imap, lookup_replicate_2 by done. cbn.
    by rewrite generic_argsMap_slot.
Qed.

(** X1: when the indices of the configuration are below the largest
    length that [make] allocates, the generic binder returns a list that
    has a position for every index referenced by the configuration that
    is not negative, and position [i] holds the decoded body if [i] is the body index, else the
    header mapped to [i], else the query value mapped to [i] (the string
    itself when there is exactly one value, the list of values otherwise),
    else the path value mapped to [i], else the nil interface. *)
Theorem X1_generic_slots_by_precedence (ρ : range_order)
    (req : RestServerRequest) (methodConfig : RestMethodConfig) :
  range_valid ρ →
  (∀ k, referenced methodConfig k → k < MaxLen) →
  ∃ args log,
    getArgsInterfaceFromRequest ρ req methodConfig = Some (args, log)
    ∧ (∀ k, referenced methodConfig k → 0 ≤ k → k < len args)
    ∧ ∀ i : nat, (i < length args)%nat →
        args !! i = Some (generic_slot req methodConfig (Z.of_nat i)).
Proof.
  intros Hρ Hbound.
  destruct (generic_result_slots ρ req methodConfig Hρ Hbound)
    as (args & Hrun & Hlen & Hslots).
  exists args, (generic_log req methodConfig).
  split; [exact Hrun|]. split; [|exact Hslots].
  intros k Hk _. rewrite Hlen.
  destruct (generic_maxKey_spec methodConfig) as (_ & Hle & _).
  apply Hle in Hk. lia.
Qed.

Lemma X1_generic_slots_by_precedence_witness :
  let req := request {["id" := ["7"]]}
               (list_to_map [("tag", ["x"; "y"]); ("one", ["1"])])
               {["X-Id" := "h"]} no_entity in
  let methodConfig :=
    config {[0 := "id"; 1 := "id"]} {[1 := "one"; 2 := "tag"; 4 := "none"]}
      {[2 := "X-Id"]} (-1) in
  range_valid ascending
  ∧ (∀ k, referenced methodConfig k → k < MaxLen)
  ∧ ∃ args log,
      getArgsInterfaceFromRequest ascending req methodConfig = Some (args, log)
      ∧ (∀ k, referenced methodConfig k → 0 ≤ k → k < len args)
      ∧ ∀ i : nat, (i < length args)%nat →
          args !! i = Some (generic_slot req methodConfig (Z.of_nat i)).
Proof.
  intros req methodConfig.
  assert (∀ k, referenced methodConfig k → k < MaxLen) as Hbound.
  { intros k. unfold referenced.
    remember (keys (PathParamsMap methodConfig)) as ps eqn:Ep.
    remember (keys (QueryParamsMap methodConfig)) as qs eqn:Eq.
    remember (keys (HeadersMap methodConfig)) as hs eqn:Eh.
    vm_compute in Ep, Eq, Eh. subst ps qs hs.
    rewrite !elem_of_cons, !elem_of_nil, MaxLen_eq. cbn. lia. }
  split; [exact ascending_valid|]. split; [exact Hbound|].
  exact (X1_generic_slots_by_precedence ascending req methodConfig
           ascending_valid Hbound).
Defined.

Example generic_precedence_run :
  getArgsInterfaceFromRequest ascending
    (request {["id" := ["7"]]}
       (list_to_map [("tag", ["x"; "y"]); ("one", ["1"])])
       {["X-Id" := "h"]} no_entity)
    (config {[0 := "id"; 1 := "id"]} {[1 := "one"; 2 := "tag"; 4 := "none"]}
       {[2 := "X-Id"]} (-1))
  = Some ([VString "7"; VString "1"; VString "h"; VNil; VStrings []], []).
Proof. vm_compute. reflexivity. Qed.

Lemma generic_slot_unreferenced req (methodConfig : RestMethodConfig) (k : Z) :
  generic_body req methodConfig k = None →
  k ∉ keys (PathParamsMap methodConfig) →
  k ∉ keys (QueryParamsMap methodConfig) →
  k ∉ keys (HeadersMap methodConfig) →
  generic_slot req methodConfig k = VNil.
Proof.
  rewrite !elem_of_keys, <- !eq_None_not_Some. unfold generic_slot.
  by intros -> -> -> ->.
Qed.

(** X2: when the indices of the configuration are below the largest
    length that [make] allocates and the body index is not negative, the
    generic binder reads the body as a generic map and returns a list
    that has a position for the body index whether or not the body
    decodes.  A body that decodes
    is stored at that position and nothing is logged.  A body that does
    not decode is logged as one warning, and the list is the one for the
    configuration without body index, extended by nil interfaces up to
    the body index. *)
Theorem X2_generic_body (ρ : range_order) (req : RestServerRequest)
    (methodConfig : RestMethodConfig) :
  range_valid ρ →
  (∀ k, referenced methodConfig k → k < MaxLen) →
  0 ≤ Body methodConfig →
  ∃ args log,
    getArgsInterfaceFromRequest ρ req methodConfig = Some (args, log)
    ∧ Body methodConfig < len args
    ∧ match ReadEntity req (VMap []) with
      | inr m => log = [] ∧ args !! Z.to_nat (Body methodConfig) = Some m
      | inl e =>
          log = [(WARN, BodyReadAsMap e)]
          ∧ ∃ args',
              getArgsInterfaceFromRequest ρ req (without_body methodConfig)
              = Some (args', [])
              ∧ args = args' ++ replicate (length args - length args') VNil
      end.
Proof.
  intros Hρ Hbound Hb.
  destruct (generic_result_slots ρ req methodConfig Hρ Hbound)
    as (args & Hrun & Hlen & Hslots).
  destruct (generic_maxKey_spec methodConfig) as (_ & Hle & _).
  assert (Body methodConfig < len args) as Hin.
  { rewrite Hlen. assert (referenced methodConfig (Body methodConfig)) as Hr.
    { unfold referenced. auto. }
    apply Hle in Hr. lia. }
  exists args, (generic_log req methodConfig).
  split; [exact Hrun|]. split; [exact Hin|].
  unfold generic_log. replace (0 <=? Body methodConfig) with true by lia.
  destruct (ReadEntity req (VMap [])) as [e|m] eqn:Hread.
  - split; [done|].
    assert (∀ k, referenced (without_body methodConfig) k
                 → referenced methodConfig k) as Hsub.
    { intros k. unfold referenced. cbn. intros [?|[?|[?|[? ?]]]]; auto. lia. }
    destruct (generic_result_slots ρ req (without_body methodConfig) Hρ)
      as (args' & Hrun' & Hlen' & Hslots'); [by auto|].
    exists args'. split; [exact Hrun'|].
    assert (∀ k, generic_slot req methodConfig k
                 = generic_slot req (without_body methodConfig) k) as Heq.
    { intros k. unfold generic_slot, generic_body.
      cbn [Body without_body HeadersMap QueryParamsMap PathParamsMap].
      rewrite Hread. by destruct ((0 <=? Body methodConfig) && _). }
    destruct (generic_maxKey_spec (without_body methodConfig)) as (_ & Hle' & _).
    assert (length args' ≤ length args)%nat as Hshort.
    { destruct (generic_maxKey_spec (without_body methodConfig))
        as (_ & _ & [H0|Hr]); unfold len in *; [lia|].
      apply Hsub, Hle in Hr. lia. }
    apply list_eq. intros i.
    destruct (decide (i < length args')%nat) as [Hlt|Hge].
    + rewrite lookup_app_l by done.
      rewrite Hslots by lia. rewrite Hslots' by done. by rewrite Heq.
    + rewrite lookup_app_r by lia.
      destruct (decide (i < length args)%nat) as [Hlt|Hge'].
      * rewrite lookup_replicate_2 by lia. rewrite Hslots by done.
        f_equal. rewrite Heq. apply generic_slot_unreferenced.
        -- done.
        -- intros Hk. assert (referenced (without_body methodConfig) (Z.of_nat i))
             as Hr by (unfold referenced; auto).
           apply Hle' in Hr. unfold len in *. lia.
        -- intros Hk. assert (referenced (without_body methodConfig) (Z.of_nat i))
             as Hr by (unfold referenced; auto).
           apply Hle' in Hr. unfold len in *. lia.
        -- intros Hk. assert (referenced (without_body methodConfig) (Z.of_nat i))
             as Hr by (unfold referenced; auto).
           apply Hle' in Hr. unfold len in *. lia.
      * rewrite lookup_ge_None_2 by lia. symmetry.
        apply lookup_ge_None_2. rewrite length_replicate. lia.
  - split; [done|]. rewrite Hslots by (unfold len in Hin; lia).
    rewrite Z2Nat.id by done. unfold generic_slot, generic_body.
    replace (0 <=? Body methodConfig) with true by lia.
    rewrite bool_decide_eq_true_2 by done. cbn. by rewrite Hread.
Qed.

Lemma X2_generic_body_witness :
  let req := request {["id" := ["7"]]} ∅ ∅ no_entity in
  let methodConfig := config {[0 := "id"]} ∅ ∅ 2 in
  range_valid ascending
  ∧ (∀ k, referenced methodConfig k → k < MaxLen)
  ∧ 0 ≤ Body methodConfig
  ∧ ∃ args log,
      getArgsInterfaceFromRequest ascending req methodConfig = Some (args, log)
      ∧ Body methodConfig < len args
      ∧ log = [(WARN, BodyReadAsMap (EntityErr "EOF"))]
      ∧ ∃ args',
          getArgsInterfaceFromRequest ascending req (without_body methodConfig)
          = Some (args', [])
          ∧ args = args' ++ replicate (length args - length args') VNil.
Proof.
  intros req methodConfig.
  assert (∀ k, referenced methodConfig k → k < MaxLen) as Hbound.
  { intros k. unfold referenced.
    remember (keys (PathParamsMap methodConfig)) as ps eqn:Ep.
    remember (keys (QueryParamsMap methodConfig)) as qs eqn:Eq.
    remember (keys (HeadersMap methodConfig)) as hs eqn:Eh.
    vm_compute in Ep, Eq, Eh. subst ps qs hs.
    rewrite !elem_of_cons, !elem_of_nil, MaxLen_eq. cbn. lia. }
  assert (0 ≤ Body methodConfig) as Hb by (cbn; lia).
  split; [exact ascending_valid|]. split; [exact Hbound|]. split; [exact Hb|].
  exact (X2_generic_body ascending req methodConfig ascending_valid Hbound Hb).
Defined.

Lemma generic_maxKey_int (methodConfig : RestMethodConfig) :
  (∀ k, referenced methodConfig k → k ≤ MaxInt) →
  generic_maxKey methodConfig ≤ MaxInt.
Proof.
  intros Hbound.
  destruct (generic_maxKey_spec methodConfig) as (_ & _ & [->|Hr]); [done|].
  by apply Hbound.
Qed.

Lemma generic_maxKey_large (methodConfig : RestMethodConfig) :
  MaxLen ≤ generic_maxKey methodConfig
  ↔ ∃ k, referenced methodConfig k ∧ MaxLen ≤ k.
Proof.
  destruct (generic_maxKey_spec methodConfig) as (_ & Hle & Hin). split.
  - intros HM. destruct Hin as [Hz|Hr]; [|eauto].
    rewrite Hz in HM. done.
  - intros (k & Hk & HM). apply Hle in Hk. lia.
Qed.

Lemma generic_panics_iff (ρ : range_order)
    (req : RestServerRequest) (methodConfig : RestMethodConfig) :
  range_valid ρ →
  generic_maxKey methodConfig ≤ MaxInt →
  getArgsInterfaceFromRequest ρ req methodConfig = None
  ↔ MaxLen ≤ generic_maxKey methodConfig.
Proof.
  intros Hρ Hint.
  destruct (decide (MaxLen ≤ generic_maxKey methodConfig)) as [HM|HM].
  - split; [done|]. intros _.
    rewrite getArgsInterfaceFromRequest_closed by done.
    unfold generic_result, fill. rewrite decide_False; [done|].
    intros [Halloc _]. by apply (make_length_large (generic_maxKey methodConfig)).
  - split; [|done]. intros Hnone.
    destruct (generic_maxKey_spec methodConfig) as (_ & Hle & _).
    destruct (generic_result_slots ρ req methodConfig Hρ)
      as (args & Hrun & _); [|congruence].
    intros k Hk. apply Hle in Hk. lia.
Qed.

(** X3: with the indices of the configuration among the values of
    [int], the generic binder panics exactly when one of them is at or
    beyond the largest length that [make] allocates for a slice of
    interface values: [make] then refuses the length [maxKey+1], which
    needs more than [maxAlloc] bytes or, for the largest [int], has
    wrapped around to a negative number.  For every other configuration
    the binder returns, memory being available. *)
Theorem X3_generic_panics_iff_index_too_large (ρ : range_order)
    (req : RestServerRequest) (methodConfig : RestMethodConfig) :
  range_valid ρ →
  (∀ k, referenced methodConfig k → k ≤ MaxInt) →
  getArgsInterfaceFromRequest ρ req methodConfig = None
  ↔ ∃ k, referenced methodConfig k ∧ MaxLen ≤ k.
Proof.
  intros Hρ Hbound. rewrite <- generic_maxKey_large.
  apply generic_panics_iff; [done|]. by apply generic_maxKey_int.
Qed.

Lemma X3_generic_panics_iff_index_too_large_witness :
  let req := request {["id" := ["7"]]} ∅ ∅ no_entity in
  let methodConfig := config {[17592186044416 := "id"]} ∅ ∅ (-1) in
  range_valid ascending
  ∧ (∀ k, referenced methodConfig k → k ≤ MaxInt)
  ∧ (∃ k, referenced methodConfig k ∧ MaxLen ≤ k)
  ∧ getArgsInterfaceFromRequest ascending req methodConfig = None.
Proof.
  intros req methodConfig.
  assert (∀ k, referenced methodConfig k ↔ k = 17592186044416) as Href.
  { intros k. unfold referenced.
    remember (keys (PathParamsMap methodConfig)) as ps eqn:Ep.
    remember (keys (QueryParamsMap methodConfig)) as qs eqn:Eq.
    remember (keys (HeadersMap methodConfig)) as hs eqn:Eh.
    vm_compute in Ep, Eq, Eh. subst ps qs hs.
    rewrite !elem_of_cons, !elem_of_nil. cbn. lia. }
  assert (∀ k, referenced methodConfig k → k ≤ MaxInt) as Hbound.
  { intros k Hk. apply Href in Hk. subst k. by vm_compute. }
  assert (∃ k, referenced methodConfig k ∧ MaxLen ≤ k) as Hlarge.
  { exists 17592186044416. split; [by apply Href|by vm_compute]. }
  split; [exact ascending_valid|]. split; [exact Hbound|].
  split; [exact Hlarge|].
  exact (proj2 (X3_generic_panics_iff_index_too_large ascending req
                  methodConfig ascending_valid Hbound) Hlarge).
Defined.

Lemma generic_binding_deterministic_witness :
  let req := request {["id" := ["7"]]} {["tag" := ["x"]]} ∅ no_entity in
  let methodConfig := config {[0 := "id"; 2 := "id"]} {[2 := "tag"]} ∅ 1 in
  range_valid ascending ∧ range_valid descending
  ∧ getArgsInterfaceFromRequest ascending req methodConfig
    = getArgsInterfaceFromRequest descending req methodConfig.
Proof.
  intros req methodConfig.
  split; [exact ascending_valid|]. split; [exact descending_valid|].
  exact (generic_binding_deterministic ascending descending req methodConfig
           ascending_valid descending_valid).
Defined.

(** ** Further properties of the typed binder *)

Lemma header_unmapped req argsTypes (l : list (Z * string)) (i : nat) :
  Z.of_nat i ∉ l.*1 → last_store (header_events req argsTypes l) i = None.
Proof.
  intros Hk. apply last_store_None.
  intros k x (v & t & Hin & Hr & _)%header_store <-.
  apply Hk, list_elem_of_fmap. exists (k, v). split; [cbn; lia|done].
Qed.

Lemma verdicts_unmapped argsTypes coerce missing kindmsg parsemsg
    (l : list (Z * string)) ep (i : nat) :
  Z.of_nat i ∉ l.*1 →
  last_store (verdicts argsTypes coerce missing kindmsg parsemsg l ep).1 i = None.
Proof.
  intros Hk. apply last_store_None.
  intros k x (v & t & e & p & Hin & Hr & _)%verdicts_store <-.
  apply Hk, list_elem_of_fmap. exists (k, v). split; [cbn; lia|done].
Qed.

Lemma range_not_elem_of (ρ : range_order) {V} site (m : gmap Z V) (k : Z) :
  range_valid ρ → m !! k = None → k ∉ (ρ site V m).*1.
Proof.
  intros Hρ Hm [[k' v] [-> Hin]]%list_elem_of_fmap.
  apply (range_elem_of ρ Hρ) in Hin. cbn in Hm. congruence.
Qed.

Lemma body_events_in_range req argsTypes (body : Z) (t : reflect.Type_) :
  0 ≤ body → argsTypes !! Z.to_nat body = Some t →
  body_events req argsTypes body
  = match ReadEntity req (decode_target (unwrapped t)) with
    | inl e => [Log (ERROR, BodyRead e)]
    | inr ni => [Store body ni]
    end.
Proof.
  intros Hb Ht. unfold body_events, decode_target.
  assert (0 ≤ body < len argsTypes) as Hr.
  { apply lookup_lt_Some in Ht. unfold len. lia. }
  replace ((0 <=? body) && (body <? len argsTypes)) with true by lia.
  destruct (index_Some argsTypes body Hr) as [t' [-> Ht']]. by simplify_eq.
Qed.

(** X13: a slot that no mapping of the configuration refers to holds
    the zero value of its declared type in the list of the typed binder,
    whatever the request holds. *)
Theorem X13_unmapped_slot_is_zero (ρ : range_order) (req : RestServerRequest)
    (argsTypes : list reflect.Type_) (methodConfig : RestMethodConfig)
    (i : nat) (t : reflect.Type_) :
  range_valid ρ →
  argsTypes !! i = Some t →
  PathParamsMap methodConfig !! Z.of_nat i = None →
  QueryParamsMap methodConfig !! Z.of_nat i = None →
  HeadersMap methodConfig !! Z.of_nat i = None →
  Body methodConfig ≠ Z.of_nat i →
  ∃ args log,
    getArgsFromRequest ρ req argsTypes methodConfig = Some (args, log)
    ∧ args !! i = Some (Zero t).
Proof.
  intros Hρ Ht Hp Hq Hh Hb.
  destruct (typed_result ρ req argsTypes methodConfig) as (args & Hrun & _ & Hslot).
  exists args, (logs (typed_events ρ req argsTypes methodConfig)).
  split; [exact Hrun|]. rewrite (Hslot i t Ht). unfold typed_events.
  rewrite !last_store_app.
  rewrite header_unmapped by (by apply range_not_elem_of).
  unfold path_events, query_events.
  rewrite !verdicts_unmapped by (by apply range_not_elem_of).
  rewrite (last_store_None (body_events _ _ _)); [done|].
  intros k x Hin Hk. unfold body_events in Hin.
  destruct ((0 <=? Body methodConfig) && _) eqn:Hr;
    [|by apply elem_of_nil in Hin].
  destruct (index argsTypes (Body methodConfig)); [|by apply elem_of_nil in Hin].
  destruct (ReadEntity req _);
    apply list_elem_of_singleton in Hin; [done|].
  injection Hin as Hk' _. lia.
Qed.

Lemma X13_unmapped_slot_is_zero_witness :
  let req := request {["id" := ["7"]]} ∅ ∅ no_entity in
  let methodConfig := config {[0 := "id"]} ∅ ∅ 2 in
  let argsTypes := [reflect.TInt; reflect.TPtr user; reflect.TInterface] in
  range_valid ascending
  ∧ argsTypes !! 1%nat = Some (reflect.TPtr user)
  ∧ Body methodConfig ≠ 1
  ∧ ∃ args log,
      getArgsFromRequest ascending req argsTypes methodConfig = Some (args, log)
      ∧ args !! 1%nat = Some (VNilPtr user).
Proof.
  intros req methodConfig argsTypes.
  assert (Body methodConfig ≠ 1) as Hb by (cbn; lia).
  split; [exact ascending_valid|]. split; [reflexivity|]. split; [exact Hb|].
  exact (X13_unmapped_slot_is_zero ascending req argsTypes methodConfig 1
           (reflect.TPtr user) ascending_valid eq_refl eq_refl eq_refl eq_refl Hb).
Defined.

(** X5: a header-mapped slot whose declared type, with one pointer
    removed, is of kind String holds the header value in the list of the
    typed binder: the header pass runs last, so neither a path, query or
    body value for the same slot nor a parse failure elsewhere changes
    that.  The value is stored as a plain string, also for a slot of type
    pointer to string. *)
Theorem X5_header_value_wins (ρ : range_order) (req : RestServerRequest)
    (argsTypes : list reflect.Type_) (methodConfig : RestMethodConfig)
    (i : nat) (v : string) (t : reflect.Type_) :
  range_valid ρ →
  HeadersMap methodConfig !! Z.of_nat i = Some v →
  argsTypes !! i = Some t →
  reflect.Type_Kind (unwrapped t) = reflect.String →
  ∃ args log,
    getArgsFromRequest ρ req argsTypes methodConfig = Some (args, log)
    ∧ args !! i = Some (VString (HeaderParameter req v)).
Proof.
  intros Hρ Hv Ht Hkind.
  destruct (typed_result ρ req argsTypes methodConfig) as (args & Hrun & _ & Hslot).
  exists args, (logs (typed_events ρ req argsTypes methodConfig)).
  split; [exact Hrun|]. rewrite (Hslot i t Ht). unfold typed_events.
  rewrite !app_assoc, last_store_app.
  pose proof (header_accepted req argsTypes
                (ρ HeaderLoop _ (HeadersMap methodConfig)) (Z.of_nat i) v t)
    as Hacc.
  rewrite Nat2Z.id in Hacc. rewrite Hacc; try done.
  - by apply range_NoDup.
  - by apply range_elem_of.
  - apply lookup_lt_Some in Ht. unfold len. lia.
Qed.

Lemma X5_header_value_wins_witness :
  let req := request {["id" := ["from-path"]]} ∅ {["X-Id" := "from-header"]}
               (λ _, inr (VString "from-body")) in
  let methodConfig := config {[0 := "id"]} ∅ {[0 := "X-Id"]} 0 in
  let argsTypes := [reflect.TPtr reflect.TString] in
  range_valid ascending
  ∧ HeadersMap methodConfig !! 0 = Some "X-Id"
  ∧ argsTypes !! 0%nat = Some (reflect.TPtr reflect.TString)
  ∧ reflect.Type_Kind (unwrapped (reflect.TPtr reflect.TString)) = reflect.String
  ∧ ∃ args log,
      getArgsFromRequest ascending req argsTypes methodConfig = Some (args, log)
      ∧ args !! 0%nat = Some (VString "from-header").
Proof.
  intros req methodConfig argsTypes.
  split; [exact ascending_valid|]. split; [reflexivity|].
  split; [reflexivity|]. split; [reflexivity|].
  exact (X5_header_value_wins ascending req argsTypes methodConfig 0 "X-Id"
           (reflect.TPtr reflect.TString) ascending_valid eq_refl eq_refl eq_refl).
Defined.

(** X6: for a body index in range whose slot is not of String kind
    (with one pointer removed), the typed binder decodes the body into a
    list of generic maps for a slot of type [[]interface{}], into a generic
    map for [interface{}], and into a fresh instance of the unwrapped type
    otherwise.  When decoding succeeds the list is the one for the
    configuration without body index with the decoded value in the body
    slot, and the log is the same; when it fails the list is that of the
    configuration without body index and the error is logged. *)
Theorem X6_typed_body_slot (ρ : range_order) (req : RestServerRequest)
    (argsTypes : list reflect.Type_) (methodConfig : RestMethodConfig)
    (t : reflect.Type_) :
  0 ≤ Body methodConfig →
  argsTypes !! Z.to_nat (Body methodConfig) = Some t →
  reflect.Type_Kind (unwrapped t) ≠ reflect.String →
  ∃ args log args0 log0,
    getArgsFromRequest ρ req argsTypes methodConfig = Some (args, log)
    ∧ getArgsFromRequest ρ req argsTypes (without_body methodConfig)
      = Some (args0, log0)
    ∧ match ReadEntity req (decode_target (unwrapped t)) with
      | inr ni =>
          args = <[Z.to_nat (Body methodConfig) := ni]> args0 ∧ log = log0
      | inl e => args = args0 ∧ (ERROR, BodyRead e) ∈ log
      end.
Proof.
  intros Hb Ht Hkind.
  destruct (typed_result ρ req argsTypes methodConfig)
    as (args & Hrun & Hlen & Hslot).
  destruct (typed_result ρ req argsTypes (without_body methodConfig))
    as (args0 & Hrun0 & Hlen0 & Hslot0).
  exists args, (logs (typed_events ρ req argsTypes methodConfig)),
    args0, (logs (typed_events ρ req argsTypes (without_body methodConfig))).
  split; [exact Hrun|]. split; [exact Hrun0|].
  set (pev := path_events req argsTypes
                (ρ PathLoop _ (PathParamsMap methodConfig))) in *.
  set (qev := query_events req argsTypes
                (ρ QueryLoop _ (QueryParamsMap methodConfig))) in *.
  set (hev := header_events req argsTypes
                (ρ HeaderLoop _ (HeadersMap methodConfig))) in *.
  assert (typed_events ρ req argsTypes methodConfig
          = (pev ++ qev) ++ body_events req argsTypes (Body methodConfig) ++ hev)
    as Hev by (unfold typed_events; by rewrite <- app_assoc).
  assert (typed_events ρ req argsTypes (without_body methodConfig)
          = (pev ++ qev) ++ hev) as Hev0.
  { unfold typed_events.
    cbn [PathParamsMap QueryParamsMap HeadersMap Body without_body].
    rewrite (body_events_out_of_range req argsTypes (-1))
      by (pose proof (len_nonneg argsTypes); lia).
    by rewrite <- app_assoc. }
  rewrite Hev in *. rewrite Hev0 in *. clear Hev Hev0.
  rewrite (body_events_in_range req argsTypes _ t Hb Ht) in *.
  destruct (ReadEntity req (decode_target (unwrapped t))) as [e|ni].
  - split.
    + apply list_eq. intros i.
      destruct (argsTypes !! i) as [t'|] eqn:Hi.
      * rewrite (Hslot i t' Hi), (Hslot0 i t' Hi), !last_store_app.
        cbn [last_store]. by destruct (last_store hev i).
      * apply lookup_ge_None in Hi.
        rewrite !lookup_ge_None_2 by lia. done.
    + rewrite !logs_app, !elem_of_app. right. left. by left.
  - split.
    + apply list_eq. intros i.
      destruct (argsTypes !! i) as [t'|] eqn:Hi.
      * rewrite (Hslot i t' Hi), !last_store_app. cbn [last_store].
        destruct (decide (Z.to_nat (Body methodConfig) = i)) as [<-|Hne].
        -- unfold hev.
           rewrite (header_untouched req argsTypes _ _ t Ht Hkind).
           rewrite list_lookup_insert_eq by (apply lookup_lt_Some in Ht; lia).
           done.
        -- rewrite list_lookup_insert_ne by done.
           rewrite (Hslot0 i t' Hi), !last_store_app.
           by destruct (last_store hev i).
      * apply lookup_ge_None in Hi.
        rewrite !lookup_ge_None_2 by (rewrite ?length_insert; lia). done.
    + rewrite !logs_app. cbn. done.
Qed.

Lemma X6_typed_body_slot_witness :
  let ann := VPtr user (VStruct "main" "User" [("Name", VString "Ann")]) in
  let req := request {["id" := ["7"]]} ∅ ∅ (λ _, inr ann) in
  let methodConfig := config {[0 := "id"; 1 := "id"]} ∅ ∅ 1 in
  let argsTypes := [reflect.TInt; user] in
  0 ≤ Body methodConfig
  ∧ argsTypes !! Z.to_nat (Body methodConfig) = Some user
  ∧ reflect.Type_Kind (unwrapped user) ≠ reflect.String
  ∧ ∃ args log args0 log0,
      getArgsFromRequest ascending req argsTypes methodConfig = Some (args, log)
      ∧ getArgsFromRequest ascending req argsTypes (without_body methodConfig)
        = Some (args0, log0)
      ∧ args = <[Z.to_nat (Body methodConfig) := ann]> args0 ∧ log = log0.
Proof.
  intros ann req methodConfig argsTypes.
  assert (0 ≤ Body methodConfig) as Hb by (cbn; lia).
  assert (reflect.Type_Kind (unwrapped user) ≠ reflect.String) as Hkind
    by discriminate.
  split; [exact Hb|]. split; [reflexivity|]. split; [exact Hkind|].
  exact (X6_typed_body_slot ascending req argsTypes methodConfig user
           Hb eq_refl Hkind).
Defined.

(** *** Integer slots *)

Lemma digit_range (c : Ascii.ascii) (d : Z) : strconv.digit c = Some d → 0 ≤ d ≤ 9.
Proof.
  unfold strconv.digit.
  destruct ((48 <=? _) && (_ <=? 57)) eqn:E; [|done]. intros [= <-]. lia.
Qed.

Lemma digits_range (s0 : string) (maxVal : Z) (s : string) (n r : Z) e :
  0 ≤ n ≤ maxVal →
  strconv.digits s0 maxVal s n = (r, e) →
  match e with
  | None => 0 ≤ r ≤ maxVal
  | Some e => strconv.Err e = strconv.ErrRange → r = maxVal
  end.
Proof.
  revert n. induction s as [|c s IH]; intros n Hn; cbn.
  - by intros [= <- <-].
  - destruct (strconv.digit c) as [d|] eqn:Hd.
    + apply digit_range in Hd.
      destruct (Z.ltb_spec maxVal (n * 10 + d)).
      * by intros [= <- <-].
      * apply IH. lia.
    + by intros [= <- <-].
Qed.

Lemma ParseUint_range (s : string) (bitSize r : Z) e :
  0 ≤ bitSize →
  strconv.ParseUint s bitSize = (r, e) →
  let maxVal := 2 ^ (if bitSize =? 0 then IntSize else bitSize) - 1 in
  match e with
  | None => 0 ≤ r ≤ maxVal
  | Some e => strconv.Err e = strconv.ErrRange → r = maxVal
  end.
Proof.
  intros Hb. unfold strconv.ParseUint. destruct s as [|c s].
  - by intros [= <- <-].
  - apply digits_range. split; [done|].
    assert (0 < 2 ^ (if bitSize =? 0 then IntSize else bitSize)); [|lia].
    apply Z.pow_pos_nonneg; [done|]. unfold IntSize. by destruct (bitSize =? 0).
Qed.

Lemma ParseInt_range (s : string) (bitSize n : Z) :
  bitSize = 0 ∨ 2 ≤ bitSize →
  strconv.ParseInt s bitSize = (n, None) →
  let w := if bitSize =? 0 then IntSize else bitSize in
  - 2 ^ (w - 1) ≤ n < 2 ^ (w - 1).
Proof.
  intros Hb. unfold strconv.ParseInt. destruct s as [|c rest]; [done|].
  match goal with
  | |- context [strconv.ParseUint ?b bitSize] =>
      destruct (strconv.ParseUint b bitSize) as [un e] eqn:Hu
  end.
  apply ParseUint_range in Hu; [|lia]. cbn zeta in *.
  set (w := if bitSize =? 0 then IntSize else bitSize) in *.
  assert (2 ≤ w) as Hw by (unfold w, IntSize; destruct (Z.eqb_spec bitSize 0); lia).
  assert (2 ^ w = 2 * 2 ^ (w - 1)) as Hpow.
  { rewrite <- Z.pow_succ_r by lia. f_equal. lia. }
  assert (2 ≤ 2 ^ (w - 1)) as Hge.
  { change 2 with (2 ^ 1) at 1. apply Z.pow_le_mono_r; lia. }
  destruct e as [[fn num []]|]; [done| |].
  - specialize (Hu eq_refl). subst un.
    destruct (bool_decide (c = "-"%char)); cbn [negb andb].
    + destruct (Z.ltb_spec (2 ^ (w - 1)) (2 ^ w - 1)); [done|lia].
    + destruct (Z.leb_spec (2 ^ (w - 1)) (2 ^ w - 1)); [done|lia].
  - destruct (bool_decide (c = "-"%char)); cbn [negb andb].
    + destruct (Z.ltb_spec (2 ^ (w - 1)) un); [done|]. intros [= <-]. lia.
    + destruct (Z.leb_spec (2 ^ (w - 1)) un); [done|]. intros [= <-]. lia.
Qed.

Lemma wrap_id (w z : Z) : 1 ≤ w → - 2 ^ (w - 1) ≤ z < 2 ^ (w - 1) → wrap w z = z.
Proof.
  intros Hw Hz. unfold wrap.
  assert (2 ^ w = 2 * 2 ^ (w - 1)) as ->.
  { rewrite <- Z.pow_succ_r by lia. f_equal. lia. }
  rewrite Z.mod_small by lia. lia.
Qed.

Lemma integer_value_in_width (kind : reflect.Kind) (raw : string) (x : value) :
  integer_value kind raw = Some (inl x) →
  in_width x
  ∧ match kind with
    | reflect.Int => x = VInt (strconv.ParseInt raw 0).1
    | reflect.Int32 => x = VInt32 (strconv.ParseInt raw 32).1
    | reflect.Int64 => x = VInt64 (strconv.ParseInt raw 64).1
    | _ => False
    end.
Proof.
  destruct kind; cbn; try done.
  - unfold strconv.Atoi.
    destruct (strconv.ParseInt raw 0) as [n [e|]] eqn:Hp; [done|].
    cbn. intros [= <-]. apply ParseInt_range in Hp; [|by left].
    cbn in Hp. rewrite wrap_id by (unfold IntSize in *; lia).
    split; [exact Hp|done].
  - destruct (strconv.ParseInt raw 32) as [n [e|]] eqn:Hp; [done|].
    intros [= <-]. apply ParseInt_range in Hp; [|right; lia].
    cbn in Hp. rewrite wrap_id by lia. split; [exact Hp|done].
  - destruct (strconv.ParseInt raw 64) as [n [e|]] eqn:Hp; [done|].
    intros [= <-]. apply ParseInt_range in Hp; [|right; lia].
    split; [exact Hp|done].
Qed.

Lemma path_coerce_integer req kind v r :
  integer_value kind (PathParameter req v) = Some r →
  match r with
  | inl x => ∀ e p, path_coerce req kind v e p = Some (None, x)
  | inr x => ∀ e p, ∃ p', path_coerce req kind v e p = Some (Some x, p')
  end.
Proof.
  destruct kind; cbn; try done.
  - destruct (strconv.Atoi _) as [n [e|]]; intros [= <-]; eauto.
  - destruct (strconv.ParseInt _ 32) as [n [e|]]; intros [= <-]; eauto.
  - destruct (strconv.ParseInt _ 64) as [n [e|]]; intros [= <-]; eauto.
Qed.

Lemma query_coerce_integer req kind v r :
  integer_value kind (QueryParameter req v) = Some r →
  match r with
  | inl x => ∀ e p, query_coerce req kind v e p = Some (None, x)
  | inr x => ∀ e p, ∃ p', query_coerce req kind v e p = Some (Some x, p')
  end.
Proof.
  destruct kind; cbn; try done.
  - destruct (strconv.Atoi _) as [n [e|]]; intros [= <-]; eauto.
  - destruct (strconv.ParseInt _ 32) as [n [e|]]; intros [= <-]; eauto.
  - destruct (strconv.ParseInt _ 64) as [n [e|]]; intros [= <-]; eauto.
Qed.

(** X7: a path-mapped slot of kind Int, Int32 or Int64 is parsed in
    base 10 at the width of its kind.  When the value parses, the slot
    holds the number after the path pass, whatever the other entries of
    the mapping did, and the number is within the range of the kind (the
    conversion to [int32] loses nothing); when it does not parse, the
    slot is left as it was and the error is logged. *)
Theorem X7_path_integer_slot (ρ : range_order) (req : RestServerRequest)
    (argsTypes : list reflect.Type_) (methodConfig : RestMethodConfig)
    (s : list value * list entry) (i : nat) (v : string) (t : reflect.Type_)
    (r : value + error) :
  range_valid ρ →
  length s.1 = length argsTypes →
  argsTypes !! i = Some t →
  PathParamsMap methodConfig !! Z.of_nat i = Some v →
  integer_value (reflect.Type_Kind t) (PathParameter req v) = Some r →
  ∃ args' log',
    assembleArgsFromPathParams ρ methodConfig (len argsTypes) argsTypes req s
    = Some (args', log')
    ∧ match r with
      | inl x => args' !! i = Some x ∧ in_width x
      | inr e => args' !! i = s.1 !! i ∧ (ERROR, PathParse e) ∈ log'
      end.
Proof.
  intros Hρ Hlen Ht Hv Hr. rewrite path_pass_replay by done.
  set (l := ρ PathLoop _ (PathParamsMap methodConfig)).
  exists (replay (path_events req argsTypes l) s).1,
         (replay (path_events req argsTypes l) s).2.
  split; [by destruct (replay _ s)|].
  assert (NoDup l.*1) as Hnd by (by apply range_NoDup).
  assert ((Z.of_nat i, v) ∈ l) as Hin by (by apply range_elem_of).
  assert (0 ≤ Z.of_nat i < len argsTypes) as Hrange.
  { apply lookup_lt_Some in Ht. unfold len. lia. }
  assert (argsTypes !! Z.to_nat (Z.of_nat i) = Some t) as Ht'
    by (by rewrite Nat2Z.id).
  rewrite replay_lookup, replay_logs. unfold path_events.
  pose proof (path_coerce_integer req _ v r Hr) as Hc.
  destruct r as [x|e].
  - pose proof (verdicts_accepted argsTypes (path_coerce req)
                  (λ k, (ERROR, PathArgMissing k)) (λ k, (WARN, PathArgKind k))
                  (λ e, (ERROR, PathParse e)) l (None, VNil) (Z.of_nat i) v
                  t x Hnd Hin Hrange Ht' Hc) as Hsome.
    rewrite Nat2Z.id in Hsome. rewrite Hsome. split.
    + rewrite decide_True; [done|]. rewrite Hlen. by apply lookup_lt_Some in Ht.
    + by apply integer_value_in_width in Hr as [? _].
  - destruct (verdicts_failed argsTypes (path_coerce req)
                (λ k, (ERROR, PathArgMissing k)) (λ k, (WARN, PathArgKind k))
                (λ e, (ERROR, PathParse e)) l (None, VNil) (Z.of_nat i) v
                t e Hnd Hin Hrange Ht' Hc) as [Hnone Hlog].
    rewrite Nat2Z.id in Hnone. rewrite Hnone. split; [done|].
    apply elem_of_app. right. by apply elem_of_logs.
Qed.

Lemma X7_path_integer_slot_witness :
  let req := request (list_to_map [("a", ["x"]); ("n", ["-2147483648"])])
               ∅ ∅ no_entity in
  let methodConfig := config (list_to_map [(0, "a"); (1, "n")]) ∅ ∅ (-1) in
  let argsTypes := [reflect.TInt64; reflect.TInt32] in
  let s : list value * list entry := ([VInt64 0; VInt32 0], []) in
  range_valid ascending
  ∧ length s.1 = length argsTypes
  ∧ argsTypes !! 1%nat = Some reflect.TInt32
  ∧ PathParamsMap methodConfig !! 1 = Some "n"
  ∧ integer_value reflect.Int32 (PathParameter req "n")
    = Some (inl (VInt32 (-2147483648)))
  ∧ ∃ args' log',
      assembleArgsFromPathParams ascending methodConfig (len argsTypes)
        argsTypes req s = Some (args', log')
      ∧ args' !! 1%nat = Some (VInt32 (-2147483648))
      ∧ in_width (VInt32 (-2147483648)).
Proof.
  intros req methodConfig argsTypes s.
  split; [exact ascending_valid|]. split; [reflexivity|].
  split; [reflexivity|]. split; [reflexivity|]. split; [reflexivity|].
  exact (X7_path_integer_slot ascending req argsTypes methodConfig s 1 "n"
           reflect.TInt32 (inl (VInt32 (-2147483648))) ascending_valid
           eq_refl eq_refl eq_refl eq_refl).
Defined.

(** X8: a query-mapped slot of kind Int, Int32 or Int64 is parsed in
    base 10 at the width of its kind from the string that
    [QueryParameter] returns for the mapped name.  When the string
    parses, the slot holds the number after the query pass, whatever the
    other entries of the mapping did, and the number is within the range
    of the kind; when it does not parse, the slot is left as it was and
    the error is logged. *)
Theorem X8_query_integer_slot (ρ : range_order) (req : RestServerRequest)
    (argsTypes : list reflect.Type_) (methodConfig : RestMethodConfig)
    (s : list value * list entry) (i : nat) (v : string) (t : reflect.Type_)
    (r : value + error) :
  range_valid ρ →
  length s.1 = length argsTypes →
  argsTypes !! i = Some t →
  QueryParamsMap methodConfig !! Z.of_nat i = Some v →
  integer_value (reflect.Type_Kind t) (QueryParameter req v) = Some r →
  ∃ args' log',
    assembleArgsFromQueryParams ρ methodConfig (len argsTypes) argsTypes req s
    = Some (args', log')
    ∧ match r with
      | inl x => args' !! i = Some x ∧ in_width x
      | inr e => args' !! i = s.1 !! i ∧ (ERROR, QueryParse e) ∈ log'
      end.
Proof.
  intros Hρ Hlen Ht Hv Hr. rewrite query_pass_replay by done.
  set (l := ρ QueryLoop _ (QueryParamsMap methodConfig)).
  exists (replay (query_events req argsTypes l) s).1,
         (replay (query_events req argsTypes l) s).2.
  split; [by destruct (replay _ s)|].
  assert (NoDup l.*1) as Hnd by (by apply range_NoDup).
  assert ((Z.of_nat i, v) ∈ l) as Hin by (by apply range_elem_of).
  assert (0 ≤ Z.of_nat i < len argsTypes) as Hrange.
  { apply lookup_lt_Some in Ht. unfold len. lia. }
  assert (argsTypes !! Z.to_nat (Z.of_nat i) = Some t) as Ht'
    by (by rewrite Nat2Z.id).
  rewrite replay_lookup, replay_logs. unfold query_events.
  pose proof (query_coerce_integer req _ v r Hr) as Hc.
  destruct r as [x|e].
  - pose proof (verdicts_accepted argsTypes (query_coerce req)
                  (λ k, (ERROR, QueryArgMissing k)) (λ k, (ERROR, QueryArgKind k))
                  (λ e, (ERROR, QueryParse e)) l (None, VNil) (Z.of_nat i) v
                  t x Hnd Hin Hrange Ht' Hc) as Hsome.
    rewrite Nat2Z.id in Hsome. rewrite Hsome. split.
    + rewrite decide_True; [done|]. rewrite Hlen. by apply lookup_lt_Some in Ht.
    + by apply integer_value_in_width in Hr as [? _].
  - destruct (verdicts_failed argsTypes (query_coerce req)
                (λ k, (ERROR, QueryArgMissing k)) (λ k, (ERROR, QueryArgKind k))
                (λ e, (ERROR, QueryParse e)) l (None, VNil) (Z.of_nat i) v
                t e Hnd Hin Hrange Ht' Hc) as [Hnone Hlog].
    rewrite Nat2Z.id in Hnone. rewrite Hnone. split; [done|].
    apply elem_of_app. right. by apply elem_of_logs.
Qed.

Lemma X8_query_integer_slot_witness :
  let req := request ∅ (list_to_map [("n", ["2147483648"]); ("s", ["hello"])])
               ∅ no_entity in
  let argsTypes := [reflect.TInt32; reflect.TString] in
  let s : list value * list entry := ([VInt32 5; VString "was"], []) in
  let e := NumErr (strconv.rangeError "ParseInt" "2147483648") in
  range_valid ascending
  ∧ length s.1 = length argsTypes
  ∧ argsTypes !! 0%nat = Some reflect.TInt32
  ∧ QueryParamsMap two_query_slots !! 0 = Some "n"
  ∧ integer_value reflect.Int32 (QueryParameter req "n") = Some (inr e)
  ∧ ∃ args' log',
      assembleArgsFromQueryParams ascending two_query_slots (len argsTypes)
        argsTypes req s = Some (args', log')
      ∧ args' !! 0%nat = Some (VInt32 5)
      ∧ (ERROR, QueryParse e) ∈ log'.
Proof.
  intros req argsTypes s e.
  split; [exact ascending_valid|]. split; [reflexivity|].
  split; [reflexivity|]. split; [reflexivity|]. split; [reflexivity|].
  exact (X8_query_integer_slot ascending req argsTypes two_query_slots s 0 "n"
           reflect.TInt32 (inr e) ascending_valid
           eq_refl eq_refl eq_refl eq_refl).
Defined.

(** ** The typed binder in closed form *)

Lemma last_store_fmap_key (f : Z * string → event) (l : list (Z * string))
    (i : nat) (v : string) :
  NoDup l.*1 →
  (∀ kv k x, f kv = Store k x → kv.1 = k ∧ 0 ≤ k) →
  (Z.of_nat i, v) ∈ l →
  last_store (f <$> l) i
  = match f (Z.of_nat i, v) with Store _ x => Some x | Log _ => None end.
Proof.
  intros Hnd Hf Hin.
  assert (∀ k x, Store k x ∈ f <$> l → Z.to_nat k = i →
                 f (Z.of_nat i, v) = Store k x) as Hsame.
  { intros k x [[k' v'] [Hev Hin']]%list_elem_of_fmap Hk. symmetry in Hev.
    destruct (Hf _ _ _ Hev) as [E ?]. cbn in E. subst k'.
    assert (k = Z.of_nat i) as -> by lia.
    by rewrite (NoDup_fst_agree l (Z.of_nat i) v v'). }
  destruct (f (Z.of_nat i, v)) as [e|k x] eqn:Hev.
  - apply last_store_None. intros k x Hs Hk.
    by specialize (Hsame k x Hs Hk).
  - destruct (Hf _ _ _ Hev) as [E ?]. cbn in E. subst k.
    rewrite <- (Nat2Z.id i) at 1. apply last_store_unique.
    + apply list_elem_of_fmap. by exists (Z.of_nat i, v).
    + intros k' x' Hs Hk. rewrite Nat2Z.id in Hk.
      specialize (Hsame k' x' Hs Hk). congruence.
Qed.

Lemma verdicts_clean_slot argsTypes coerce missing kindmsg parsemsg
    (l : list (Z * string)) (i : nat) (v : string) (t : reflect.Type_) :
  NoDup l.*1 →
  Forall (clean argsTypes coerce missing kindmsg parsemsg) l →
  argsTypes !! i = Some t →
  (Z.of_nat i, v) ∈ l →
  last_store (verdicts argsTypes coerce missing kindmsg parsemsg l (None, VNil)).1 i
  = coerced (coerce (reflect.Type_Kind t) v None VNil).
Proof.
  intros Hnd Hclean Ht Hin. rewrite verdicts_clean by done.
  rewrite (last_store_fmap_key _ l i v Hnd); [|..|done].
  - unfold verdict.
    assert (0 ≤ Z.of_nat i < len argsTypes) as Hr.
    { apply lookup_lt_Some in Ht. unfold len. lia. }
    rewrite (proj2 (out_of_range_false _ _) Hr).
    destruct (index_Some argsTypes (Z.of_nat i) Hr) as [t' [-> Ht']].
    rewrite Nat2Z.id in Ht'. simplify_eq. cbn [fst snd].
    by destruct (coerce _ _ _ _) as [[[e|] p]|].
  - intros kv k x Hv.
    destruct (verdict_store argsTypes coerce missing kindmsg parsemsg
                kv (None, VNil) k x Hv) as (t' & Hk & Hr & _).
    split; [done|lia].
Qed.

Lemma header_slot req argsTypes (l : list (Z * string)) (i : nat) (v : string)
    (t : reflect.Type_) :
  NoDup l.*1 → argsTypes !! i = Some t → (Z.of_nat i, v) ∈ l →
  last_store (header_events req argsTypes l) i
  = if decide (reflect.Type_Kind (unwrapped t) = reflect.String)
    then Some (VString (HeaderParameter req v)) else None.
Proof.
  intros Hnd Ht Hin. case_decide as Hkind.
  - pose proof (header_accepted req argsTypes l (Z.of_nat i) v t) as Hacc.
    rewrite Nat2Z.id in Hacc. apply Hacc; try done.
    apply lookup_lt_Some in Ht. unfold len. lia.
  - by apply (header_untouched req argsTypes l i t).
Qed.

Lemma body_slot req argsTypes (body : Z) (i : nat) (t : reflect.Type_) :
  argsTypes !! i = Some t →
  last_store (body_events req argsTypes body) i
  = if decide (body = Z.of_nat i) then
      match ReadEntity req (decode_target (unwrapped t)) with
      | inl _ => None
      | inr ni => Some ni
      end
    else None.
Proof.
  intros Ht. case_decide as Hb.
  - subst body. rewrite (body_events_in_range req argsTypes _ t);
      [|lia|by rewrite Nat2Z.id].
    destruct (ReadEntity _ _); cbn; [done|].
    by rewrite decide_True by apply Nat2Z.id.
  - apply last_store_None. intros k x Hin Hk. unfold body_events in Hin.
    destruct ((0 <=? body) && _) eqn:Hr; [|by apply elem_of_nil in Hin].
    destruct (index argsTypes body); [|by apply elem_of_nil in Hin].
    destruct (ReadEntity req _);
      apply list_elem_of_singleton in Hin; [done|].
    injection Hin as Hk' _. lia.
Qed.

(** X10: when every path and query value mapped to an integer slot
    parses, the typed binder returns, for every visiting order, the list
    of the declared length in which each slot holds: the header value for
    a header-mapped slot of String kind (with one pointer removed); else
    the decoded body for the body slot, when decoding succeeds; else the
    coerced query value for a query-mapped slot of a kind the query pass
    accepts; else the coerced path value for a path-mapped slot of a kind
    the path pass accepts; else the zero value of the declared type. *)
Theorem X10_typed_slots_by_precedence (ρ : range_order)
    (req : RestServerRequest) (argsTypes : list reflect.Type_)
    (methodConfig : RestMethodConfig) :
  range_valid ρ →
  (∀ k v t, 0 ≤ k → PathParamsMap methodConfig !! k = Some v →
            argsTypes !! Z.to_nat k = Some t →
            parses (reflect.Type_Kind t) (PathParameter req v)) →
  (∀ k v t, 0 ≤ k → QueryParamsMap methodConfig !! k = Some v →
            argsTypes !! Z.to_nat k = Some t →
            parses (reflect.Type_Kind t) (QueryParameter req v)) →
  ∃ args log,
    getArgsFromRequest ρ req argsTypes methodConfig = Some (args, log)
    ∧ length args = length argsTypes
    ∧ ∀ i t, argsTypes !! i = Some t →
        args !! i = Some (typed_slot req methodConfig (Z.of_nat i) t).
Proof.
  intros Hρ Hpath Hquery.
  destruct (typed_result ρ req argsTypes methodConfig)
    as (args & Hrun & Hlen & Hslot).
  exists args, (logs (typed_events ρ req argsTypes methodConfig)).
  split; [exact Hrun|]. split; [exact Hlen|].
  intros i t Ht. rewrite (Hslot i t Ht). f_equal.
  unfold typed_events, typed_slot. rewrite !last_store_app.
  rewrite (body_slot req argsTypes _ i t Ht).
  assert (last_store (header_events req argsTypes
                        (ρ HeaderLoop _ (HeadersMap methodConfig))) i
          = v ← HeadersMap methodConfig !! Z.of_nat i;
            if decide (reflect.Type_Kind (unwrapped t) = reflect.String)
            then Some (VString (HeaderParameter req v)) else None) as ->.
  { destruct (HeadersMap methodConfig !! Z.of_nat i) as [v|] eqn:Hv.
    - apply header_slot; [by apply range_NoDup|done|by apply range_elem_of].
    - apply header_unmapped. by apply range_not_elem_of. }
  assert (last_store (query_events req argsTypes
                        (ρ QueryLoop _ (QueryParamsMap methodConfig))) i
          = v ← QueryParamsMap methodConfig !! Z.of_nat i;
            coerced (query_coerce req (reflect.Type_Kind t) v None VNil)) as ->.
  { unfold query_events.
    destruct (QueryParamsMap methodConfig !! Z.of_nat i) as [v|] eqn:Hv.
    - apply verdicts_clean_slot;
        [by apply range_NoDup| |done|by apply range_elem_of].
      apply Forall_forall. intros [k v'] Hin. apply query_clean.
      intros t' Hk Ht'. apply (Hquery k v' t'); [done| |done].
      by apply (range_elem_of ρ Hρ) in Hin.
    - apply verdicts_unmapped. by apply range_not_elem_of. }
  assert (last_store (path_events req argsTypes
                        (ρ PathLoop _ (PathParamsMap methodConfig))) i
          = v ← PathParamsMap methodConfig !! Z.of_nat i;
            coerced (path_coerce req (reflect.Type_Kind t) v None VNil)) as ->.
  { unfold path_events.
    destruct (PathParamsMap methodConfig !! Z.of_nat i) as [v|] eqn:Hv.
    - apply verdicts_clean_slot;
        [by apply range_NoDup| |done|by apply range_elem_of].
      apply Forall_forall. intros [k v'] Hin. apply path_clean.
      intros t' Hk Ht'. apply (Hpath k v' t'); [done| |done].
      by apply (range_elem_of ρ Hρ) in Hin.
    - apply verdicts_unmapped. by apply range_not_elem_of. }
  destruct (_ ≫= _) as [h|]; [done|].
  destruct (decide (Body methodConfig = Z.of_nat i)) as [Hb|Hb];
    [destruct (ReadEntity _ _) as [e|ni]; [|done]|];
    cbn [default]; (destruct (_ ≫= _) as [q|]; [done|]);
    by destruct (_ ≫= _).
Qed.

Lemma X10_typed_slots_by_precedence_witness :
  let req := request {["id" := ["7"]; "junk" := ["abc"]]} {["n" := ["8"]]}
               {["X-Name" := "ann"]} no_entity in
  let methodConfig :=
    config {[0 := "id"; -1 := "junk"]} {[0 := "n"]} {[1 := "X-Name"]} 2 in
  let argsTypes := [reflect.TInt32; reflect.TString; reflect.TPtr user] in
  range_valid descending
  ∧ (∀ k v t, 0 ≤ k → PathParamsMap methodConfig !! k = Some v →
              argsTypes !! Z.to_nat k = Some t →
              parses (reflect.Type_Kind t) (PathParameter req v))
  ∧ (∀ k v t, 0 ≤ k → QueryParamsMap methodConfig !! k = Some v →
              argsTypes !! Z.to_nat k = Some t →
              parses (reflect.Type_Kind t) (QueryParameter req v))
  ∧ ∃ args log,
      getArgsFromRequest descending req argsTypes methodConfig = Some (args, log)
      ∧ length args = length argsTypes
      ∧ ∀ i t, argsTypes !! i = Some t →
          args !! i = Some (typed_slot req methodConfig (Z.of_nat i) t).
Proof.
  intros req methodConfig argsTypes.
  assert (∀ k v t, 0 ≤ k → PathParamsMap methodConfig !! k = Some v →
                   argsTypes !! Z.to_nat k = Some t →
                   parses (reflect.Type_Kind t) (PathParameter req v)) as Hpath.
  { intros k v t Hk0 Hk. cbn in Hk.
    apply lookup_insert_Some in Hk as [[<- <-]|[_ Hk]].
    - intros [= <-]. reflexivity.
    - apply lookup_singleton_Some in Hk as [<- _]. lia. }
  assert (∀ k v t, 0 ≤ k → QueryParamsMap methodConfig !! k = Some v →
                   argsTypes !! Z.to_nat k = Some t →
                   parses (reflect.Type_Kind t) (QueryParameter req v)) as Hquery.
  { intros k v t _ Hk. cbn in Hk.
    apply lookup_singleton_Some in Hk as [<- <-]. intros [= <-]. reflexivity. }
  split; [exact descending_valid|]. split; [exact Hpath|].
  split; [exact Hquery|].
  exact (X10_typed_slots_by_precedence descending req argsTypes methodConfig
           descending_valid Hpath Hquery).
Defined.

Example typed_precedence_run :
  let req := request {["id" := ["7"]; "junk" := ["abc"]]} {["n" := ["8"]]}
               {["X-Name" := "ann"]} no_entity in
  let methodConfig :=
    config {[0 := "id"; -1 := "junk"]} {[0 := "n"]} {[1 := "X-Name"]} 2 in
  let argsTypes := [reflect.TInt32; reflect.TString; reflect.TPtr user] in
  fst <$> getArgsFromRequest descending req argsTypes methodConfig
  = Some [VInt32 8; VString "ann"; VNilPtr user]
  ∧ imap (λ i t, typed_slot req methodConfig (Z.of_nat i) t) argsTypes
    = [VInt32 8; VString "ann"; VNilPtr user].
Proof. split; vm_compute; reflexivity. Qed.

Lemma typed_binding_deterministic_without_parse_failures_witness :
  let req := request {["id" := ["7"]; "junk" := ["abc"]]} {["n" := ["8"]]}
               {["X-Name" := "ann"]} no_entity in
  let methodConfig :=
    config {[0 := "id"; -1 := "junk"]} {[0 := "n"]} {[1 := "X-Name"]} 2 in
  let argsTypes := [reflect.TInt32; reflect.TString; reflect.TPtr user] in
  range_valid ascending ∧ range_valid descending
  ∧ (∀ k v t, 0 ≤ k → PathParamsMap methodConfig !! k = Some v →
              argsTypes !! Z.to_nat k = Some t →
              parses (reflect.Type_Kind t) (PathParameter req v))
  ∧ (∀ k v t, 0 ≤ k → QueryParamsMap methodConfig !! k = Some v →
              argsTypes !! Z.to_nat k = Some t →
              parses (reflect.Type_Kind t) (QueryParameter req v))
  ∧ fst <$> getArgsFromRequest ascending req argsTypes methodConfig
    = fst <$> getArgsFromRequest descending req argsTypes methodConfig.
Proof.
  intros req methodConfig argsTypes.
  assert (∀ k v t, 0 ≤ k → PathParamsMap methodConfig !! k = Some v →
                   argsTypes !! Z.to_nat k = Some t →
                   parses (reflect.Type_Kind t) (PathParameter req v)) as Hpath.
  { intros k v t Hk0 Hk. cbn in Hk.
    apply lookup_insert_Some in Hk as [[<- <-]|[_ Hk]].
    - intros [= <-]. reflexivity.
    - apply lookup_singleton_Some in Hk as [<- _]. lia. }
  assert (∀ k v t, 0 ≤ k → QueryParamsMap methodConfig !! k = Some v →
                   argsTypes !! Z.to_nat k = Some t →
                   parses (reflect.Type_Kind t) (QueryParameter req v)) as Hquery.
  { intros k v t _ Hk. cbn in Hk.
    apply lookup_singleton_Some in Hk as [<- <-]. intros [= <-]. reflexivity. }
  split; [exact ascending_valid|]. split; [exact descending_valid|].
  split; [exact Hpath|]. split; [exact Hquery|].
  exact (typed_binding_deterministic_without_parse_failures ascending descending
           req argsTypes methodConfig ascending_valid descending_valid
           Hpath Hquery).
Defined.

(** ** Runs that log nothing *)

Lemma verdict_store_state argsTypes coerce missing kindmsg parsemsg kv ep k x :
  (verdict argsTypes coerce missing kindmsg parsemsg kv ep).1 = Store k x →
  (verdict argsTypes coerce missing kindmsg parsemsg kv ep).2.1 = None.
Proof.
  destruct kv as [k' v]. unfold verdict.
  destruct (out_of_range _ _); [done|].
  destruct (index argsTypes k'); [|done].
  by destruct (coerce _ _ _ _) as [[[e|] p]|].
Qed.

Lemma verdicts_silent argsTypes coerce missing kindmsg parsemsg
    (good : Z * string → Prop) (l : list (Z * string)) (p : value) :
  (∀ kv p,
     match (verdict argsTypes coerce missing kindmsg parsemsg kv (None, p)).1
     with Store _ _ => good kv | Log _ => ¬ good kv end) →
  logs (verdicts argsTypes coerce missing kindmsg parsemsg l (None, p)).1 = []
  ↔ Forall good l.
Proof.
  intros Hgood. revert p. induction l as [|kv l IH]; intros p; [done|].
  cbn [verdicts]. specialize (Hgood kv p).
  pose proof (verdict_store_state argsTypes coerce missing kindmsg parsemsg
                kv (None, p)) as Hstate.
  destruct (verdict _ _ _ _ _ kv (None, p)) as [ev [e1 p1]].
  cbn [fst snd] in Hgood, Hstate.
  destruct ev as [e|k x].
  - destruct (verdicts _ _ _ _ _ l (e1, p1)) as [evs ep2]. cbn.
    split; [done|]. by intros [? _]%Forall_cons.
  - rewrite (Hstate k x eq_refl). specialize (IH p1).
    destruct (verdicts _ _ _ _ _ l (None, p1)) as [evs ep2].
    cbn [fst logs omap] in *. rewrite IH, Forall_cons. tauto.
Qed.

Lemma path_verdict_fits req argsTypes (kv : Z * string) (p : value) :
  match (verdict argsTypes (path_coerce req) (λ k, (ERROR, PathArgMissing k))
           (λ k, (WARN, PathArgKind k)) (λ e, (ERROR, PathParse e))
           kv (None, p)).1
  with
  | Store _ _ => path_fits req argsTypes kv
  | Log _ => ¬ path_fits req argsTypes kv
  end.
Proof.
  destruct kv as [k v]. unfold verdict, path_fits. cbn [fst snd].
  destruct (out_of_range _ k) eqn:Hr.
  { apply out_of_range_true in Hr. intros (H0 & t & Ht & _).
    apply lookup_lt_Some in Ht. unfold len in Hr. lia. }
  apply out_of_range_false in Hr.
  destruct (index_Some argsTypes k Hr) as [t [-> Ht]].
  set (A := 0 ≤ k ∧ _).
  assert (A ↔ path_accepts (reflect.Type_Kind t) = true
              ∧ parses (reflect.Type_Kind t) (PathParameter req v)) as Hfit.
  { unfold A. split; [intros (_ & t' & Ht' & HP); by simplify_eq|].
    intros HP. split; [lia|eauto]. }
  clearbody A.
  destruct (reflect.Type_Kind t); cbn in *;
    try (first [by apply Hfit|rewrite Hfit; by intros [? ?]]).
  - destruct (strconv.Atoi _) as [n [e|]]; cbn in *;
      first [by apply Hfit|rewrite Hfit; by intros [? ?]].
  - destruct (strconv.ParseInt _ 32) as [n [e|]]; cbn in *;
      first [by apply Hfit|rewrite Hfit; by intros [? ?]].
  - destruct (strconv.ParseInt _ 64) as [n [e|]]; cbn in *;
      first [by apply Hfit|rewrite Hfit; by intros [? ?]].
Qed.

Lemma query_verdict_fits req argsTypes (kv : Z * string) (p : value) :
  match (verdict argsTypes (query_coerce req) (λ k, (ERROR, QueryArgMissing k))
           (λ k, (ERROR, QueryArgKind k)) (λ e, (ERROR, QueryParse e))
           kv (None, p)).1
  with
  | Store _ _ => query_fits req argsTypes kv
  | Log _ => ¬ query_fits req argsTypes kv
  end.
Proof.
  destruct kv as [k v]. unfold verdict, query_fits. cbn [fst snd].
  destruct (out_of_range _ k) eqn:Hr.
  { apply out_of_range_true in Hr. intros (H0 & t & Ht & _).
    apply lookup_lt_Some in Ht. unfold len in Hr. lia. }
  apply out_of_range_false in Hr.
  destruct (index_Some argsTypes k Hr) as [t [-> Ht]].
  set (A := 0 ≤ k ∧ _).
  assert (A ↔ query_accepts (reflect.Type_Kind t) = true
              ∧ parses (reflect.Type_Kind t) (QueryParameter req v)) as Hfit.
  { unfold A. split; [intros (_ & t' & Ht' & HP); by simplify_eq|].
    intros HP. split; [lia|eauto]. }
  clearbody A.
  destruct (reflect.Type_Kind t); cbn in *;
    try (first [by apply Hfit|rewrite Hfit; by intros [? ?]]).
  - destruct (strconv.Atoi _) as [n [e|]]; cbn in *;
      first [by apply Hfit|rewrite Hfit; by intros [? ?]].
  - destruct (strconv.ParseInt _ 32) as [n [e|]]; cbn in *;
      first [by apply Hfit|rewrite Hfit; by intros [? ?]].
  - destruct (strconv.ParseInt _ 64) as [n [e|]]; cbn in *;
      first [by apply Hfit|rewrite Hfit; by intros [? ?]].
Qed.

Lemma header_silent req argsTypes (l : list (Z * string)) :
  logs (header_events req argsTypes l) = [] ↔ Forall (header_fits argsTypes) l.
Proof.
  induction l as [|[k v] l IH]; [done|].
  unfold header_events in *. cbn [fmap list_fmap]. rewrite Forall_cons, <- IH.
  unfold header_event at 1, header_fits at 1. cbn [fst snd].
  destruct (out_of_range _ k) eqn:Hr.
  { apply out_of_range_true in Hr. cbn. split; [done|].
    intros [(H0 & t & Ht & _) _].
    apply lookup_lt_Some in Ht. unfold len in Hr. lia. }
  apply out_of_range_false in Hr.
  destruct (index_Some argsTypes k Hr) as [t [-> Ht]].
  case_decide as Hkind; cbn.
  - split; [|by intros [_ ?]]. intros Hl. split; [|done].
    split; [lia|eauto].
  - split; [done|]. intros [(_ & t' & Ht' & Hk') _]. by simplify_eq.
Qed.

Lemma body_silent req argsTypes (body : Z) :
  logs (body_events req argsTypes body) = [] ↔ body_fits req argsTypes body.
Proof.
  unfold body_fits.
  destruct (decide (0 ≤ body < len argsTypes)) as [Hr|Hr].
  - destruct (index_Some argsTypes body Hr) as [t [_ Ht]].
    rewrite (body_events_in_range req argsTypes body t) by (done || lia).
    split.
    + intros Hl t' _ Ht'. simplify_eq.
      destruct (ReadEntity _ _) as [e|ni]; [done|eauto].
    + intros Hfit. destruct (Hfit t) as [ni ->]; [lia|done|done].
  - rewrite body_events_out_of_range by done. split; [|done].
    intros _ t H0 Ht. apply lookup_lt_Some in Ht. unfold len in Hr. lia.
Qed.

(** X11: the typed binder logs nothing exactly when the configuration
    fits the signature and the request: every index of the path, query
    and header mapping is an index of the argument list; every
    path-mapped slot is of kind Int, Int32, Int64 or String and every
    query-mapped slot of one of these kinds or Slice; every value mapped
    to an integer slot is a number of its width; every header-mapped slot
    is of kind String with one pointer removed; and the body decodes when
    the body index is an index of the list. *)
Theorem X11_typed_binder_silent_iff_fits (ρ : range_order)
    (req : RestServerRequest) (argsTypes : list reflect.Type_)
    (methodConfig : RestMethodConfig) :
  range_valid ρ →
  ∃ args log,
    getArgsFromRequest ρ req argsTypes methodConfig = Some (args, log)
    ∧ (log = [] ↔ fits req argsTypes methodConfig).
Proof.
  intros Hρ.
  destruct (typed_result ρ req argsTypes methodConfig) as (args & Hrun & _).
  exists args, (logs (typed_events ρ req argsTypes methodConfig)).
  split; [exact Hrun|].
  assert (∀ site (good : Z * string → Prop) (m : gmap Z string),
            Forall good (ρ site _ m) ↔ ∀ k v, m !! k = Some v → good (k, v))
    as Hall.
  { intros site good m. rewrite Forall_forall. split.
    - intros H k v Hm. by apply H, (range_elem_of ρ Hρ).
    - intros H [k v] Hin. by apply H, (range_elem_of ρ Hρ site). }
  unfold typed_events, fits, path_events, query_events.
  rewrite !logs_app, !app_nil.
  rewrite (verdicts_silent argsTypes (path_coerce req) _ _ _
             (path_fits req argsTypes)) by apply path_verdict_fits.
  rewrite (verdicts_silent argsTypes (query_coerce req) _ _ _
             (query_fits req argsTypes)) by apply query_verdict_fits.
  rewrite header_silent, body_silent, !Hall. tauto.
Qed.

Lemma X11_typed_binder_silent_iff_fits_witness :
  let req := request {["id" := ["7"]]} {["n" := ["x"]]} ∅ no_entity in
  let methodConfig := config {[0 := "id"]} {[1 := "n"]} ∅ (-1) in
  let argsTypes := [reflect.TInt; reflect.TInt64] in
  range_valid ascending
  ∧ ∃ args log,
      getArgsFromRequest ascending req argsTypes methodConfig = Some (args, log)
      ∧ (log = [] ↔ fits req argsTypes methodConfig).
Proof.
  intros req methodConfig argsTypes. split; [exact ascending_valid|].
  exact (X11_typed_binder_silent_iff_fits ascending req argsTypes methodConfig
           ascending_valid).
Defined.

Example silent_run :
  let req := request {["id" := ["7"]]} {["n" := ["8"]]} ∅ no_entity in
  let methodConfig := config {[0 := "id"]} {[1 := "n"]} ∅ (-1) in
  getArgsFromRequest ascending req [reflect.TInt; reflect.TInt64] methodConfig
  = Some ([VInt 7; VInt64 8], []).
Proof. vm_compute. reflexivity. Qed.

(** ** The route function *)

Lemma GetRouteFunc_response (ρ : range_order) (svc : gmap string MethodType)
    (invoker : Invoker) (methodConfig : RestMethodConfig)
    (req : RestServerRequest) (resp : RestServerResponse) (method : MethodType) :
  svc !! MethodName methodConfig = Some method →
  GetRouteFunc ρ svc invoker methodConfig req resp
  = '(args, log) ←
      (if decide (generic_signature (ArgsType method) (ReplyType method))
       then getArgsInterfaceFromRequest ρ req methodConfig
       else getArgsFromRequest ρ req (ArgsType method) methodConfig);
    let r := response_of resp (invoker (MethodName methodConfig) args) in
    Some (args, r.1, log ++ r.2).
Proof.
  intros Hm. unfold GetRouteFunc. rewrite Hm. cbn [mbind option_bind].
  rewrite chosen_spec. cbn [mbind option_bind].
  destruct (decide (generic_signature (ArgsType method) (ReplyType method)));
    [destruct (getArgsInterfaceFromRequest ρ req methodConfig) as [[a lg]|]
    |destruct (getArgsFromRequest ρ req (ArgsType method) methodConfig)
       as [[a lg]|]]; try done; cbn [mbind option_bind]; unfold response_of;
    (destruct (Error _); [destruct (WriteError _ _ _)|destruct (WriteEntity _ _)]);
    cbn [fst snd]; by rewrite ?app_nil_r.
Qed.

(** X12: with the indices of the configuration among the values of
    [int], the route function panics in exactly two cases: the service has
    no method of the configured name, or the method is served by the
    generic convention and an index of the configuration is at or beyond
    the largest length that [make] allocates.  In every other case it
    binds the arguments with the binder of the convention, invokes the
    method with them whatever the binder logged, and writes one response
    that depends on the result of the invocation only: status 500 with
    the error when the result carries one, the result value otherwise.  A
    failure to write is logged as one error after the entries of the
    binder and changes neither; nothing else is logged. *)
Theorem X12_route_function (ρ : range_order) (svc : gmap string MethodType)
    (invoker : Invoker) (methodConfig : RestMethodConfig)
    (req : RestServerRequest) (resp : RestServerResponse) :
  range_valid ρ →
  (∀ k, referenced methodConfig k → k ≤ MaxInt) →
  (GetRouteFunc ρ svc invoker methodConfig req resp = None
   ↔ svc !! MethodName methodConfig = None
     ∨ ∃ method, svc !! MethodName methodConfig = Some method
                 ∧ generic_signature (ArgsType method) (ReplyType method)
                 ∧ ∃ k, referenced methodConfig k ∧ MaxLen ≤ k)
  ∧ ∀ args w log,
      GetRouteFunc ρ svc invoker methodConfig req resp = Some (args, w, log) →
      ∃ method bound,
        svc !! MethodName methodConfig = Some method
        ∧ (if decide (generic_signature (ArgsType method) (ReplyType method))
           then getArgsInterfaceFromRequest ρ req methodConfig
           else getArgsFromRequest ρ req (ArgsType method) methodConfig)
          = Some (args, bound)
        ∧ match Error (invoker (MethodName methodConfig) args) with
          | Some e =>
              w = WroteError StatusInternalServerError e
              ∧ log = bound
                      ++ match WriteError resp StatusInternalServerError e with
                         | Some e' => [(ERROR, WriteErrorFailed e')]
                         | None => []
                         end
          | None =>
              w = WroteEntity (Result_ (invoker (MethodName methodConfig) args))
              ∧ log = bound
                      ++ match WriteEntity resp
                                 (Result_ (invoker (MethodName methodConfig) args))
                         with
                         | Some e' => [(ERROR, WriteEntityFailed e')]
                         | None => []
                         end
          end.
Proof.
  intros Hρ Hbound.
  destruct (svc !! MethodName methodConfig) as [method|] eqn:Hm; last first.
  { unfold GetRouteFunc. rewrite Hm. split; [naive_solver|done]. }
  rewrite (GetRouteFunc_response ρ svc invoker methodConfig req resp method Hm).
  split.
  - destruct (decide (generic_signature (ArgsType method) (ReplyType method)))
      as [Hg|Hg].
    + pose proof (generic_panics_iff ρ req methodConfig Hρ
                    (generic_maxKey_int methodConfig Hbound)) as Hpanic.
      rewrite generic_maxKey_large in Hpanic.
      destruct (getArgsInterfaceFromRequest ρ req methodConfig)
        as [[a lg]|]; cbn [mbind option_bind].
      * split; [done|]. intros [?|(m & _ & _ & Hlarge)]; [done|].
        by apply Hpanic in Hlarge.
      * split; [|done]. intros _. right. exists method.
        split; [done|]. split; [done|]. by apply Hpanic.
    + destruct (typed_result ρ req (ArgsType method) methodConfig)
        as (a & -> & _).
      split; [done|]. intros [?|(m & Hm' & Hg' & _)]; [done|]. by simplify_eq.
  - intros args w log Hrun. exists method.
    destruct (if decide _ then _ else _) as [[a lg]|]; [|done].
    cbn [mbind option_bind] in Hrun. injection Hrun as <- <- <-.
    exists lg. split; [done|]. split; [done|].
    unfold response_of. by destruct (Error _).
Qed.

Lemma X12_route_function_witness :
  let method := {| ArgsType := [reflect.TInt]; ReplyType := Some user |} in
  let svc : gmap string MethodType := {["GetUser" := method]} in
  let invoker : Invoker :=
    λ _ _, {| Error := Some (EntityErr "boom"); Result_ := VNil |} in
  let resp := {| WriteError := λ _ _, Some (EntityErr "closed");
                 WriteEntity := λ _, None |} in
  let req := request {["id" := ["x"]]} ∅ ∅ no_entity in
  let methodConfig := config {[0 := "id"]} ∅ ∅ (-1) in
  range_valid ascending
  ∧ (∀ k, referenced methodConfig k → k ≤ MaxInt)
  ∧ (GetRouteFunc ascending svc invoker methodConfig req resp = None
     ↔ svc !! MethodName methodConfig = None
       ∨ ∃ method, svc !! MethodName methodConfig = Some method
                   ∧ generic_signature (ArgsType method) (ReplyType method)
                   ∧ ∃ k, referenced methodConfig k ∧ MaxLen ≤ k)
  ∧ ∀ args w log,
      GetRouteFunc ascending svc invoker methodConfig req resp
      = Some (args, w, log) →
      ∃ method bound,
        svc !! MethodName methodConfig = Some method
        ∧ (if decide (generic_signature (ArgsType method) (ReplyType method))
           then getArgsInterfaceFromRequest ascending req methodConfig
           else getArgsFromRequest ascending req (ArgsType method) methodConfig)
          = Some (args, bound)
        ∧ match Error (invoker (MethodName methodConfig) args) with
          | Some e =>
              w = WroteError StatusInternalServerError e
              ∧ log = bound
                      ++ match WriteError resp StatusInternalServerError e with
                         | Some e' => [(ERROR, WriteErrorFailed e')]
                         | None => []
                         end
          | None =>
              w = WroteEntity (Result_ (invoker (MethodName methodConfig) args))
              ∧ log = bound
                      ++ match WriteEntity resp
                                 (Result_ (invoker (MethodName methodConfig) args))
                         with
                         | Some e' => [(ERROR, WriteEntityFailed e')]
                         | None => []
                         end
          end.
Proof.
  intros method svc invoker resp req methodConfig.
  assert (∀ k, referenced methodConfig k → k ≤ MaxInt) as Hbound.
  { intros k. unfold referenced.
    remember (keys (PathParamsMap methodConfig)) as ps eqn:Ep.
    remember (keys (QueryParamsMap methodConfig)) as qs eqn:Eq.
    remember (keys (HeadersMap methodConfig)) as hs eqn:Eh.
    vm_compute in Ep, Eq, Eh. subst ps qs hs.
    rewrite !elem_of_cons, !elem_of_nil. unfold MaxInt, IntSize. cbn. lia. }
  split; [exact ascending_valid|]. split; [exact Hbound|].
  exact (X12_route_function ascending svc invoker methodConfig req resp
           ascending_valid Hbound).
Defined.

Example route_function_run :
  let method := {| ArgsType := [reflect.TInt]; ReplyType := Some user |} in
  let svc : gmap string MethodType := {["GetUser" := method]} in
  let invoker : Invoker :=
    λ _ _, {| Error := Some (EntityErr "boom"); Result_ := VNil |} in
  let resp := {| WriteError := λ _ _, Some (EntityErr "closed");
                 WriteEntity := λ _, None |} in
  let req := request {["id" := ["x"]]} ∅ ∅ no_entity in
  let methodConfig := config {[0 := "id"]} ∅ ∅ (-1) in
  GetRouteFunc ascending svc invoker methodConfig req resp
  = Some ([VInt 0],
          WroteError StatusInternalServerError (EntityErr "boom"),
          [(ERROR, PathParse (NumErr (strconv.syntaxError "Atoi" "x")));
           (ERROR, WriteErrorFailed (EntityErr "closed"))]).
Proof. vm_compute. reflexivity. Qed.

(** ** What the passes leave alone *)

Lemma replay_frame (mapped : Z → Prop) (evs : list event)
    (s : list value * list entry) :
  (∀ i : nat, ¬ mapped (Z.of_nat i) → last_store evs i = None) →
  frame mapped s (Some (replay evs s)).
Proof.
  intros Hun. exists (replay evs s).1, (replay evs s).2.
  split; [by destruct (replay evs s)|]. split; [apply replay_length|].
  split; [rewrite replay_logs; by apply prefix_app_r|].
  intros i Hi. by rewrite replay_lookup, (Hun i Hi).
Qed.

(** X14: each of the four passes of the typed binder, run on a list of
    the declared length, returns a list of the same length, only adds
    entries at the end of the log, and leaves every slot that its own
    mapping does not name as it found it. *)
Theorem X14_passes_frame (ρ : range_order) (req : RestServerRequest)
    (argsTypes : list reflect.Type_) (methodConfig : RestMethodConfig)
    (s : list value * list entry) :
  range_valid ρ →
  length s.1 = length argsTypes →
  frame (λ k, is_Some (PathParamsMap methodConfig !! k)) s
    (assembleArgsFromPathParams ρ methodConfig (len argsTypes) argsTypes req s)
  ∧ frame (λ k, is_Some (QueryParamsMap methodConfig !! k)) s
      (assembleArgsFromQueryParams ρ methodConfig (len argsTypes) argsTypes
         req s)
  ∧ frame (λ k, k = Body methodConfig) s
      (assembleArgsFromBody methodConfig argsTypes req s)
  ∧ frame (λ k, is_Some (HeadersMap methodConfig !! k)) s
      (assembleArgsFromHeaders ρ methodConfig req (len argsTypes) argsTypes s).
Proof.
  intros Hρ Hlen.
  rewrite path_pass_replay, query_pass_replay, body_pass_replay,
    header_pass_replay by done.
  repeat split; apply replay_frame; intros i Hi.
  - apply verdicts_unmapped, range_not_elem_of; [done|].
    by apply eq_None_not_Some.
  - apply verdicts_unmapped, range_not_elem_of; [done|].
    by apply eq_None_not_Some.
  - destruct (argsTypes !! i) as [t|] eqn:Ht.
    + rewrite (body_slot req argsTypes _ i t Ht). by rewrite decide_False.
    + apply last_store_None. intros k x Hin Hk. unfold body_events in Hin.
      destruct ((0 <=? Body methodConfig) && _) eqn:Hr;
        [|by apply elem_of_nil in Hin].
      destruct (index argsTypes (Body methodConfig));
        [|by apply elem_of_nil in Hin].
      destruct (ReadEntity req _);
        apply list_elem_of_singleton in Hin; [done|].
      injection Hin as Hk' _. apply Hi. lia.
  - apply header_unmapped, range_not_elem_of; [done|].
    by apply eq_None_not_Some.
Qed.

Lemma X14_passes_frame_witness :
  let req := request {["id" := ["7"]]} {["n" := ["abc"]]} {["X-Name" := "ann"]}
               no_entity in
  let methodConfig := config {[0 := "id"]} {[1 := "n"]} {[2 := "X-Name"]} 3 in
  let argsTypes :=
    [reflect.TInt; reflect.TInt32; reflect.TString; reflect.TPtr user] in
  let s : list value * list entry :=
    ([VInt 1; VInt32 2; VString "was"; VNilPtr user],
     [(WARN, PathArgKind 9)]) in
  range_valid descending
  ∧ length s.1 = length argsTypes
  ∧ frame (λ k, is_Some (PathParamsMap methodConfig !! k)) s
      (assembleArgsFromPathParams descending methodConfig (len argsTypes)
         argsTypes req s)
  ∧ frame (λ k, is_Some (QueryParamsMap methodConfig !! k)) s
      (assembleArgsFromQueryParams descending methodConfig (len argsTypes)
         argsTypes req s)
  ∧ frame (λ k, k = Body methodConfig) s
      (assembleArgsFromBody methodConfig argsTypes req s)
  ∧ frame (λ k, is_Some (HeadersMap methodConfig !! k)) s
      (assembleArgsFromHeaders descending methodConfig req (len argsTypes)
         argsTypes s).
Proof.
  intros req methodConfig argsTypes s.
  split; [exact descending_valid|]. split; [reflexivity|].
  exact (X14_passes_frame descending req argsTypes methodConfig s
           descending_valid eq_refl).
Defined.
